(** * Morpho + Pendle collector: a shallow embedding and its properties

    The development follows the collector script (the single-file
    [morpho_pendle_collector.js]) and the [MorphoDataBuilder] class of
    [get_morpho_data.js].  Asynchronous calls are modelled in direct style:
    an [await] is a function call whose answer comes from an explicit oracle
    (the provider), a rejected promise is the [Throw] branch of [result],
    [sleep] appends to a log of delays, and [Math.random] reads from an
    explicit stream of numbers in [0, 1). *)

From Stdlib Require Import String Ascii DecimalString DecimalZ.
From Stdlib Require Import List Arith ZArith QArith Bool Lia Lqa.
From Stdlib Require Import Permutation Sorted.
Import ListNotations.
Local Open Scope nat_scope.

Set Implicit Arguments.

(** ** Errors and results *)

(** A thrown JavaScript value, identified by the data its message is built
    from:
    - [HttpError]: [new Error(`HTTP ${status} ${statusText} - ${url} - ${body}`)]
      of [fetchJsonWithRetry];
    - [GraphQLHttpError]: [new Error(`GraphQL ${status} ${statusText}: ${text}`)]
      of [gqlRequest];
    - [GraphQLErrors]: [new Error(`GraphQL errors: ${errorMessage}`)];
    - [NetworkError]: what [fetch] or [res.json()] rejects with;
    - [TypeError]: a property read on [null]/[undefined], or a call of
      something that is not a function. *)
Inductive error : Type :=
| HttpError (status : Z) (statusText body : string)
| GraphQLHttpError (status : Z) (statusText text : string)
| GraphQLErrors (errorMessage : string)
| NetworkError (msg : string)
| TypeError (msg : string).

Inductive result (A : Type) : Type :=
| Ok (a : A)
| Throw (e : error).
Arguments Ok {A} a.
Arguments Throw {A} e.

Definition bind {A B : Type} (r : result A) (k : A -> result B) : result B :=
  match r with
  | Ok a => k a
  | Throw e => Throw e
  end.

Notation "x <- c ;; k" := (bind c (fun x => k))
  (at level 61, c at next level, right associativity).

(** [a || b] on a nullable array: [null]/[undefined] give the default. *)
Definition or_empty {A : Type} (o : option (list A)) : list A :=
  match o with
  | Some l => l
  | None => []
  end.

(** [obj[k] = v] on an object kept as the list of its own properties, in
    the order they were created. *)
Fixpoint set_key {A : Type} (k : string) (v : A) (obj : list (string * A))
  : list (string * A) :=
  match obj with
  | [] => [(k, v)]
  | (k', v') :: rest =>
      if String.eqb k k' then (k, v) :: rest else (k', v') :: set_key k v rest
  end.

(** ** Configuration: the fields of [CONFIG] the core reads *)

Record Config : Type := {
  morphoPageSize : nat;
  txPageSize : nat;
  concurrency : Z;
  rateLimitMs : Z;
  maxRetries : nat;
  marketsLimit : option Z;
  testMode : bool
}.

(** The defaults of the script when no flag and no environment variable is
    given and the test flag is absent. *)
Definition default_config : Config := {|
  morphoPageSize := 50;
  txPageSize := 200;
  concurrency := 4;
  rateLimitMs := 200;
  maxRetries := 5;
  marketsLimit := None;
  testMode := false
|}.

(** ** Offset pagination: [fetchAllUserTransactionsForMarket] and
    [fetchAllMorphoMarkets] *)

Module Paginate.

(** One page of a listing query: [page.items] may be absent, and so may
    [page.pageInfo.countTotal]. *)
Record page (A : Type) : Type := {
  items : option (list A);
  countTotal : option nat
}.

(** How a run of the loop ends.  [Returned out n]: the function returned
    [out] after [n] calls of [gqlRequest]; [Thrown e n]: the [n]-th call threw;
    [Diverged]: the fuel of the model ran out. *)
Inductive outcome (A : Type) : Type :=
| Returned (out : list A) (calls : nat)
| Thrown (e : error) (calls : nat)
| Diverged.
Arguments Returned {A} out calls.
Arguments Thrown {A} e calls.
Arguments Diverged {A}.

Section Loop.
Variable A : Type.

(** The provider: the answer of [gqlRequest] to the [n]-th call of the
    loop (counted from 0) with variables [first] and [skip]. *)
Variable gql : nat -> nat -> nat -> result (page A).

(** The body of [for (;;)], with the loop variables [skip], [all] (or
    [out]) and [total] as arguments; [calls] counts the requests made. *)
Fixpoint loop (fuel first skip : nat) (all : list A) (total : option nat)
         (calls : nat) : outcome A :=
  match fuel with
  | O => Diverged
  | S fuel' =>
      match gql calls first skip with
      | Throw e => Thrown e (S calls)
      | Ok pg =>
          let its := or_empty (items pg) in
          let all' := all ++ its in
          let total' :=
            match total with
            | None =>
                match countTotal pg with
                | Some t => t
                | None => length its
                end
            | Some t => t
            end in
          let skip' := skip + length its in
          if (length its =? 0) || (total' <=? skip')
          then Returned all' (S calls)
          else loop fuel' first skip' all' (Some total') (S calls)
      end
  end.

Definition fetchAllUserTransactionsForMarket (cfg : Config) (fuel : nat)
  : outcome A :=
  loop fuel (txPageSize cfg) 0 [] None 0.

(** [all.slice(0, n)]: a negative [n] counts from the end. *)
Definition slice0 (all : list A) (n : Z) : list A :=
  if (n <? 0)%Z
  then firstn (Z.to_nat (Z.of_nat (length all) + n)) all
  else firstn (Z.to_nat n) all.

(** [CONFIG.marketsLimit ? all.slice(0, CONFIG.marketsLimit) : all];
    [null] and [0] are falsy. *)
Definition apply_marketsLimit (cfg : Config) (all : list A) : list A :=
  match marketsLimit cfg with
  | None => all
  | Some n => if (n =? 0)%Z then all else slice0 all n
  end.

Definition fetchAllMorphoMarkets (cfg : Config) (fuel : nat) : outcome A :=
  match loop fuel (morphoPageSize cfg) 0 [] None 0 with
  | Returned all n => Returned (apply_marketsLimit cfg all) n
  | o => o
  end.
End Loop.

(** A well-formed provider serves a fixed data set [D] by offset: every
    page holds the next [first] items (fewer at the end) and reports
    [length D] as the total. *)
Definition well_formed {A : Type} (gql : nat -> nat -> nat -> result (page A))
           (D : list A) : Prop :=
  forall n first skip,
    gql n first skip =
    Ok {| items := Some (firstn first (skipn skip D));
          countTotal := Some (length D) |}.

(** The provider that serves [D]. *)
Definition serve {A : Type} (D : list A) : nat -> nat -> nat -> result (page A) :=
  fun _ first skip =>
    Ok {| items := Some (firstn first (skipn skip D));
          countTotal := Some (length D) |}.

(** [ceil(T / P)] on naturals. *)
Definition ceil_div (T P : nat) : nat := (T + P - 1) / P.

End Paginate.

(** ** Network helpers: [fetchJsonWithRetry] and [gqlRequest] *)

Module Retry.

(** [haystack.includes(needle)]. *)
Fixpoint includes (needle haystack : string) : bool :=
  String.prefix needle haystack ||
  match haystack with
  | EmptyString => false
  | String _ rest => includes needle rest
  end.

(** What [fetch] resolves with.  [json] is the outcome of [res.json()],
    which rejects on a malformed body. *)
Record response (J : Type) : Type := {
  status : Z;
  statusText : string;
  text : string;
  json : result J
}.

(** [res.ok]: the status is in the range 200-299. *)
Definition ok {J : Type} (res : response J) : bool :=
  ((200 <=? status res) && (status res <=? 299))%Z.

(** [[429, 500, 502, 503, 504].includes(res.status)]. *)
Definition retryable_status (s : Z) : bool :=
  existsb (Z.eqb s) [429; 500; 502; 503; 504]%Z.

(** The body of a GraphQL answer.  [errors] is [None] when [json.errors] is
    falsy and [Some m] when it is truthy, [m] being
    [JSON.stringify(json.errors)]. *)
Record gql_body (D : Type) : Type := {
  errors : option string;
  data : D
}.

(** The observable state of a call: how many times [fetch] was invoked and
    the delays slept, oldest first. *)
Record io : Type := {
  fetches : nat;
  slept : list Q
}.

Definition io0 : io := {| fetches := 0; slept := [] |}.

Definition fetched (st : io) : io :=
  {| fetches := S (fetches st); slept := slept st |}.

Definition sleep (ms : Q) (st : io) : io :=
  {| fetches := fetches st; slept := slept st ++ [ms] |}.

(** What one attempt decides once the response is in. *)
Inductive verdict (X : Type) : Type :=
| Success (x : X) (pacing : option Q)
| Retry (delay : Q)
| Fatal (e : error).
Arguments Success {X} x pacing.
Arguments Retry {X} delay.
Arguments Fatal {X} e.

(** [Math.min(1000 * Math.pow(2, tryNum), 30000)]. *)
Definition http_base_delay (tryNum : nat) : Z :=
  Z.min (1000 * 2 ^ Z.of_nat tryNum) 30000.

(** [baseDelay + Math.random() * 1000], [r] being the random number. *)
Definition http_delay (tryNum : nat) (r : Q) : Q :=
  inject_Z (http_base_delay tryNum) + r * 1000.

(** [Math.min(1500 * Math.pow(2, tryNum), 45000)]. *)
Definition gql_base_delay (tryNum : nat) : Z :=
  Z.min (1500 * 2 ^ Z.of_nat tryNum) 45000.

Definition gql_delay (tryNum : nat) (r : Q) : Q :=
  inject_Z (gql_base_delay tryNum) + r * 1500.

(** [200 * tryNum], the delay of the two quick retries on GraphQL errors. *)
Definition gql_quick_delay (tryNum : nat) : Q :=
  inject_Z (200 * Z.of_nat tryNum).

(** [2000 * Math.pow(2, tryNum) + Math.random() * 1000]. *)
Definition gql_error_delay (tryNum : nat) (r : Q) : Q :=
  inject_Z (2000 * 2 ^ Z.of_nat tryNum) + r * 1000.

Section Client.
Variable cfg : Config.

(** [Math.random()] during the [n]-th attempt (each attempt draws at most
    one number). *)
Variable rnd : nat -> Q.

(** The body of [fetchJsonWithRetry] after [await fetch(url, opts)]. *)
Definition http_attempt {J : Type} (tryNum : nat) (r : Q)
           (res : response J) : verdict J :=
  if negb (ok res) then
    if (tryNum <? maxRetries cfg) && retryable_status (status res)
    then Retry (http_delay tryNum r)
    else Fatal (HttpError (status res) (statusText res) (text res))
  else
    match json res with
    | Ok j => Success j None
    | Throw e => Fatal e
    end.

(** The body of [gqlRequest] after [await fetch(MORPHO_ENDPOINT, ...)]. *)
Definition gql_attempt {D : Type} (tryNum : nat) (r : Q)
           (res : response (gql_body D)) : verdict D :=
  if negb (ok res) then
    if (tryNum <? maxRetries cfg) && retryable_status (status res)
    then Retry (gql_delay tryNum r)
    else Fatal (GraphQLHttpError (status res) (statusText res) (text res))
  else
    match json res with
    | Throw e => Fatal e
    | Ok js =>
        match errors js with
        | Some errorMessage =>
            if tryNum <? 3 then Retry (gql_quick_delay tryNum)
            else if includes "Internal server error" errorMessage
                    && (tryNum <? maxRetries cfg)
            then Retry (gql_error_delay tryNum r)
            else Fatal (GraphQLErrors errorMessage)
        | None =>
            Success (data js) (Some (inject_Z (rateLimitMs cfg) + r * 50)%Q)
        end
    end.

(** The recursion shared by the two functions: invoke [fetch], decide,
    sleep and call again with [tryNum + 1].  [None]: the fuel of the model
    ran out. *)
Fixpoint attempts {J X : Type} (attempt : nat -> Q -> response J -> verdict X)
         (fetch : nat -> result (response J))
         (fuel tryNum : nat) (st : io) : option (result X * io) :=
  match fuel with
  | O => None
  | S fuel' =>
      match fetch (fetches st) with
      | Throw e => Some (Throw e, fetched st)
      | Ok res =>
          match attempt tryNum (rnd (fetches st)) res with
          | Success x None => Some (Ok x, fetched st)
          | Success x (Some pacing) => Some (Ok x, sleep pacing (fetched st))
          | Retry delay =>
              attempts attempt fetch fuel' (S tryNum) (sleep delay (fetched st))
          | Fatal e => Some (Throw e, fetched st)
          end
      end
  end.

(** [fetchJsonWithRetry(url)], [tryNum = 1]. *)
Definition fetchJsonWithRetry {J : Type} (fetch : nat -> result (response J))
  : option (result J * io) :=
  attempts http_attempt fetch (Nat.max 1 (maxRetries cfg)) 1 io0.

(** [gqlRequest(query, variables)], [tryNum = 1]. *)
Definition gqlRequest {D : Type} (fetch : nat -> result (response (gql_body D)))
  : option (result D * io) :=
  attempts gql_attempt fetch (Nat.max 3 (maxRetries cfg)) 1 io0.
End Client.

(** An attempt of [fetchJsonWithRetry] has a retryable outcome. *)
Definition http_retryable {J : Type} (r : result (response J)) : Prop :=
  exists res, r = Ok res /\ retryable_status (status res) = true.

(** An attempt of [gqlRequest] has a retryable outcome: a retryable HTTP
    status, or a 2xx answer whose errors carry the transient message. *)
Definition gql_retryable {D : Type} (r : result (response (gql_body D))) : Prop :=
  exists res, r = Ok res /\
    (retryable_status (status res) = true \/
     (ok res = true /\
      exists js m, json res = Ok js /\ errors js = Some m /\
                   includes "Internal server error" m = true)).

(** The error thrown for the final response when the budget is spent. *)
Definition http_final_error {J : Type} (r : result (response J)) : error :=
  match r with
  | Ok res => HttpError (status res) (statusText res) (text res)
  | Throw e => e
  end.

Definition gql_final_error {D : Type} (r : result (response (gql_body D))) : error :=
  match r with
  | Ok res =>
      if negb (ok res)
      then GraphQLHttpError (status res) (statusText res) (text res)
      else match json res with
           | Ok js => GraphQLErrors (match errors js with
                                     | Some m => m
                                     | None => EmptyString
                                     end)
           | Throw e => e
           end
  | Throw e => e
  end.

(** The delay [gqlRequest] sleeps after the attempt numbered [tryNum], if it
    retries the response. *)
Definition gql_retry_delay (cfg : Config) (D : Type) (tryNum : nat) (r : Q)
           (resp : result (response (gql_body D))) : Q :=
  match resp with
  | Ok res =>
      match gql_attempt cfg tryNum r res with
      | Retry d => d
      | _ => 0
      end
  | Throw _ => 0
  end.

(** The delay [gqlRequest] sleeps after a retried GraphQL errors answer:
    [200 * tryNum] on the first two attempts, the exponential one after. *)
Definition gql_application_delay (tryNum : nat) (r : Q) : Q :=
  if tryNum <? 3 then gql_quick_delay tryNum else gql_error_delay tryNum r.

(** *** Sample providers *)

(** A provider that answers every call with the same non-2xx status. *)
Definition always_status (J : Type) (s : Z) : nat -> result (response J) :=
  fun _ => Ok {| status := s; statusText := "Error"; text := EmptyString;
                 json := Throw (NetworkError "Unexpected end of JSON input") |}.

(** A 200 answer with the given errors text and data. *)
Definition gql_answer (D : Type) (errs : option string) (d : D)
  : response (gql_body D) :=
  {| status := 200; statusText := "OK"; text := EmptyString;
     json := Ok {| errors := errs; data := d |} |}.

Definition quoted (s : string) : string :=
  String (ascii_of_nat 34) (s ++ String (ascii_of_nat 34) EmptyString).

(** [JSON.stringify([{ message: msg }])]. *)
Definition errors_text (msg : string) : string :=
  "[{" ++ quoted "message" ++ ":" ++ quoted msg ++ "}]".

(** Every answer is a 200 carrying the transient error message. *)
Definition always_internal_error : nat -> result (response (gql_body nat)) :=
  fun _ => Ok (gql_answer (Some (errors_text "Internal server error")) 0).

(** A 503 first, then the transient error message for ever. *)
Definition unavailable_then_internal_error
  : nat -> result (response (gql_body nat)) :=
  fun n =>
    match n with
    | O => always_status (gql_body nat) 503 0
    | S _ => always_internal_error n
    end.

(** A permanent application error first, then a clean answer. *)
Definition bad_request_then_data : nat -> result (response (gql_body nat)) :=
  fun n =>
    match n with
    | O => Ok (gql_answer (Some (errors_text "Unknown argument")) 0)
    | S _ => Ok (gql_answer None 7)
    end.

Definition no_jitter : nat -> Q := fun _ => 0%Q.

Definition config_with_retries (n : nat) : Config := {|
  morphoPageSize := 50;
  txPageSize := 200;
  concurrency := 4;
  rateLimitMs := 200;
  maxRetries := n;
  marketsLimit := None;
  testMode := false
|}.

End Retry.

(** ** The concurrency gate: [pLimit] *)

Module Gate.

(** How the promise returned by a task's [fn] settles. *)
Inductive settlement (V : Type) : Type :=
| Fulfilled (v : V)
| Rejected (e : error).
Arguments Fulfilled {V} v.
Arguments Rejected {V} e.

(** The closure state of one [pLimit(concurrency)] together with what an
    observer sees of it.  [active] and [queue] are the variables of the
    source ([queue] holds the [run] closures, named here by the number of the
    submission that created them).  [running] lists the submissions whose
    [run] was called and whose promise has not settled, [started] logs the
    calls of [run] in order, [settled] logs what each caller's promise was
    resolved or rejected with, and [submitted] counts the calls of the
    returned function. *)
Record gate (V : Type) : Type := {
  active : Z;
  queue : list nat;
  running : list nat;
  started : list nat;
  settled : list (nat * settlement V);
  submitted : nat
}.

(** What can happen to a gate: the returned function is called with a new
    task, or the promise of a started task settles. *)
Inductive event (V : Type) : Type :=
| Submit
| Settle (id : nat) (o : settlement V).
Arguments Submit {V}.
Arguments Settle {V} id o.

Section Limit.
Variable V : Type.
Variable concurrency : Z.

(** [const queue = []; let active = 0;] *)
Definition pLimit : gate V :=
  {| active := 0; queue := []; running := []; started := [];
     settled := []; submitted := 0 |}.

(** [run]: [active++] and the task is handed to the microtask queue. *)
Definition run (id : nat) (g : gate V) : gate V :=
  {| active := active g + 1;
     queue := queue g;
     running := running g ++ [id];
     started := started g ++ [id];
     settled := settled g;
     submitted := submitted g |}.

(** [next]: [active--; if (queue.length) queue.shift()();] *)
Definition next (g : gate V) : gate V :=
  let g1 := {| active := active g - 1;
               queue := queue g;
               running := running g;
               started := started g;
               settled := settled g;
               submitted := submitted g |} in
  match queue g1 with
  | [] => g1
  | id :: rest =>
      run id {| active := active g1;
                queue := rest;
                running := running g1;
                started := started g1;
                settled := settled g1;
                submitted := submitted g1 |}
  end.

(** The returned function: [if (active < concurrency) run(); else
    queue.push(run);] *)
Definition submit (g : gate V) : gate V :=
  let id := submitted g in
  let g1 := {| active := active g;
               queue := queue g;
               running := running g;
               started := started g;
               settled := settled g;
               submitted := S (submitted g) |} in
  if (active g1 <? concurrency)%Z
  then run id g1
  else {| active := active g1;
          queue := queue g1 ++ [id];
          running := running g1;
          started := started g1;
          settled := settled g1;
          submitted := submitted g1 |}.

(** The [.then]/[.catch] handlers of a started task: [next()] and then
    [resolve(v)] or [reject(e)] of that task's own promise. *)
Definition settle (id : nat) (o : settlement V) (g : gate V) : gate V :=
  let g1 := next {| active := active g;
                    queue := queue g;
                    running := remove Nat.eq_dec id (running g);
                    started := started g;
                    settled := settled g;
                    submitted := submitted g |} in
  {| active := active g1;
     queue := queue g1;
     running := running g1;
     started := started g1;
     settled := settled g1 ++ [(id, o)];
     submitted := submitted g1 |}.

(** One event; only a started, unsettled task can settle. *)
Definition step (g : gate V) (ev : event V) : option (gate V) :=
  match ev with
  | Submit => Some (submit g)
  | Settle id o =>
      if in_dec Nat.eq_dec id (running g) then Some (settle id o g) else None
  end.

Fixpoint exec (g : gate V) (evs : list (event V)) : option (gate V) :=
  match evs with
  | [] => Some g
  | ev :: rest =>
      match step g ev with
      | Some g' => exec g' rest
      | None => None
      end
  end.

(** The states a gate can be in. *)
Definition reachable (g : gate V) : Prop :=
  exists evs, exec pLimit evs = Some g.

(** Every started task settles, oldest first, as [outcome] says. *)
Fixpoint drain (outcome : nat -> settlement V) (fuel : nat) (g : gate V)
  : list (event V) :=
  match fuel with
  | O => []
  | S fuel' =>
      match running g with
      | [] => []
      | id :: _ =>
          Settle id (outcome id) ::
          drain outcome fuel' (settle id (outcome id) g)
      end
  end.

Definition is_settle (ev : event V) : bool :=
  match ev with
  | Submit => false
  | Settle _ _ => true
  end.

(** What holds of every reachable gate. *)
Record gate_inv (g : gate V) : Prop := {
  inv_active : active g = Z.of_nat (length (running g));
  inv_bound : (active g <= concurrency)%Z;
  inv_order : started g ++ queue g = seq 0 (submitted g);
  inv_nodup : NoDup (running g);
  inv_incl : incl (running g) (started g);
  inv_full : queue g <> [] -> active g = concurrency;
  inv_accounted :
    Permutation (started g) (map fst (settled g) ++ running g)
}.
End Limit.

End Gate.

(** ** JSON values as the script handles them *)

Module Js.

(** A value decoded from a provider's JSON, or [undefined]. *)
#[warnings="-register-all"]
Inductive value : Type :=
| VUndefined
| VNull
| VBool (b : bool)
| VNum (q : Q)
| VStr (s : string)
| VArr (elems : list value)
| VObj (fields : list (string * value)).

(** [typeof v === "object"]: true of [null], arrays and objects. *)
Definition typeof_object (v : value) : bool :=
  match v with
  | VNull | VArr _ | VObj _ => true
  | _ => false
  end.

(** ToBoolean. *)
Definition truthy (v : value) : bool :=
  match v with
  | VUndefined | VNull => false
  | VBool b => b
  | VNum q => negb (Qeq_bool q 0)
  | VStr EmptyString => false
  | VStr _ => true
  | VArr _ | VObj _ => true
  end.

(** [fields[k]] of an own-property list. *)
Fixpoint lookup (k : string) (fields : list (string * value)) : option value :=
  match fields with
  | [] => None
  | (k', v) :: rest => if String.eqb k k' then Some v else lookup k rest
  end.

(** [v.k] for [v] that is not [null] or [undefined]; properties of the
    prototypes are not modelled. *)
Definition get (v : value) (k : string) : value :=
  match v with
  | VObj fields =>
      match lookup k fields with
      | Some x => x
      | None => VUndefined
      end
  | _ => VUndefined
  end.

Definition is_upper (c : ascii) : bool :=
  (65 <=? nat_of_ascii c) && (nat_of_ascii c <=? 90).

Definition lower_char (c : ascii) : ascii :=
  if is_upper c then ascii_of_nat (nat_of_ascii c + 32) else c.

(** [s.toLowerCase()] on strings of ASCII characters. *)
Fixpoint toLowerCase (s : string) : string :=
  match s with
  | EmptyString => EmptyString
  | String c rest => String (lower_char c) (toLowerCase rest)
  end.

Fixpoint no_upper (s : string) : bool :=
  match s with
  | EmptyString => true
  | String c rest => negb (is_upper c) && no_upper rest
  end.

(** [s.split(sep)] for a one-character separator. *)
Fixpoint split (sep : ascii) (s : string) : list string :=
  match s with
  | EmptyString => [EmptyString]
  | String c rest =>
      if Ascii.eqb c sep then EmptyString :: split sep rest
      else match split sep rest with
           | [] => [String c EmptyString]
           | p :: ps => String c p :: ps
           end
  end.

(** Induction on values that reaches the elements of arrays and the fields
    of objects. *)
Section ValueInduction.
Variable P : value -> Prop.
Hypothesis P_undefined : P VUndefined.
Hypothesis P_null : P VNull.
Hypothesis P_bool : forall b, P (VBool b).
Hypothesis P_num : forall q, P (VNum q).
Hypothesis P_str : forall s, P (VStr s).
Hypothesis P_arr : forall elems, Forall P elems -> P (VArr elems).
Hypothesis P_obj :
  forall fields, Forall (fun kv => P (snd kv)) fields -> P (VObj fields).

Fixpoint value_induction (v : value) : P v :=
  match v with
  | VUndefined => P_undefined
  | VNull => P_null
  | VBool b => P_bool b
  | VNum q => P_num q
  | VStr s => P_str s
  | VArr elems =>
      P_arr ((fix all (l : list value) : Forall P l :=
                match l with
                | [] => Forall_nil P
                | x :: rest => Forall_cons x (value_induction x) (all rest)
                end) elems)
  | VObj fields =>
      P_obj ((fix all (l : list (string * value))
                : Forall (fun kv => P (snd kv)) l :=
                match l with
                | [] => Forall_nil _
                | kv :: rest =>
                    Forall_cons kv (value_induction (snd kv)) (all rest)
                end) fields)
  end.
End ValueInduction.

End Js.

(** ** Address matching helpers *)

Module Address.
Import Js.

(** [normalizeAddress]: [addr], or the empty string when [addr] is falsy,
    lower-cased.  A truthy [addr] that is not a string has
    no callable [toLowerCase], and the call throws a [TypeError]. *)
Definition normalizeAddress (addr : value) : result string :=
  match (if truthy addr then addr else VStr EmptyString) with
  | VStr s => Ok (toLowerCase s)
  | _ => Throw (TypeError "(addr || ...).toLowerCase is not a function")
  end.

Definition extractPtAddressFromPendleActive (ptField : value) : result string :=
  match ptField with
  | VStr s =>
      let parts := split "-" s in
      normalizeAddress (last (map VStr parts) VUndefined)
  | _ =>
      if truthy ptField && typeof_object ptField then
        if truthy (get ptField "address")
        then normalizeAddress (get ptField "address")
        else if truthy (get ptField "token")
        then normalizeAddress (get ptField "token")
        else if truthy (get ptField "id")
        then normalizeAddress (get ptField "id")
        else Ok EmptyString
      else Ok EmptyString
  end.

(** The shapes the extractor is written for: a string, or a value none of
    whose [address], [token] and [id] properties is a truthy non-string. *)
Definition string_or_falsy (v : value) : bool :=
  match v with
  | VStr _ => true
  | _ => negb (truthy v)
  end.

Definition expected_shape (ptField : value) : bool :=
  match ptField with
  | VStr _ => true
  | _ =>
      string_or_falsy (get ptField "address") &&
      string_or_falsy (get ptField "token") &&
      string_or_falsy (get ptField "id")
  end.

End Address.

(** ** The fetch graph: [run] of the collector and
    [MorphoDataBuilder.buildCompleteDataset] *)

Module Aggregate.

Record asset : Type := { symbol : string }.

Record market : Type := {
  uniqueKey : string;
  loanAsset : option asset;
  collateralAsset : option asset
}.

(** [tx.data]: the USD fields of the transaction kinds; an absent or [null]
    field is [None]. *)
Record tx_data : Type := {
  assetsUsd : option Q;
  repaidAssetsUsd : option Q
}.

Record transaction : Type := {
  hash : string;
  type : string;
  timestamp : Z;
  data : option tx_data
}.

Record user : Type := {
  address : option string;
  transactions : option (list transaction)
}.

(** An item of [marketPositions] or [vaultPositions]. *)
Record position : Type := {
  position_user : option user;
  state_assetsUsd : option Q
}.

(** [{ ...b, transactions: txs }], with the [error] note that only
    [buildCompleteDataset] attaches. *)
Record borrower_entry : Type := {
  borrower : position;
  borrower_transactions : list transaction;
  borrower_error : option error
}.

(** [{ market, topBorrowers }], with the [error] note that only
    [buildCompleteDataset] attaches. *)
Record market_entry : Type := {
  entry_market : market;
  topBorrowers : list borrower_entry;
  entry_error : option error
}.

Record curator : Type := { curator_name : string }.

Record vault : Type := { vault_address : string }.

(** The providers, seen from the fetch graph: what each awaited fetch
    function settles with.  [vaultDepositorsQuery i va] is the outcome of
    [gqlRequest(GET_VAULT_DEPOSITORS, { vaultAddress: va })] in iteration
    [i] of the vault loop, projected to [data.vaultPositions?.items].
    [first_rejection] is the timing of the market tasks: when several of
    them are rejected, which one is rejected first (counted among the
    rejected tasks, in the order of the markets). *)
Record provider : Type := {
  allMorphoMarkets : result (list market);
  topBorrowersForMarket : string -> result (list position);
  userTransactionsForMarket : option string -> string -> result (list transaction);
  curatorsAndAllVaults : result (list curator * list vault);
  vaultDepositorsQuery : nat -> string -> result (option (list position));
  first_rejection : nat
}.

(** [for ... await], stopping at the first rejection. *)
Fixpoint mapM {A B : Type} (f : A -> result B) (l : list A) : result (list B) :=
  match l with
  | [] => Ok []
  | a :: rest =>
      b <- f a ;;
      bs <- mapM f rest ;;
      Ok (b :: bs)
  end.

(** The errors of the rejected tasks, in the order of the tasks. *)
Fixpoint rejections {A : Type} (settled : list (result A)) : list error :=
  match settled with
  | [] => []
  | Ok _ :: rest => rejections rest
  | Throw e :: rest => e :: rejections rest
  end.

(** [Promise.all(tasks)], [settled] being what each task settles with: the
    values in the order of the tasks when none is rejected, and otherwise the
    rejection that comes first in time, whatever its place in the list;
    [first] says which of the rejected tasks that is. *)
Definition promise_all {A : Type} (first : nat) (settled : list (result A))
  : result (list A) :=
  match rejections settled with
  | [] => mapM (fun outcome => outcome) settled
  | e :: later => Throw (nth (first mod S (length later)) (e :: later) e)
  end.

(** [b?.user?.address] when it is truthy. *)
Definition truthy_address (b : position) : option string :=
  match position_user b with
  | Some u =>
      match address u with
      | Some (String c s) => Some (String c s)
      | _ => None
      end
  | None => None
  end.

(** *** The collector *)

(** Stage 2 of [run], the task given to [limit] for one market.  There is no
    [try] around it. *)
Definition market_task (w : provider) (mkt : market) : result market_entry :=
  borrowers <- topBorrowersForMarket w (uniqueKey mkt) ;;
  enriched <- mapM (fun b =>
                      txs <- match truthy_address b with
                             | Some userAddress =>
                                 userTransactionsForMarket w (Some userAddress)
                                                           (uniqueKey mkt)
                             | None => Ok []
                             end ;;
                      Ok {| borrower := b;
                            borrower_transactions := txs;
                            borrower_error := None |})
                   borrowers ;;
  Ok {| entry_market := mkt; topBorrowers := enriched; entry_error := None |}.

(** [fetchVaultDepositors]: the whole body is inside [try], and the [catch]
    returns an empty array. *)
Definition fetchVaultDepositors (answer : result (option (list position)))
  : result (list position) :=
  match answer with
  | Ok items => Ok (or_empty items)
  | Throw _ => Ok []
  end.

(** The same function without its [try]/[catch], for comparison. *)
Definition fetchVaultDepositors_uncaught (answer : result (option (list position)))
  : result (list position) :=
  items <- answer ;; Ok (or_empty items).

Inductive sleep_kind : Type :=
| BreakerCooldown
| AdditionalBackoff
| Pacing.

(** The variables of the vault loop, and the sleeps it made. *)
Record vault_loop_state : Type := {
  failureCount : nat;
  consecutiveFailures : nat;
  vaultDepositors : list (string * list position);
  sleeps : list (sleep_kind * Q)
}.

(** [Math.random()] in iteration [i], one stream per call site. *)
Record jitter : Type := {
  breaker_random : nat -> Q;
  backoff_random : nat -> Q;
  pacing_random : nat -> Q
}.

Definition maxConsecutiveFailures : nat := 5.

Section VaultLoop.
Variable cfg : Config.
Variable w : provider.
Variable rnd : jitter.

(** The fetch function the loop awaits; [fetchVaultDepositors] in [run]. *)
Variable fetchDepositors : result (option (list position)) -> result (list position).

(** The body of the [for] loop for vault [i] with address [va]. *)
Definition vault_iteration (i : nat) (va : string) (st : vault_loop_state)
  : vault_loop_state :=
  let st1 :=
    if maxConsecutiveFailures <=? consecutiveFailures st
    then {| failureCount := failureCount st;
            consecutiveFailures := 0;
            vaultDepositors := vaultDepositors st;
            sleeps := sleeps st ++
                      [(BreakerCooldown, (5000 + breaker_random rnd i * 2000)%Q)] |}
    else st in
  let st2 :=
    match fetchDepositors (vaultDepositorsQuery w i va) with
    | Ok items =>
        {| failureCount := failureCount st1;
           consecutiveFailures := 0;
           vaultDepositors := set_key va items (vaultDepositors st1);
           sleeps := sleeps st1 |}
    | Throw _ =>
        let failures := S (consecutiveFailures st1) in
        {| failureCount := S (failureCount st1);
           consecutiveFailures := failures;
           vaultDepositors := set_key va [] (vaultDepositors st1);
           sleeps :=
             if 2 <? failures
             then sleeps st1 ++
                  [(AdditionalBackoff,
                    (inject_Z (1000 * Z.of_nat failures)
                     + backoff_random rnd i * 1000)%Q)]
             else sleeps st1 |}
    end in
  {| failureCount := failureCount st2;
     consecutiveFailures := consecutiveFailures st2;
     vaultDepositors := vaultDepositors st2;
     sleeps := sleeps st2 ++
               [(Pacing, (inject_Z (rateLimitMs cfg) + pacing_random rnd i * 100)%Q)] |}.

(** [for (let i = 0; i < vaults.length; i++)], with the [break] of test
    mode after the iteration with [i > 3]. *)
Fixpoint vault_loop (i : nat) (vaults : list vault) (st : vault_loop_state)
  : vault_loop_state :=
  match vaults with
  | [] => st
  | v :: rest =>
      let st' := vault_iteration i (vault_address v) st in
      if testMode cfg && (3 <? i) then st' else vault_loop (S i) rest st'
  end.

Definition vault_loop_start : vault_loop_state :=
  {| failureCount := 0; consecutiveFailures := 0;
     vaultDepositors := []; sleeps := [] |}.
End VaultLoop.

(** What [run] holds after its Morpho stages (1 to 3). *)
Record collected : Type := {
  marketsWithBorrowers : list market_entry;
  curators : list curator;
  vaults : list vault;
  vault_state : vault_loop_state
}.

(** Stages 1 to 3 of [run]: markets, then per market the top borrowers and
    their transactions ([Promise.all] over the gated tasks: every entry, in
    the order of the markets, or the rejection that comes first), then
    curators and vaults, then the vault loop.  The Pendle stage and the
    writing of files are left out. *)
Definition run (cfg : Config) (w : provider) (rnd : jitter) : result collected :=
  markets <- allMorphoMarkets w ;;
  entries <- promise_all (first_rejection w) (map (market_task w) markets) ;;
  cv <- curatorsAndAllVaults w ;;
  Ok {| marketsWithBorrowers := entries;
        curators := fst cv;
        vaults := snd cv;
        vault_state := vault_loop cfg w rnd fetchVaultDepositors 0 (snd cv)
                                  vault_loop_start |}.

(** *** Sheet 6: the top depositors of each vault *)

(** [a || b] on numbers that may be absent: [0] and absent are falsy. *)
Definition truthy_number (o : option Q) : bool :=
  match o with
  | Some q => negb (Qeq_bool q 0)
  | None => false
  end.

(** [parseFloat(tx.data.assetsUsd || tx.data.repaidAssetsUsd || 0)], or [0]
    when [tx.data] is absent. *)
Definition extractAssetsUsd (tx : transaction) : Q :=
  match data tx with
  | None => 0
  | Some d =>
      if truthy_number (assetsUsd d) then
        match assetsUsd d with Some q => q | None => 0 end
      else if truthy_number (repaidAssetsUsd d) then
        match repaidAssetsUsd d with Some q => q | None => 0 end
      else 0
  end.

(** The comparator [(a, b) => extractAssetsUsd(b) - extractAssetsUsd(a)]. *)
Definition compareUsd (a b : transaction) : Q :=
  extractAssetsUsd b - extractAssetsUsd a.

Section Sort.
Variable A : Type.
Variable compare : A -> A -> Q.

(** [Array.prototype.sort(compare)], a stable sort: [x], which came before
    the elements of [l], stays before [y] unless [compare(x, y) > 0]. *)
Fixpoint insert (x : A) (l : list A) : list A :=
  match l with
  | [] => [x]
  | y :: rest =>
      if Qle_bool (compare x y) 0 then x :: y :: rest else y :: insert x rest
  end.

Fixpoint sort (l : list A) : list A :=
  match l with
  | [] => []
  | x :: rest => insert x (sort rest)
  end.
End Sort.


(** [it?.user?.transactions || []]. *)
Definition allTransactions (it : position) : list transaction :=
  match position_user it with
  | Some u => or_empty (transactions u)
  | None => []
  end.

(** [sortedTransactions.slice(0, 5)]. *)
Definition top5Transactions (it : position) : list transaction :=
  firstn 5 (sort compareUsd (allTransactions it)).



(** The order [sort compareUsd] produces: values do not increase. *)
Definition usd_desc (a b : transaction) : Prop :=
  (extractAssetsUsd b <= extractAssetsUsd a)%Q.


(** The transaction carries no field the extraction reads. *)
Definition no_usd_field (tx : transaction) : Prop :=
  data tx = None \/
  exists d, data tx = Some d /\ assetsUsd d = None /\ repaidAssetsUsd d = None.

Definition sample_tx (h : string) (usd : option Q) : transaction :=
  {| hash := h; type := "MetaMorphoDeposit"; timestamp := 0;
     data := Some {| assetsUsd := usd; repaidAssetsUsd := None |} |}.


Definition unvalued (h : string) : transaction := sample_tx h None.

Definition sample_depositor (txs : list transaction) : position :=
  {| position_user := Some {| address := Some "0xd1"%string;
                              transactions := Some txs |};
     state_assetsUsd := None |}.

(** *** The data builder *)

(** [borrower.user.address], once [borrower.user] is known to exist. *)
Definition user_address (b : position) : option string :=
  match position_user b with
  | Some u => address u
  | None => None
  end.

(** The inner [try]/[catch] of [buildCompleteDataset]: the transactions of
    one borrower, or an empty list and the error. *)
Definition try_userTransactions (w : provider) (key : string) (b : position)
  : borrower_entry :=
  match userTransactionsForMarket w (user_address b) key with
  | Ok txs => {| borrower := b;
                 borrower_transactions := txs;
                 borrower_error := None |}
  | Throw e => {| borrower := b;
                  borrower_transactions := [];
                  borrower_error := Some e |}
  end.

(** The loop over the borrowers of one market in [buildCompleteDataset].
    [borrower.user.address] is read (for the log line) before the inner
    [try]. *)
Fixpoint borrowersWithTransactions (w : provider) (key : string)
         (borrowers : list position) (acc : list borrower_entry)
  : result (list borrower_entry) :=
  match borrowers with
  | [] => Ok acc
  | b :: rest =>
      match position_user b with
      | None =>
          Throw (TypeError "Cannot read properties of undefined (reading 'address')")
      | Some _ =>
          borrowersWithTransactions w key rest
                                    (acc ++ [try_userTransactions w key b])
      end
  end.

(** The outer [try]/[catch] around one market: whatever is thrown while its
    borrowers are collected is caught and noted on its entry. *)
Definition try_market (w : provider) (m : market) : market_entry :=
  match (borrowers <- topBorrowersForMarket w (uniqueKey m) ;;
         borrowersWithTransactions w (uniqueKey m) borrowers []) with
  | Ok bs => {| entry_market := m; topBorrowers := bs; entry_error := None |}
  | Throw e => {| entry_market := m; topBorrowers := []; entry_error := Some e |}
  end.

(** [!market.loanAsset || !market.collateralAsset] is false. *)
Definition has_both_assets (m : market) : bool :=
  match loanAsset m, collateralAsset m with
  | Some _, Some _ => true
  | _, _ => false
  end.

(** The body of the loop over the markets: a market without both assets is
    skipped. *)
Definition build_market (w : provider) (allMarketsData : list market_entry)
           (m : market) : list market_entry :=
  if has_both_assets m
  then allMarketsData ++ [try_market w m]
  else allMarketsData.

(** [buildCompleteDataset] on a new builder ([allMarketsData] empty); the
    outer [catch] logs and throws again. *)
Definition buildCompleteDataset (w : provider) : result (list market_entry) :=
  markets <- allMorphoMarkets w ;;
  Ok (fold_left (build_market w) markets []).

(** What a vault's entry holds after [fetchVaultDepositors]. *)
Definition depositors_or_empty (answer : result (option (list position)))
  : list position :=
  match answer with
  | Ok items => or_empty items
  | Throw _ => []
  end.

(** *** Sample data *)

Definition sample_market (key : string) : market :=
  {| uniqueKey := key;
     loanAsset := Some {| symbol := "USDC" |};
     collateralAsset := Some {| symbol := "PT-ezETH" |} |}.

Definition sample_user (addr : string) : position :=
  {| position_user := Some {| address := Some addr; transactions := None |};
     state_assetsUsd := None |}.

Definition sample_vaults (n : nat) : list vault :=
  map (fun i => {| vault_address := String (ascii_of_nat (97 + i)) EmptyString |})
      (seq 0 n).

Definition no_vault_jitter : jitter :=
  {| breaker_random := fun _ => 0%Q;
     backoff_random := fun _ => 0%Q;
     pacing_random := fun _ => 0%Q |}.

(** One market whose borrower listing fails; [n] vaults whose depositor
    queries answer [answer]. *)
Definition sample_provider (borrowers : result (list position))
           (n : nat) (answer : result (option (list position))) : provider :=
  {| allMorphoMarkets := Ok [sample_market "0xm1"];
     topBorrowersForMarket := fun _ => borrowers;
     userTransactionsForMarket := fun _ _ => Ok [];
     curatorsAndAllVaults := Ok ([], sample_vaults n);
     vaultDepositorsQuery := fun _ _ => answer;
     first_rejection := 0 |}.

End Aggregate.

(** ** Flattening and the CSV export *)

Module Sheets.
Import Js.

(** What the export takes from the JavaScript runtime and is not part of
    the script: [String(n)] for a number, [JSON.stringify(v)], and the
    members every plain object inherits from [Object.prototype].
    [inherited_text k] is absent when [k] names no such member, and otherwise
    the text the exporters start from when they meet it: [String(f)] for a
    member that is a function ([constructor], [toString], ...) and the JSON
    text of the prototype object for [__proto__]. *)
Record runtime : Type := {
  number_to_string : Q -> string;
  JSON_stringify : value -> string;
  inherited_text : string -> option string
}.

(** A flattened record: the own properties of [out], in creation order. *)
Definition row : Type := list (string * value).

Section Join.
Variable to_string : value -> string.

(** An element of [Array.prototype.join]: [null] and [undefined] give the
    empty string. *)
Definition join_element (v : value) : string :=
  match v with
  | VUndefined | VNull => EmptyString
  | _ => to_string v
  end.

(** [arr.join(sep)]. *)
Fixpoint join_with (sep : string) (l : list value) : string :=
  match l with
  | [] => EmptyString
  | x :: rest =>
      match rest with
      | [] => join_element x
      | _ :: _ => join_element x ++ sep ++ join_with sep rest
      end
  end.
End Join.


Definition LF : ascii := ascii_of_nat 10.
Definition CR : ascii := ascii_of_nat 13.
Definition DQ : ascii := ascii_of_nat 34.

(** The first [replace] of [csvEscape]: every CR LF becomes LF. *)
Fixpoint normalize_newlines (s : string) : string :=
  match s with
  | EmptyString => EmptyString
  | String c tail =>
      match tail with
      | String c' rest =>
          if Ascii.eqb c CR && Ascii.eqb c' LF
          then String LF (normalize_newlines rest)
          else String c (normalize_newlines tail)
      | EmptyString => String c EmptyString
      end
  end.

(** [needsQuote]: [s] holds a double quote, a comma or a line feed. *)
Fixpoint needsQuote (s : string) : bool :=
  match s with
  | EmptyString => false
  | String c rest =>
      Ascii.eqb c DQ || Ascii.eqb c "," || Ascii.eqb c LF || needsQuote rest
  end.

(** The second [replace] of [csvEscape]: every double quote is doubled. *)
Fixpoint double_quotes (s : string) : string :=
  match s with
  | EmptyString => EmptyString
  | String c rest =>
      if Ascii.eqb c DQ then String DQ (String DQ (double_quotes rest))
      else String c (double_quotes rest)
  end.

(** The canonical array indices, which JavaScript lists first and in
    ascending order among the own properties of an object. *)
Definition digit (c : ascii) : option N :=
  let n := N_of_ascii c in
  if ((48 <=? n) && (n <=? 57))%N then Some (n - 48)%N else None.

Fixpoint digits_value (s : string) (acc : N) : option N :=
  match s with
  | EmptyString => Some acc
  | String c rest =>
      match digit c with
      | Some d => digits_value rest (10 * acc + d)%N
      | None => None
      end
  end.

Definition array_index (k : string) : option N :=
  match k with
  | EmptyString => None
  | String c rest =>
      if Ascii.eqb c "0" then
        match rest with
        | EmptyString => Some 0%N
        | String _ _ => None
        end
      else
        match digits_value k 0 with
        | Some n => if (n <? 4294967295)%N then Some n else None
        | None => None
        end
  end.

Definition is_array_index (k : string) : bool :=
  match array_index k with
  | Some _ => true
  | None => false
  end.

Fixpoint insert_index (k : string * N) (l : list (string * N))
  : list (string * N) :=
  match l with
  | [] => [k]
  | y :: rest =>
      if (snd k <=? snd y)%N then k :: y :: rest else y :: insert_index k rest
  end.

Fixpoint index_keys (ks : list string) : list (string * N) :=
  match ks with
  | [] => []
  | k :: rest =>
      match array_index k with
      | Some n => insert_index (k, n) (index_keys rest)
      | None => index_keys rest
      end
  end.

(** [Object.keys(r)]: array indices in ascending order, then the other
    keys in creation order. *)
Definition own_keys (r : row) : list string :=
  map fst (index_keys (map fst r)) ++
  filter (fun k => negb (is_array_index k)) (map fst r).

(** [headerSet.add(k)] on a [Set] kept in insertion order. *)
Definition set_add (k : string) (s : list string) : list string :=
  if existsb (String.eqb k) s then s else s ++ [k].

Section Exporter.
Variable rt : runtime.

(** [String(v)], as [join] applies it to an element. *)
Fixpoint to_string (v : value) : string :=
  match v with
  | VUndefined => "undefined"
  | VNull => "null"
  | VBool true => "true"
  | VBool false => "false"
  | VNum q => number_to_string rt q
  | VStr s => s
  | VArr elems => join_with to_string "," elems
  | VObj _ => "[object Object]"
  end.

(** [prefix || fallback]. *)
Definition or_key (prefix fallback : string) : string :=
  match prefix with
  | EmptyString => fallback
  | String _ _ => prefix
  end.

(** [prefix ? `${prefix}.${k}` : k]. *)
Definition dotted (prefix k : string) : string :=
  match prefix with
  | EmptyString => k
  | String _ _ => prefix ++ "." ++ k
  end.

(** [flatten(obj, prefix, out)]. *)
Fixpoint flatten (obj : value) (prefix : string) (out : row) : row :=
  match obj with
  | VNull | VUndefined =>
      match prefix with
      | EmptyString => out
      | String _ _ => set_key prefix (VStr EmptyString) out
      end
  | VArr elems =>
      match elems with
      | first :: _ =>
          if typeof_object first
          then set_key (or_key prefix "json") (VStr (JSON_stringify rt obj)) out
          else set_key (or_key prefix "list") (VStr (join_with to_string "|" elems)) out
      | [] =>
          set_key (or_key prefix "list") (VStr (join_with to_string "|" elems)) out
      end
  | VObj fields =>
      (fix each (entries : list (string * value)) (out : row) : row :=
         match entries with
         | [] => out
         | (k, v) :: rest => each rest (flatten v (dotted prefix k) out)
         end) fields out
  | VBool _ | VNum _ | VStr _ => set_key prefix obj out
  end.

Definition csvEscape (v : value) : string :=
  match v with
  | VNull | VUndefined => EmptyString
  | _ =>
      let s := match v with
               | VStr s => s
               | VArr _ | VObj _ => JSON_stringify rt v
               | _ => to_string v
               end in
      let s := normalize_newlines s in
      let quote := needsQuote s in
      let s := double_quotes s in
      if quote then String DQ (s ++ String DQ EmptyString) else s
  end.

(** [rows.map((r) => flatten(r))]. *)
Definition flatRows (rows : list value) : list row :=
  map (fun r => flatten r EmptyString []) rows.

(** [flatRows.forEach((r) => Object.keys(r).forEach((k) => headerSet.add(k)))]. *)
Definition headerSet (flat : list row) : list string :=
  fold_left (fun hs r => fold_left (fun hs k => set_add k hs) (own_keys r) hs)
            flat [].

(** What [row[h]] finds on a row, which is a plain object: an own
    property, else a member inherited from [Object.prototype], else
    nothing.  (A field named [__proto__], which an assignment does not
    create in JavaScript, is outside the model: the rows here keep it like
    any other field.) *)
Inductive property : Type :=
| Own (v : value)
| Inherited (text : string)
| Undefined.

Definition read (r : row) (h : string) : property :=
  match lookup h r with
  | Some v => Own v
  | None =>
      match inherited_text rt h with
      | Some text => Inherited text
      | None => Undefined
      end
  end.




(** The header of the SpreadsheetML writer: [Array.from(headerSet)]. *)
Definition xml_headers (rows : list value) : list string :=
  headerSet (flatRows rows).

(** *** The specification of [flatten], in the words of the contract *)

(** The properties a record contributes, in order: a field of an object
    under its dotted path, an array of objects as one JSON text, an array of
    scalars joined by the delimiter, [null] and [undefined] as the empty
    string, a scalar as itself. *)
Fixpoint flat_entries (obj : value) (prefix : string) : list (string * value) :=
  match obj with
  | VNull | VUndefined =>
      match prefix with
      | EmptyString => []
      | String _ _ => [(prefix, VStr EmptyString)]
      end
  | VArr elems =>
      match elems with
      | first :: _ =>
          if typeof_object first
          then [(or_key prefix "json", VStr (JSON_stringify rt obj))]
          else [(or_key prefix "list", VStr (join_with to_string "|" elems))]
      | [] => [(or_key prefix "list", VStr EmptyString)]
      end
  | VObj fields =>
      (fix each (entries : list (string * value)) : list (string * value) :=
         match entries with
         | [] => []
         | (k, v) :: rest => flat_entries v (dotted prefix k) ++ each rest
         end) fields
  | VBool _ | VNum _ | VStr _ => [(prefix, obj)]
  end.
End Exporter.

(** [out[k] = v] for one flat entry. *)
Definition put (out : row) (kv : string * value) : row :=
  set_key (fst kv) (snd kv) out.


(** *** A runtime for examples *)

(** Numbers printed as integers, and a JSON text without escapes: enough
    for records whose numbers are integers and whose strings hold no quote,
    backslash or control character. *)
Definition integer_to_string (q : Q) : string :=
  NilZero.string_of_int (Z.to_int (Qnum q / Zpos (Qden q))).

Fixpoint plain_json (v : value) : string :=
  match v with
  | VUndefined | VNull => "null"
  | VBool true => "true"
  | VBool false => "false"
  | VNum q => integer_to_string q
  | VStr s => String DQ (s ++ String DQ EmptyString)
  | VArr elems =>
      "[" ++ (fix each (l : list value) : string :=
                match l with
                | [] => EmptyString
                | x :: rest =>
                    match rest with
                    | [] => plain_json x
                    | _ :: _ => (plain_json x ++ "," ++ each rest)%string
                    end
                end) elems ++ "]"
  | VObj fields =>
      "{" ++ (fix each (l : list (string * value)) : string :=
                match l with
                | [] => EmptyString
                | (k, x) :: rest =>
                    match rest with
                    | [] =>
                        (String DQ (k ++ String DQ EmptyString) ++ ":" ++
                         plain_json x)%string
                    | _ :: _ =>
                        (String DQ (k ++ String DQ EmptyString) ++ ":" ++
                         plain_json x ++ "," ++ each rest)%string
                    end
                end) fields ++ "}"
  end.

(** The members of [Object.prototype] in Node.js, with the text of each:
    a built-in function prints as [function name() { [native code] }], and
    the prototype object, which has no enumerable property, as [{}]. *)
Definition native_function (name : string) : string :=
  "function " ++ name ++ "() { [native code] }".

Definition node_inherited_text (k : string) : option string :=
  if String.eqb k "constructor" then Some (native_function "Object")
  else if String.eqb k "__proto__" then Some "{}"%string
  else if existsb (String.eqb k)
                  ["__defineGetter__"; "__defineSetter__"; "hasOwnProperty";
                   "__lookupGetter__"; "__lookupSetter__"; "isPrototypeOf";
                   "propertyIsEnumerable"; "toString"; "valueOf";
                   "toLocaleString"]%string
  then Some (native_function k)
  else None.

Definition plain_runtime : runtime :=
  {| number_to_string := integer_to_string;
     JSON_stringify := plain_json;
     inherited_text := node_inherited_text |}.

(** *** Sample records *)



(** The top-level column names of the rows [run] builds: for sheets 1 and
    5, which hold the provider's records as they are, the fields their
    queries select; for the other sheets the keys of the row literals.
    Whatever the providers send ends up below one of these names, under a
    dotted path. *)
Definition run_columns : list string :=
  ["uniqueKey"; "lltv"; "creationTimestamp"; "loanAsset"; "collateralAsset";
   "state"; "historicalState"; "supplyingVaults";
   "marketUniqueKey"; "userAddress"; "healthFactor";
   "priceVariationToLiquidationPrice"; "transactions_count";
   "hash"; "timestamp"; "type"; "data";
   "name"; "addresses"; "socials"; "aum";
   "address"; "symbol"; "whitelisted"; "asset";
   "vaultAddress"; "assetsUsd"; "userTransactions";
   "morphoPair"; "ptTokenAddress"; "chainId"; "pendleMarketAddress";
   "matched"; "note"; "marketData"; "point"; "positionsCount"; "raw"]%string.



End Sheets.

(** ** The other paginated listings: [getAllMarkets] and
    [getUserTransactions] of the data builder, [fetchCuratorsAndAllVaults]
    of the collector *)

Module Listing.
Import Paginate.

(** A provider that serves [D] by offset and never puts more than [cap]
    items on a page. *)
Definition serve_capped {A : Type} (cap : nat) (D : list A)
  : nat -> nat -> nat -> result (page A) :=
  fun _ first skip =>
    Ok {| items := Some (firstn (Nat.min first cap) (skipn skip D));
          countTotal := Some (length D) |}.

(** [const batchSize = 100;] *)
Definition batchSize : nat := 100.

Section Builder.
Variable A : Type.

(** [this.query(query, { first, skip })] for the [n]-th call of a loop,
    projected to the listing ([data.markets] or [data.transactions]).  The
    builder reads [items.length] without a default, so absent [items] throw;
    [countTotal = None] stands for a [null] total. *)
Variable query : nat -> nat -> nat -> result (page A).

(** The [while (hasMore)] loop of [getAllMarkets]: [hasMore] is
    [markets.length === batchSize], and [skip] advances by [batchSize]. *)
Fixpoint getAllMarkets_loop (fuel skip : nat) (allMarkets : list A)
         (calls : nat) : outcome A :=
  match fuel with
  | O => Diverged
  | S fuel' =>
      match query calls batchSize skip with
      | Throw e => Thrown e (S calls)
      | Ok pg =>
          match items pg with
          | None =>
              Thrown (TypeError "Cannot read properties of undefined (reading 'length')")
                     (S calls)
          | Some markets =>
              if length markets =? batchSize
              then getAllMarkets_loop fuel' (skip + batchSize)
                                      (allMarkets ++ markets) (S calls)
              else Returned (allMarkets ++ markets) (S calls)
          end
      end
  end.

Definition getAllMarkets (fuel : nat) : outcome A :=
  getAllMarkets_loop fuel 0 [] 0.

(** The [while (hasMore)] loop of [getUserTransactions]: it stops on a page
    shorter than [batchSize] or when the accumulated length has reached
    [pageInfo.countTotal] (a [null] total compares as 0). *)
Fixpoint getUserTransactions_loop (fuel skip : nat) (allTransactions : list A)
         (calls : nat) : outcome A :=
  match fuel with
  | O => Diverged
  | S fuel' =>
      match query calls batchSize skip with
      | Throw e => Thrown e (S calls)
      | Ok pg =>
          match items pg with
          | None =>
              Thrown (TypeError "Cannot read properties of undefined (reading 'length')")
                     (S calls)
          | Some transactions =>
              let all' := allTransactions ++ transactions in
              if (length transactions <? batchSize) ||
                 (match countTotal pg with
                  | Some t => t <=? length all'
                  | None => true
                  end)
              then Returned all' (S calls)
              else getUserTransactions_loop fuel' (skip + batchSize) all' (S calls)
          end
      end
  end.

Definition getUserTransactions (fuel : nat) : outcome A :=
  getUserTransactions_loop fuel 0 [] 0.
End Builder.

(** The answer to [CURATORS_AND_VAULTS]: [data.curators?.items] and
    [data.vaults]. *)
Record curators_and_vaults (C V : Type) : Type := {
  answer_curators : option (list C);
  answer_vaults : page V
}.

(** How [fetchCuratorsAndAllVaults] ends. *)
Inductive listing_outcome (C V : Type) : Type :=
| Listed (curators : list C) (vaults : list V) (calls : nat)
| ListingThrown (e : error) (calls : nat)
| ListingDiverged.
Arguments Listed {C V} curators vaults calls.
Arguments ListingThrown {C V} e calls.
Arguments ListingDiverged {C V}.

Section CuratorsAndVaults.
Variables C V : Type.

(** [gqlRequest(CURATORS_AND_VAULTS, { vFirst, vSkip, where })] for the
    [n]-th call. *)
Variable gql : nat -> nat -> nat -> result (curators_and_vaults C V).

(** [const vFirst = 100;] *)
Definition vFirst : nat := 100.

(** [while (vSkip < total)]: the total is read again from every page, and
    nothing else ends the loop. *)
Fixpoint more_vaults (fuel vSkip total : nat) (allVaults : list V)
         (calls : nat) : outcome V :=
  if vSkip <? total then
    match fuel with
    | O => Diverged
    | S fuel' =>
        match gql calls vFirst vSkip with
        | Throw e => Thrown e (S calls)
        | Ok page =>
            let its := or_empty (items (answer_vaults page)) in
            let vSkip' := vSkip + length its in
            more_vaults fuel' vSkip'
                        (match countTotal (answer_vaults page) with
                         | Some t => t
                         | None => vSkip'
                         end)
                        (allVaults ++ its) (S calls)
        end
    end
  else Returned allVaults calls.

Definition fetchCuratorsAndAllVaults (fuel : nat) : listing_outcome C V :=
  match gql 0 vFirst 0 with
  | Throw e => ListingThrown e 1
  | Ok firstPage =>
      let curators := or_empty (answer_curators firstPage) in
      let allVaults := or_empty (items (answer_vaults firstPage)) in
      let total := match countTotal (answer_vaults firstPage) with
                   | Some t => t
                   | None => length allVaults
                   end in
      match more_vaults fuel (length allVaults) total allVaults 1 with
      | Returned vaults calls => Listed curators vaults calls
      | Thrown e calls => ListingThrown e calls
      | Diverged => ListingDiverged
      end
  end.
End CuratorsAndVaults.

(** The provider that serves the curators [Cs] and, by offset, the vaults
    [D]. *)
Definition serve_vaults {C V : Type} (Cs : list C) (D : list V)
  : nat -> nat -> nat -> result (curators_and_vaults C V) :=
  fun _ first skip =>
    Ok {| answer_curators := Some Cs;
          answer_vaults :=
            {| items := Some (firstn first (skipn skip D));
               countTotal := Some (length D) |} |}.

(** A provider that serves the first [k] vaults, goes on reporting [total]
    vaults and never delivers another one. *)
Definition serve_stalled {C V : Type} (D : list V) (total : nat)
  : nat -> nat -> nat -> result (curators_and_vaults C V) :=
  fun n _ _ =>
    Ok {| answer_curators := None;
          answer_vaults :=
            {| items := Some (match n with O => D | S _ => [] end);
               countTotal := Some total |} |}.

End Listing.

(** ** Principal-token markets: classification and matching *)

Module Matching.
Import Js Address.

(** [x || ""] on a string that may be absent. *)
Definition or_blank (o : option string) : string :=
  match o with
  | Some s => s
  | None => EmptyString
  end.

(** [isLikelyPTTokenSymbolOrName(symbol, name)] of the collector. *)
Definition isLikelyPTTokenSymbolOrName (symbol name : option string) : bool :=
  let s := toLowerCase (or_blank symbol) in
  let n := toLowerCase (or_blank name) in
  String.prefix "pt-" s ||
  String.prefix "pt " s ||
  Retry.includes "pendle" s ||
  Retry.includes "pendle" n ||
  Retry.includes "principal token" n.

(** The predicate of [filterPTMarkets] in the analyzer:
    [identifiers.some(...)] over the collateral symbol and name. *)
Definition matchesIdentifiers (identifiers : list string)
           (symbol name : option string) : bool :=
  let collateralSymbol := or_blank symbol in
  let collateralName := or_blank name in
  existsb (fun identifier =>
             let lowerIdentifier := toLowerCase identifier in
             Retry.includes lowerIdentifier (toLowerCase collateralSymbol) ||
             Retry.includes lowerIdentifier (toLowerCase collateralName))
          identifiers.

(** [filterCriteria.ptTokenIdentifiers] of the default configuration. *)
Definition default_ptTokenIdentifiers : list string :=
  ["PT-"; "PT "; "principal token"; "pendle"]%string.

(** [m.pt]: reading a property of [null] or [undefined] throws. *)
Definition pt_of (m : value) : result value :=
  match m with
  | VNull | VUndefined =>
      Throw (TypeError "Cannot read properties of undefined (reading 'pt')")
  | _ => Ok (get m "pt")
  end.

(** [ptActive && ptActive === ptAddr]. *)
Definition same_address (ptActive ptAddr : string) : bool :=
  match ptActive with
  | EmptyString => false
  | String _ _ => String.eqb ptActive ptAddr
  end.

(** The inner loop of the matching in [run]: the first active market of
    the list whose PT address is the one looked for. *)
Fixpoint find_in_chain (ptAddr : string) (list : list value)
  : result (option value) :=
  match list with
  | [] => Ok None
  | m :: rest =>
      pt <- pt_of m ;;
      ptActive <- extractPtAddressFromPendleActive pt ;;
      if same_address ptActive ptAddr then Ok (Some m)
      else find_in_chain ptAddr rest
  end.

(** [activeByChain[chain]]. *)
Fixpoint lookup_chain (chain : string) (activeByChain : list (string * list value))
  : option (list value) :=
  match activeByChain with
  | [] => None
  | (c, l) :: rest => if String.eqb chain c then Some l else lookup_chain chain rest
  end.

(** The outer loop: the chains in the order of [CONFIG.chains], each with
    [activeByChain[chain] || []]; the first match ends the search. *)
Fixpoint find_match (chains : list string)
         (activeByChain : list (string * list value)) (ptAddr : string)
  : result (option (string * value)) :=
  match chains with
  | [] => Ok None
  | chain :: rest =>
      found <- find_in_chain ptAddr (or_empty (lookup_chain chain activeByChain)) ;;
      match found with
      | Some m => Ok (Some (chain, m))
      | None => find_match rest activeByChain ptAddr
      end
  end.

(** The candidates in the order the loops visit them. *)
Definition candidates (chains : list string)
           (activeByChain : list (string * list value))
  : list (string * value) :=
  flat_map (fun chain =>
              map (pair chain) (or_empty (lookup_chain chain activeByChain)))
           chains.

(** The candidate's PT address is extracted without error and is the one
    looked for. *)
Definition is_match (ptAddr : string) (candidate : string * value) : bool :=
  match pt_of (snd candidate) with
  | Ok pt =>
      match extractPtAddressFromPendleActive pt with
      | Ok ptActive => same_address ptActive ptAddr
      | Throw _ => false
      end
  | Throw _ => false
  end.

(** The candidate's PT address can be extracted. *)
Definition extractable (candidate : string * value) : bool :=
  match pt_of (snd candidate) with
  | Ok pt =>
      match extractPtAddressFromPendleActive pt with
      | Ok _ => true
      | Throw _ => false
      end
  | Throw _ => false
  end.

(** The analyzer's extraction:
    [pm.pt.includes("-") ? pm.pt.split("-")[1] : pm.pt] on a string. *)
Definition analyzer_pt_address (pt : string) : string :=
  if Retry.includes "-" pt
  then nth 1 (split "-" pt) EmptyString
  else pt.

(** An active market as the yield-market API lists it. *)
Definition active_market (pt address : string) : value :=
  VObj [("address"%string, VStr address); ("pt"%string, VStr pt)].

(** The character [c] does not occur in [s]. *)
Fixpoint free_of (c : ascii) (s : string) : bool :=
  match s with
  | EmptyString => true
  | String a rest => negb (Ascii.eqb a c) && free_of c rest
  end.

End Matching.

(** ** The SpreadsheetML writer: [escapeXml] and the text of a cell *)

Module Xml.
Import Js Sheets.

(** [s.replace(/c/g, replacement)] for a pattern of one character and a
    replacement text without a dollar sign. *)
Fixpoint replace_all (c : ascii) (replacement s : string) : string :=
  match s with
  | EmptyString => EmptyString
  | String x rest =>
      if Ascii.eqb x c then (replacement ++ replace_all c replacement rest)%string
      else String x (replace_all c replacement rest)
  end.

(** [escapeXml(s)] on the text [String(s)]: the four replacements, in the
    order of the source. *)
Definition escapeXml (s : string) : string :=
  replace_all DQ "&quot;"
    (replace_all ">" "&gt;"
       (replace_all "<" "&lt;"
          (replace_all "&" "&amp;" s))).

(** The text one character stands for in an escaped text. *)
Definition entity (c : ascii) : string :=
  if Ascii.eqb c "&" then "&amp;"
  else if Ascii.eqb c "<" then "&lt;"
  else if Ascii.eqb c ">" then "&gt;"
  else if Ascii.eqb c DQ then "&quot;"
  else String c EmptyString.

(** Escaping character by character, in one pass. *)
Fixpoint escape_each (s : string) : string :=
  match s with
  | EmptyString => EmptyString
  | String c rest => (entity c ++ escape_each rest)%string
  end.

(** [name.slice(0, 31)]. *)
Definition slice31 (name : string) : string := String.substring 0 31 name.

(** [escapeXml(name.slice(0, 31) || "Sheet1")]. *)
Definition safeName (name : string) : string :=
  escapeXml (match slice31 name with
             | EmptyString => "Sheet1"
             | String c rest => String c rest
             end).

Section Cell.
Variable rt : runtime.

(** The text written for [row[h]] in [toSpreadsheetXML]: [undefined] and
    [null] become the empty string, an array or object its JSON text, and
    the result goes through [escapeXml]. *)
Definition data_text (r : row) (h : string) : string :=
  match read rt r h with
  | Own v =>
      let v := match v with
               | VUndefined | VNull => VStr EmptyString
               | _ => v
               end in
      let v := if typeof_object v then VStr (JSON_stringify rt v) else v in
      escapeXml (to_string rt v)
  | Inherited text => escapeXml text
  | Undefined => escapeXml EmptyString
  end.
End Cell.

End Xml.

(** ** The Pendle fetchers of the collector and of the analyzer *)

Module Pendle.
Import Js Retry.

(** The decimal text of a status in a template literal. *)
Definition status_text (status : Z) : string :=
  NilZero.string_of_int (Z.to_int status).

(** [e.message] of an error thrown while [url] was fetched. *)
Definition message (url : string) (e : error) : string :=
  match e with
  | HttpError status statusText body =>
      "HTTP " ++ status_text status ++ " " ++ statusText ++ " - " ++ url
              ++ " - " ++ body
  | GraphQLHttpError status statusText text =>
      "GraphQL " ++ status_text status ++ " " ++ statusText ++ ": " ++ text
  | GraphQLErrors errorMessage => "GraphQL errors: " ++ errorMessage
  | NetworkError msg | TypeError msg => msg
  end.

(** [{ positions: [], error: note }]. *)
Definition no_positions (note : string) : value :=
  VObj [("positions"%string, VArr []); ("error"%string, VStr note)].

Section Dashboard.
Variable cfg : Config.
Variable rnd : nat -> Q.

(** [pendleGetUserDashboardPositions(userAddress, filterUsd)], [url] being
    the address it builds: a final error whose message holds [HTTP 404] is
    answered with an empty list of positions, any other is thrown again. *)
Definition pendleGetUserDashboardPositions (url : string)
           (fetch : nat -> result (response value))
  : option (result value * io) :=
  match fetchJsonWithRetry cfg rnd fetch with
  | Some (Ok data, st) => Some (Ok data, st)
  | Some (Throw e, st) =>
      if includes "HTTP 404" (message url e)
      then Some (Ok (no_positions "Not found"), st)
      else Some (Throw e, st)
  | None => None
  end.

(** The body of the loop over the top borrowers of a matched market in
    [run]: what is stored in [b.pendleDashboardPositions], followed by the
    pacing sleep. *)
Definition borrower_dashboard (url : string)
           (fetch : nat -> result (response value))
  : option (value * io) :=
  match pendleGetUserDashboardPositions url fetch with
  | Some (Ok pos, st) => Some (pos, sleep (inject_Z (rateLimitMs cfg)) st)
  | Some (Throw e, st) =>
      Some (no_positions (message url e), sleep (inject_Z (rateLimitMs cfg)) st)
  | None => None
  end.
End Dashboard.

(** The three shapes [pendleGetActiveMarkets] accepts, on the decoded
    payload: an array, an object with an array under [markets], an object
    with an array under [data]; anything else is an empty list. *)
Definition active_markets (data : value) : list value :=
  match data with
  | VArr l => l
  | _ =>
      match get data "markets" with
      | VArr l => l
      | _ =>
          match get data "data" with
          | VArr l => l
          | _ => []
          end
      end
  end.

(** [pendleGetActiveMarkets(chain)], given what [fetchJsonWithRetry]
    settled with. *)
Definition pendleGetActiveMarkets (answer : result value) : result (list value) :=
  data <- answer ;; Ok (active_markets data).

(** Stage 4 of [run]: [activeByChain[chain]] is the list of the chain, or
    the empty list when loading it failed.  [answers] pairs each configured
    chain, in order, with what its request settled with. *)
Definition load_chain (answer : result value) : list value :=
  match pendleGetActiveMarkets answer with
  | Ok act => act
  | Throw _ => []
  end.

Definition load_active (answers : list (string * result value))
  : list (string * list value) :=
  fold_left (fun activeByChain ca =>
               set_key (fst ca) (load_chain (snd ca)) activeByChain)
            answers [].

(** The analyzer's [getActivePendleMarkets]: [queryPendleAPI] gives [null]
    for every failure, and the function returns [data ? data.markets : null]. *)
Definition analyzer_getActivePendleMarkets (answer : result value) : value :=
  match answer with
  | Throw _ => VNull
  | Ok data => if truthy data then get data "markets" else VNull
  end.

(** A 404 answer, and a 500 answer whose body quotes one. *)
Definition not_found_response : response value :=
  {| status := 404; statusText := "Not Found"; text := EmptyString;
     json := Throw (NetworkError "Unexpected end of JSON input") |}.

Definition quoting_response : response value :=
  {| status := 400; statusText := "Bad Request";
     text := "upstream answered HTTP 404";
     json := Throw (NetworkError "Unexpected end of JSON input") |}.

End Pendle.

(** ** Sheets 2 and 3 of the collector *)

Module Report.
Import Aggregate.

(** A row of [sheets.morpho_top_borrowers], with the columns the model of
    a borrower carries. *)
Record borrower_row : Type := {
  borrower_marketUniqueKey : string;
  borrower_userAddress : option string;
  transactions_count : nat;
  borrower_assetsUsd : option Q
}.

(** A row of [sheets.morpho_user_transactions]. *)
Record transaction_row : Type := {
  tx_marketUniqueKey : string;
  tx_userAddress : option string;
  tx_hash : string;
  tx_timestamp : Z;
  tx_type : string;
  tx_row_data : option tx_data
}.

(** [sheets.morpho_top_borrowers]: one row per borrower per market. *)
Definition morpho_top_borrowers (marketsWithBorrowers : list market_entry)
  : list borrower_row :=
  flat_map (fun entry =>
              map (fun b =>
                     {| borrower_marketUniqueKey := uniqueKey (entry_market entry);
                        borrower_userAddress := user_address (borrower b);
                        transactions_count := length (borrower_transactions b);
                        borrower_assetsUsd := state_assetsUsd (borrower b) |})
                  (topBorrowers entry))
           marketsWithBorrowers.

(** [sheets.morpho_user_transactions]: one row per transaction. *)
Definition morpho_user_transactions (marketsWithBorrowers : list market_entry)
  : list transaction_row :=
  flat_map (fun entry =>
              flat_map (fun b =>
                          map (fun tx =>
                                 {| tx_marketUniqueKey := uniqueKey (entry_market entry);
                                    tx_userAddress := user_address (borrower b);
                                    tx_hash := hash tx;
                                    tx_timestamp := timestamp tx;
                                    tx_type := type tx;
                                    tx_row_data := data tx |})
                              (borrower_transactions b))
                       (topBorrowers entry))
           marketsWithBorrowers.

(** [sheets.morpho_markets]. *)
Definition morpho_markets (marketsWithBorrowers : list market_entry)
  : list market :=
  map entry_market marketsWithBorrowers.

End Report.

(** ** [generateSummary] of the builder *)

Module Summary.
Import Aggregate.

Section Liquidity.
(** [m.market.state.totalLiquidityUsd], absent when it is [null]; every
    stored market is taken to have its [state]. *)
Variable totalLiquidityUsd : market_entry -> option Q.

(** [x || 0]. *)
Definition liquidity (m : market_entry) : Q :=
  match totalLiquidityUsd m with
  | Some q => q
  | None => 0
  end.

(** The comparator of [marketsBySize]. *)
Definition bySize (a b : market_entry) : Q := liquidity b - liquidity a.

Record summary : Type := {
  totalMarkets : nat;
  totalBorrowers : nat;
  totalTransactions : nat;
  marketsBySize : list market_entry
}.

(** [generateSummary()] on [this.allMarketsData]: the summary, and the
    array after the call, which [sort] has reordered in place.  The entries
    of [marketsBySize] stand for the records the source builds from them. *)
Definition generateSummary (allMarketsData : list market_entry)
  : summary * list market_entry :=
  let sorted := sort bySize allMarketsData in
  ({| totalMarkets := length allMarketsData;
      totalBorrowers :=
        fold_left (fun sum m => sum + length (topBorrowers m)) allMarketsData 0;
      totalTransactions :=
        fold_left (fun sum m =>
                     sum + fold_left (fun borrowerSum b =>
                                        borrowerSum + length (borrower_transactions b))
                                     (topBorrowers m) 0)
                  allMarketsData 0;
      marketsBySize := firstn 10 sorted |},
   sorted).
End Liquidity.

End Summary.

(** ** The command line *)

Module Cli.

(** What the parsing loop stores under a key: [true], or the next word. *)
Inductive arg : Type :=
| Flag
| Value (word : string).

(** [next && !next.startsWith("--")]. *)
Definition is_value (next : string) : bool :=
  match next with
  | EmptyString => false
  | String _ _ => negb (String.prefix "--" next)
  end.

(** [arg.slice(2)]. *)
Definition slice2 (a : string) : string :=
  match a with
  | String _ (String _ rest) => rest
  | _ => EmptyString
  end.

(** The loop over [process.argv] from index 2 on, [args] being the words
    still to read: a word that starts with two dashes is a key, bound to the
    next word when there is one that does not start with two dashes, and to
    [true] otherwise; any other word is passed over. *)
Fixpoint parse (args : list string) (argv : list (string * arg))
  : list (string * arg) :=
  match args with
  | [] => argv
  | a :: rest =>
      if String.prefix "--" a then
        match rest with
        | next :: rest' =>
            if is_value next
            then parse rest' (set_key (slice2 a) (Value next) argv)
            else parse rest (set_key (slice2 a) Flag argv)
        | [] => set_key (slice2 a) Flag argv
        end
      else parse rest argv
  end.

(** [argv[k]]. *)
Fixpoint argument (k : string) (argv : list (string * arg)) : option arg :=
  match argv with
  | [] => None
  | (k', v) :: rest => if String.eqb k k' then Some v else argument k rest
  end.

(** [argv[k] === true]. *)
Definition is_true (o : option arg) : bool :=
  match o with
  | Some Flag => true
  | _ => false
  end.

(** [testMode], [args] being [process.argv.slice(2)]. *)
Definition testMode (args : list string) : bool :=
  let argv := parse args [] in
  let firstArg := hd EmptyString args in
  let firstArgIsTest := String.eqb firstArg "--test" || String.eqb firstArg "-t" in
  firstArgIsTest || is_true (argument "test" argv) || is_true (argument "t" argv).

End Cli.

(** * Part II: properties *)

(** ** Pagination *)

Module PaginateFacts.
Import Paginate.

Lemma ceil_div_small (R P : nat) : 0 < R -> R <= P -> ceil_div R P = 1.
Proof.
  intros HR HP. unfold ceil_div.
  replace (R + P - 1) with ((R - 1) + 1 * P) by lia.
  rewrite Nat.div_add by lia.
  rewrite Nat.div_small by lia. reflexivity.
Qed.

Lemma ceil_div_step (R P : nat) :
  0 < P -> P < R -> ceil_div R P = S (ceil_div (R - P) P).
Proof.
  intros HP HR. unfold ceil_div.
  replace (R + P - 1) with ((R - P + P - 1) + 1 * P) by lia.
  rewrite Nat.div_add by lia. lia.
Qed.

Lemma ceil_div_zero (P : nat) : ceil_div 0 P = 0.
Proof.
  unfold ceil_div. destruct P as [|P]; [reflexivity|].
  simpl Nat.add. rewrite Nat.div_small by lia. reflexivity.
Qed.

Section WellFormed.
Variable A : Type.
Variable gql : nat -> nat -> nat -> result (page A).
Variable D : list A.
Hypothesis gql_serves : well_formed gql D.
Variable P : nat.
Hypothesis P_pos : 0 < P.

(** From any offset inside the data the loop collects the rest of the
    data, one full page per call. *)
Lemma loop_collects_rest :
  forall fuel skip all total calls,
    total = None \/ total = Some (length D) ->
    skip < length D ->
    ceil_div (length D - skip) P <= fuel ->
    loop gql fuel P skip all total calls =
    Returned (all ++ skipn skip D) (calls + ceil_div (length D - skip) P).
Proof.
  induction fuel as [|fuel IH]; intros skip all total calls Htot Hskip Hfuel.
  - destruct (Nat.le_gt_cases (length D - skip) P) as [Hle|Hgt].
    + rewrite ceil_div_small in Hfuel by lia. lia.
    + rewrite ceil_div_step in Hfuel by lia. lia.
  - simpl. rewrite gql_serves. cbn [items countTotal or_empty].
    assert (Hlen : length (firstn P (skipn skip D)) = Nat.min P (length D - skip))
      by (rewrite length_firstn, length_skipn; reflexivity).
    assert (Htot' : match total with
                    | Some t => t
                    | None => length D
                    end = length D)
      by (destruct Htot as [-> | ->]; reflexivity).
    rewrite Htot', Hlen.
    destruct (Nat.le_gt_cases (length D - skip) P) as [Hle|Hgt].
    + (* last page *)
      replace (Nat.min P (length D - skip) =? 0) with false
        by (symmetry; apply Nat.eqb_neq; lia).
      replace (length D <=? skip + Nat.min P (length D - skip)) with true
        by (symmetry; apply Nat.leb_le; lia).
      cbn [orb]. rewrite ceil_div_small by lia.
      rewrite firstn_all2 by (rewrite length_skipn; lia).
      f_equal. lia.
    + (* a full page, more to come *)
      replace (Nat.min P (length D - skip) =? 0) with false
        by (symmetry; apply Nat.eqb_neq; lia).
      replace (length D <=? skip + Nat.min P (length D - skip)) with false
        by (symmetry; apply Nat.leb_gt; lia).
      cbn [orb].
      replace (skip + Nat.min P (length D - skip)) with (skip + P) by lia.
      rewrite ceil_div_step in Hfuel |- * by lia.
      rewrite IH; [| now right | lia |
                   replace (length D - (skip + P)) with (length D - skip - P) by lia; lia].
      f_equal.
      * rewrite <- app_assoc. f_equal.
        rewrite <- (firstn_skipn P (skipn skip D)) at 2.
        f_equal. rewrite skipn_skipn. f_equal. lia.
      * replace (length D - (skip + P)) with (length D - skip - P) by lia. lia.
Qed.

(** The whole loop on a well-formed provider. *)
Lemma loop_well_formed :
  forall fuel,
    Nat.max 1 (ceil_div (length D) P) <= fuel ->
    loop gql fuel P 0 [] None 0 =
    Returned D (Nat.max 1 (ceil_div (length D) P)).
Proof.
  intros fuel Hfuel.
  destruct (Nat.eq_dec (length D) 0) as [H0|H0].
  - rewrite H0, ceil_div_zero in *. destruct fuel as [|fuel]; [simpl in Hfuel; lia|].
    simpl. rewrite gql_serves. cbn [items countTotal or_empty].
    destruct D; [|discriminate]. rewrite skipn_nil, firstn_nil. reflexivity.
  - assert (Hc : 1 <= ceil_div (length D) P).
    { destruct (Nat.le_gt_cases (length D) P).
      - rewrite ceil_div_small by lia. lia.
      - rewrite ceil_div_step by lia. lia. }
    rewrite Nat.max_r in * by lia.
    rewrite loop_collects_rest; [| now left | lia | rewrite Nat.sub_0_r; lia].
    rewrite Nat.sub_0_r. reflexivity.
Qed.
End WellFormed.

(** A page without items ends the loop at once, whatever the total says. *)
Lemma loop_stops_on_empty_page (A : Type)
      (gql : nat -> nat -> nat -> result (page A))
      (fuel first skip : nat) (all : list A) (total : option nat)
      (calls : nat) (pg : page A) :
  gql calls first skip = Ok pg ->
  or_empty (items pg) = [] ->
  loop gql (S fuel) first skip all total calls = Returned all (S calls).
Proof.
  intros Hpg Hempty. simpl. rewrite Hpg, Hempty. cbn [length Nat.eqb orb].
  rewrite app_nil_r. reflexivity.
Qed.

(** Once the total is known, [total - skip] bounds the calls still to
    come: the loop returns or throws, for every provider. *)
Lemma loop_total_known_terminates (A : Type)
      (gql : nat -> nat -> nat -> result (page A)) :
  forall fuel first skip all t calls,
    t - skip < fuel ->
    loop gql fuel first skip all (Some t) calls <> Diverged.
Proof.
  induction fuel as [|fuel IH]; intros first skip all t calls Hfuel; [lia|].
  simpl. destruct (gql calls first skip) as [pg|e]; [|discriminate].
  destruct (length (or_empty (items pg)) =? 0) eqn:Hz; [discriminate|].
  destruct (t <=? skip + length (or_empty (items pg))) eqn:Hle; [discriminate|].
  cbn [orb]. apply IH.
  apply Nat.eqb_neq in Hz. apply Nat.leb_gt in Hle. lia.
Qed.

Lemma loop_terminates (A : Type)
      (gql : nat -> nat -> nat -> result (page A)) (first : nat) :
  exists fuel0, forall fuel, fuel0 <= fuel ->
    loop gql fuel first 0 [] None 0 <> Diverged.
Proof.
  destruct (gql 0 first 0) as [pg|e] eqn:Hfirst.
  - set (t := match countTotal pg with
              | Some t => t
              | None => length (or_empty (items pg))
              end).
    exists (S (S t)). intros fuel Hfuel.
    destruct fuel as [|fuel]; [lia|]. simpl. rewrite Hfirst. fold t.
    destruct ((length (or_empty (items pg)) =? 0)
              || (t <=? length (or_empty (items pg)))); [discriminate|].
    apply loop_total_known_terminates. lia.
  - exists 1. intros fuel Hfuel. destruct fuel as [|fuel]; [lia|].
    simpl. rewrite Hfirst. discriminate.
Qed.

(** C1 (amended): on a well-formed provider with total [T = length D] and a
    positive page size [P], both paginated fetchers return exactly the [T]
    items of [D], in arrival order, after [max 1 (ceil (T / P))] calls (one
    call is always made, also when [T = 0]); and for every provider a page
    without items stops the loop with what was accumulated, whatever the
    reported total. *)
Theorem paginated_fetch_returns_total
        (A : Type) (gql : nat -> nat -> nat -> result (page A))
        (D : list A) (cfg : Config) (fuel : nat) :
  well_formed gql D ->
  0 < txPageSize cfg ->
  0 < morphoPageSize cfg ->
  marketsLimit cfg = None ->
  Nat.max 1 (ceil_div (length D) (txPageSize cfg)) <= fuel ->
  Nat.max 1 (ceil_div (length D) (morphoPageSize cfg)) <= fuel ->
  fetchAllUserTransactionsForMarket gql cfg fuel =
    Returned D (Nat.max 1 (ceil_div (length D) (txPageSize cfg)))
  /\ fetchAllMorphoMarkets gql cfg fuel =
    Returned D (Nat.max 1 (ceil_div (length D) (morphoPageSize cfg)))
  /\ (forall (other : nat -> nat -> nat -> result (page A))
            (n first skip : nat) (all : list A) (total : option nat)
            (calls : nat) (pg : page A),
         other calls first skip = Ok pg ->
         or_empty (items pg) = [] ->
         loop other (S n) first skip all total calls = Returned all (S calls)).
Proof.
  intros Hwf Htx Hm Hlim Hf1 Hf2. split; [|split].
  - unfold fetchAllUserTransactionsForMarket.
    now apply loop_well_formed.
  - unfold fetchAllMorphoMarkets.
    rewrite (loop_well_formed Hwf Hm) by assumption.
    unfold apply_marketsLimit. rewrite Hlim. reflexivity.
  - intros. eapply loop_stops_on_empty_page; eassumption.
Qed.

(** Five items served two per page (and three per page for markets). *)
Lemma paginated_fetch_returns_total_witness :
  let cfg := {| morphoPageSize := 3; txPageSize := 2; concurrency := 4;
                rateLimitMs := 200; maxRetries := 5; marketsLimit := None;
                testMode := false |} in
  fetchAllUserTransactionsForMarket (serve [10; 20; 30; 40; 50]) cfg 3 =
    Returned [10; 20; 30; 40; 50] 3
  /\ fetchAllMorphoMarkets (serve [10; 20; 30; 40; 50]) cfg 3 =
    Returned [10; 20; 30; 40; 50] 2.
Proof.
  intro cfg.
  destruct (@paginated_fetch_returns_total nat (serve [10; 20; 30; 40; 50])
              [10; 20; 30; 40; 50] cfg 3) as (H1 & H2 & _).
  - intros n first skip. reflexivity.
  - simpl. lia.
  - simpl. lia.
  - reflexivity.
  - vm_compute. lia.
  - vm_compute. lia.
  - split; [exact H1 | exact H2].
Defined.

(** C1 as stated fails on the empty listing: total 0 gives [ceil (0 / P) = 0],
    yet the loop has to make one call to learn the total. *)
Lemma paginated_fetch_empty_listing_counterexample :
  well_formed (serve (@nil nat)) [] /\
  fetchAllUserTransactionsForMarket (serve (@nil nat)) default_config 1 =
    Returned [] 1 /\
  ~ (exists fuel out calls,
        fetchAllUserTransactionsForMarket (serve (@nil nat)) default_config fuel =
          Returned out calls /\
        calls <= ceil_div (length (@nil nat)) (txPageSize default_config)).
Proof.
  split; [|split].
  - intros n first skip. reflexivity.
  - reflexivity.
  - intros (fuel & out & calls & Hrun & Hle).
    destruct fuel as [|fuel]; [discriminate|].
    vm_compute in Hrun. injection Hrun as _ Hcalls.
    vm_compute in Hle. lia.
Qed.

End PaginateFacts.

(** ** Retrying clients *)

Module RetryFacts.
Import Retry.

Lemma retryable_status_spec (s : Z) :
  retryable_status s = true <->
  (s = 429 \/ s = 500 \/ s = 502 \/ s = 503 \/ s = 504)%Z.
Proof.
  unfold retryable_status. cbn [existsb].
  rewrite !orb_true_iff, !Z.eqb_eq. intuition discriminate.
Qed.

Lemma retryable_status_not_ok (J : Type) (res : response J) :
  retryable_status (status res) = true -> ok res = false.
Proof.
  intros H. apply retryable_status_spec in H. unfold ok.
  destruct H as [-> | [-> | [-> | [-> | ->]]]]; reflexivity.
Qed.

Section Runs.
Variable cfg : Config.
Variable rnd : nat -> Q.
Variables J X : Type.
Variable attempt : nat -> Q -> response J -> verdict X.
Variable fetch : nat -> result (response J).

(** [d] retried attempts followed by a fatal one: [d + 1] invocations,
    the [d] delays in the log, and the fatal error thrown. *)
Lemma attempts_exhaust :
  forall d fuel t st (dl : nat -> Q) e,
    d < fuel ->
    (forall k, k < d -> exists res,
          fetch (fetches st + k) = Ok res /\
          attempt (t + k) (rnd (fetches st + k)) res = Retry (dl k)) ->
    (exists res,
        fetch (fetches st + d) = Ok res /\
        attempt (t + d) (rnd (fetches st + d)) res = Fatal e) ->
    attempts rnd attempt fetch fuel t st =
    Some (Throw e, {| fetches := fetches st + d + 1;
                      slept := slept st ++ map dl (seq 0 d) |}).
Proof.
  induction d as [|d IH]; intros fuel t st dl e Hfuel Hretry Hfatal.
  - destruct fuel as [|fuel]; [lia|].
    destruct Hfatal as (res & Hres & Hv).
    rewrite !Nat.add_0_r in *. simpl. rewrite Hres, Hv.
    unfold fetched. rewrite app_nil_r. do 3 f_equal. lia.
  - destruct fuel as [|fuel]; [lia|].
    destruct (Hretry 0) as (res & Hres & Hv); [lia|].
    rewrite !Nat.add_0_r in *. simpl attempts. rewrite Hres, Hv.
    rewrite (IH fuel (S t) (sleep (dl 0) (fetched st)) (fun k => dl (S k)) e).
    + cbn [sleep fetched fetches slept].
      rewrite <- app_assoc. cbn [app].
      change (seq 0 (S d)) with (0 :: seq 1 d). cbn [map].
      rewrite <- seq_shift, map_map.
      do 3 f_equal. lia.
    + lia.
    + intros k Hk. destruct (Hretry (S k)) as (res' & Hres' & Hv'); [lia|].
      exists res'. cbn [sleep fetched fetches].
      replace (S (fetches st) + k) with (fetches st + S k) by lia.
      replace (S t + k) with (t + S k) by lia. now split.
    + destruct Hfatal as (res' & Hres' & Hv').
      exists res'. cbn [sleep fetched fetches].
      replace (S (fetches st) + d) with (fetches st + S d) by lia.
      replace (S t + d) with (t + S d) by lia. now split.
Qed.

(** The recursion never outlives a fuel above the attempts it can make. *)
Lemma attempts_total :
  forall bound fuel t st,
    (forall k r res d, bound <= k -> attempt k r res <> Retry d) ->
    bound - t < fuel ->
    attempts rnd attempt fetch fuel t st <> None.
Proof.
  intros bound. induction fuel as [|fuel IH]; intros t st Hb Hfuel; [lia|].
  simpl. destruct (fetch (fetches st)) as [res|e]; [|discriminate].
  destruct (attempt t (rnd (fetches st)) res) as [x [p|]|d|e] eqn:Hv;
    try discriminate.
  apply IH; [assumption|].
  destruct (Nat.le_gt_cases bound t) as [Hle|Hgt]; [|lia].
  exfalso. exact (Hb t _ res d Hle Hv).
Qed.
End Runs.

Lemma http_attempt_no_retry_after_budget (cfg : Config) (J : Type) :
  forall k r (res : response J) d,
    maxRetries cfg <= k -> http_attempt cfg k r res <> Retry d.
Proof.
  intros k r res d Hk. unfold http_attempt.
  replace (k <? maxRetries cfg) with false by (symmetry; apply Nat.ltb_ge; lia).
  cbn [andb]. destruct (negb (ok res)); [discriminate|].
  destruct (json res); discriminate.
Qed.

Lemma gql_attempt_no_retry_after_budget (cfg : Config) (D : Type) :
  forall k r (res : response (gql_body D)) d,
    Nat.max 3 (maxRetries cfg) <= k -> gql_attempt cfg k r res <> Retry d.
Proof.
  intros k r res d Hk. unfold gql_attempt.
  replace (k <? maxRetries cfg) with false by (symmetry; apply Nat.ltb_ge; lia).
  replace (k <? 3) with false by (symmetry; apply Nat.ltb_ge; lia).
  cbn [andb].
  destruct (negb (ok res)); [discriminate|].
  destruct (json res) as [js|e]; [|discriminate].
  destruct (errors js) as [m|]; [|discriminate].
  rewrite andb_false_r. discriminate.
Qed.

(** Both clients return or throw: the fuel of their definitions is enough,
    whatever the provider answers. *)
Lemma fetchJsonWithRetry_total (cfg : Config) (rnd : nat -> Q) (J : Type)
      (fetch : nat -> result (response J)) :
  fetchJsonWithRetry cfg rnd fetch <> None.
Proof.
  unfold fetchJsonWithRetry.
  apply attempts_total with (bound := maxRetries cfg);
    [apply http_attempt_no_retry_after_budget | lia].
Qed.

Lemma gqlRequest_total (cfg : Config) (rnd : nat -> Q) (D : Type)
      (fetch : nat -> result (response (gql_body D))) :
  gqlRequest cfg rnd fetch <> None.
Proof.
  unfold gqlRequest.
  apply attempts_total with (bound := Nat.max 3 (maxRetries cfg));
    [apply gql_attempt_no_retry_after_budget | lia].
Qed.

(** *** Backoff delays *)

Lemma http_base_delay_mono (t t' : nat) :
  t <= t' -> (http_base_delay t <= http_base_delay t' <= 30000)%Z.
Proof.
  intros H. unfold http_base_delay. split; [|apply Z.le_min_r].
  apply Z.min_le_compat_r. apply Z.mul_le_mono_nonneg_l; [lia|].
  apply Z.pow_le_mono_r; lia.
Qed.

Lemma gql_base_delay_mono (t t' : nat) :
  t <= t' -> (gql_base_delay t <= gql_base_delay t' <= 45000)%Z.
Proof.
  intros H. unfold gql_base_delay. split; [|apply Z.le_min_r].
  apply Z.min_le_compat_r. apply Z.mul_le_mono_nonneg_l; [lia|].
  apply Z.pow_le_mono_r; lia.
Qed.

Lemma below_cap_small (base cap : Z) (t : nat) :
  (0 < base)%Z -> (cap <= base * 32)%Z ->
  (Z.min (base * 2 ^ Z.of_nat t) cap < cap)%Z -> t <= 4.
Proof.
  intros Hb Hc Hlt. destruct (Nat.le_gt_cases t 4) as [|Hgt]; [assumption|].
  exfalso.
  assert (2 ^ 5 <= 2 ^ Z.of_nat t)%Z by (apply Z.pow_le_mono_r; lia).
  change (2 ^ 5)%Z with 32%Z in *. nia.
Qed.

Ltac eval_base_delays :=
  match goal with
  | |- (inject_Z ?a + _ <= inject_Z ?b + _)%Q =>
      let a' := eval vm_compute in a in
      let b' := eval vm_compute in b in
      change a with a'; change b with b'; unfold inject_Z
  end.

(** While the capped base is below the cap, the next delay is not smaller,
    whatever the two jitters. *)
Lemma http_delay_step (t : nat) (r r' : Q) :
  (0 <= r < 1)%Q -> (0 <= r' < 1)%Q ->
  (http_base_delay t < 30000)%Z ->
  (http_delay t r <= http_delay (S t) r')%Q.
Proof.
  intros Hr Hr' Hcap.
  assert (Ht : t <= 4) by (apply below_cap_small with (base := 1000%Z) (cap := 30000%Z); [lia | lia | exact Hcap]).
  unfold http_delay, http_base_delay.
  do 5 (destruct t as [|t]; [eval_base_delays; lra|]). lia.
Qed.

Lemma gql_delay_step (t : nat) (r r' : Q) :
  (0 <= r < 1)%Q -> (0 <= r' < 1)%Q ->
  (gql_base_delay t < 45000)%Z ->
  (gql_delay t r <= gql_delay (S t) r')%Q.
Proof.
  intros Hr Hr' Hcap.
  assert (Ht : t <= 4) by (apply below_cap_small with (base := 1500%Z) (cap := 45000%Z); [lia | lia | exact Hcap]).
  unfold gql_delay, gql_base_delay.
  do 5 (destruct t as [|t]; [eval_base_delays; lra|]). lia.
Qed.

Lemma jittered_step (a b : Z) (r r' : Q) :
  (a + 1000 <= b)%Z -> (0 <= r < 1)%Q -> (0 <= r' < 1)%Q ->
  (inject_Z a + r * 1000 <= inject_Z b + r' * 1000)%Q.
Proof.
  intros Hab Hr Hr'. rewrite Zle_Qle, inject_Z_plus in Hab.
  change (inject_Z 1000) with 1000%Q in Hab. lra.
Qed.

(** The delays of retried GraphQL errors grow with the attempt number. *)
Lemma gql_application_delay_step (t : nat) (r r' : Q) :
  (0 <= r < 1)%Q -> (0 <= r' < 1)%Q ->
  (gql_application_delay t r <= gql_application_delay (S t) r')%Q.
Proof.
  intros Hr Hr'. unfold gql_application_delay.
  destruct t as [|[|[|t]]].
  - cbn [Nat.ltb Nat.leb]. unfold gql_quick_delay. rewrite <- Zle_Qle. lia.
  - cbn [Nat.ltb Nat.leb]. unfold gql_quick_delay. rewrite <- Zle_Qle. lia.
  - cbn [Nat.ltb Nat.leb]. unfold gql_quick_delay, gql_error_delay.
    change (inject_Z (200 * Z.of_nat 2)) with 400%Q.
    change (inject_Z (2000 * 2 ^ Z.of_nat 3)) with 16000%Q. lra.
  - replace (S (S (S t)) <? 3) with false by (symmetry; apply Nat.ltb_ge; lia).
    replace (S (S (S (S t))) <? 3) with false by (symmetry; apply Nat.ltb_ge; lia).
    unfold gql_error_delay. apply jittered_step; try assumption.
    rewrite (Nat2Z.inj_succ (S (S (S t)))), Z.pow_succ_r by lia.
    assert (0 < 2 ^ Z.of_nat (S (S (S t))))%Z
      by (apply Z.pow_pos_nonneg; lia).
    lia.
Qed.

(** *** Exhausting the retry budget *)

(** [fetchJsonWithRetry] against a provider that always answers with a
    retryable status. *)
Lemma fetchJsonWithRetry_exhausts (cfg : Config) (rnd : nat -> Q) (J : Type)
      (fetch : nat -> result (response J)) :
  1 <= maxRetries cfg ->
  (forall n, http_retryable (fetch n)) ->
  fetchJsonWithRetry cfg rnd fetch =
  Some (Throw (http_final_error (fetch (maxRetries cfg - 1))),
        {| fetches := maxRetries cfg;
           slept := map (fun k => http_delay (S k) (rnd k))
                        (seq 0 (maxRetries cfg - 1)) |}).
Proof.
  intros HM Hall. unfold fetchJsonWithRetry.
  rewrite (@attempts_exhaust rnd J J (http_attempt cfg) fetch
             (maxRetries cfg - 1) _ 1 io0
             (fun k => http_delay (S k) (rnd k))
             (http_final_error (fetch (maxRetries cfg - 1)))).
  - cbn [io0 fetches slept app]. do 3 f_equal. lia.
  - lia.
  - intros k Hk. destruct (Hall k) as (res & Hres & Hst).
    exists res. cbn [io0 fetches Nat.add]. split; [assumption|].
    unfold http_attempt. rewrite (retryable_status_not_ok res Hst), Hst.
    replace (S k <? maxRetries cfg) with true
      by (symmetry; apply Nat.ltb_lt; lia).
    reflexivity.
  - destruct (Hall (maxRetries cfg - 1)) as (res & Hres & Hst).
    exists res. cbn [io0 fetches Nat.add]. split; [assumption|].
    rewrite Hres. cbn [http_final_error].
    unfold http_attempt. rewrite (retryable_status_not_ok res Hst), Hst.
    replace (S (maxRetries cfg - 1) <? maxRetries cfg) with false
      by (symmetry; apply Nat.ltb_ge; lia).
    reflexivity.
Qed.

Lemma gql_attempt_retryable_before_budget (cfg : Config) (D : Type)
      (tryNum : nat) (r : Q) (res : response (gql_body D)) :
  gql_retryable (Ok res) ->
  tryNum < maxRetries cfg ->
  exists d, gql_attempt cfg tryNum r res = Retry d.
Proof.
  intros (res' & Heq & Hcase) Hlt. injection Heq as <-.
  unfold gql_attempt.
  replace (tryNum <? maxRetries cfg) with true
    by (symmetry; apply Nat.ltb_lt; lia).
  destruct Hcase as [Hst | (Hok & js & m & Hjs & Herr & Hinc)].
  - rewrite (retryable_status_not_ok res Hst), Hst. cbn. eauto.
  - rewrite Hok, Hjs, Herr, Hinc. cbn [negb andb].
    destruct (tryNum <? 3); eauto.
Qed.

Lemma gql_attempt_retryable_at_budget (cfg : Config) (D : Type)
      (r : Q) (res : response (gql_body D)) :
  gql_retryable (Ok res) ->
  3 <= maxRetries cfg ->
  gql_attempt cfg (maxRetries cfg) r res = Fatal (gql_final_error (Ok res)).
Proof.
  intros (res' & Heq & Hcase) Hlt. injection Heq as <-.
  unfold gql_attempt, gql_final_error.
  rewrite Nat.ltb_irrefl.
  replace (maxRetries cfg <? 3) with false
    by (symmetry; apply Nat.ltb_ge; lia).
  destruct Hcase as [Hst | (Hok & js & m & Hjs & Herr & Hinc)].
  - rewrite (retryable_status_not_ok res Hst). reflexivity.
  - rewrite Hok, Hjs, Herr, Hinc. reflexivity.
Qed.

(** [gqlRequest] against a provider whose every answer is retryable, with a
    budget of at least three attempts. *)
Lemma gqlRequest_exhausts (cfg : Config) (rnd : nat -> Q) (D : Type)
      (fetch : nat -> result (response (gql_body D))) :
  3 <= maxRetries cfg ->
  (forall n, gql_retryable (fetch n)) ->
  gqlRequest cfg rnd fetch =
  Some (Throw (gql_final_error (fetch (maxRetries cfg - 1))),
        {| fetches := maxRetries cfg;
           slept := map (fun k => gql_retry_delay cfg (S k) (rnd k) (fetch k))
                        (seq 0 (maxRetries cfg - 1)) |}).
Proof.
  intros HM Hall. unfold gqlRequest.
  rewrite (@attempts_exhaust rnd _ D (gql_attempt cfg) fetch
             (maxRetries cfg - 1) _ 1 io0
             (fun k => gql_retry_delay cfg (S k) (rnd k) (fetch k))
             (gql_final_error (fetch (maxRetries cfg - 1)))).
  - cbn [io0 fetches slept app]. do 3 f_equal. lia.
  - lia.
  - intros k Hk. pose proof (Hall k) as Hk'.
    destruct (Hall k) as (res & Hres & _). rewrite Hres in Hk'.
    exists res. cbn [io0 fetches Nat.add]. split; [assumption|].
    destruct (@gql_attempt_retryable_before_budget cfg D (S k) (rnd k) res Hk')
      as (d & Hd); [lia|].
    rewrite Hres. unfold gql_retry_delay. rewrite Hd. reflexivity.
  - pose proof (Hall (maxRetries cfg - 1)) as Hk'.
    destruct (Hall (maxRetries cfg - 1)) as (res & Hres & _).
    rewrite Hres in Hk' |- *.
    exists res. cbn [io0 fetches Nat.add]. split; [assumption|].
    replace (S (maxRetries cfg - 1)) with (maxRetries cfg) by lia.
    now apply gql_attempt_retryable_at_budget.
Qed.

(** C3 (amended): when every attempt has a retryable outcome,
    [fetchJsonWithRetry] invokes [fetch] exactly [maxRetries] times and then
    throws the error of the final response, and so does [gqlRequest] when
    [maxRetries] is at least 3; the capped exponential base of the
    transport-level delays is non-decreasing in the attempt number and never
    above its cap (30000 resp. 45000), with jitter added the delay of the
    next transport-level retry is not smaller as long as the base is below
    the cap, and the delays of retried GraphQL errors are non-decreasing in
    the attempt number. *)
Theorem retry_budget_exhausted
        (cfg : Config) (rnd : nat -> Q) (J D : Type)
        (fetchJ : nat -> result (response J))
        (fetchG : nat -> result (response (gql_body D))) :
  1 <= maxRetries cfg ->
  (forall n, http_retryable (fetchJ n)) ->
  (forall n, gql_retryable (fetchG n)) ->
  fetchJsonWithRetry cfg rnd fetchJ =
    Some (Throw (http_final_error (fetchJ (maxRetries cfg - 1))),
          {| fetches := maxRetries cfg;
             slept := map (fun k => http_delay (S k) (rnd k))
                          (seq 0 (maxRetries cfg - 1)) |})
  /\ (3 <= maxRetries cfg ->
      gqlRequest cfg rnd fetchG =
        Some (Throw (gql_final_error (fetchG (maxRetries cfg - 1))),
              {| fetches := maxRetries cfg;
                 slept := map (fun k => gql_retry_delay cfg (S k) (rnd k) (fetchG k))
                              (seq 0 (maxRetries cfg - 1)) |}))
  /\ (forall t t', t <= t' ->
        (http_base_delay t <= http_base_delay t' <= 30000)%Z /\
        (gql_base_delay t <= gql_base_delay t' <= 45000)%Z)
  /\ (forall t r r', (0 <= r < 1)%Q -> (0 <= r' < 1)%Q ->
        ((http_base_delay t < 30000)%Z ->
         (http_delay t r <= http_delay (S t) r')%Q) /\
        ((gql_base_delay t < 45000)%Z ->
         (gql_delay t r <= gql_delay (S t) r')%Q) /\
        (gql_application_delay t r <= gql_application_delay (S t) r')%Q).
Proof.
  intros HM HJ HG. split; [|split; [|split]].
  - now apply fetchJsonWithRetry_exhausts.
  - intros HM3. now apply gqlRequest_exhausts.
  - intros t t' Hle. split;
      [now apply http_base_delay_mono | now apply gql_base_delay_mono].
  - intros t r r' Hr Hr'. split; [|split].
    + intros Hcap. now apply http_delay_step.
    + intros Hcap. now apply gql_delay_step.
    + now apply gql_application_delay_step.
Qed.

(** The default budget of five attempts: five invocations, four sleeps. *)
Lemma retry_budget_exhausted_witness :
  fetchJsonWithRetry default_config no_jitter (always_status nat 503) =
    Some (Throw (HttpError 503 "Error" EmptyString),
          {| fetches := 5; slept := [2000; 4000; 8000; 16000]%Q |})
  /\ gqlRequest default_config no_jitter always_internal_error =
    Some (Throw (GraphQLErrors (errors_text "Internal server error")),
          {| fetches := 5; slept := [200; 400; 16000; 32000]%Q |}).
Proof.
  destruct (@retry_budget_exhausted default_config no_jitter nat nat
              (always_status nat 503) always_internal_error)
    as (H1 & H2 & _).
  - simpl. lia.
  - intros n. eexists. split; reflexivity.
  - intros n. eexists. split; [reflexivity|]. right.
    split; [reflexivity|]. do 2 eexists. repeat split; reflexivity.
  - split; [exact H1|]. apply H2. simpl. lia.
Defined.

(** C3 as stated fails for [gqlRequest]: with a budget of two attempts a
    provider that always reports the transient error is called three times
    (the first two GraphQL errors are always retried); and with the default
    budget a 503 followed by GraphQL errors sleeps 3000 ms and then 400 ms,
    so the delays decrease. *)
Lemma retry_budget_counterexample :
  (forall n, gql_retryable (always_internal_error n))
  /\ (exists e st,
        gqlRequest (config_with_retries 2) no_jitter always_internal_error =
          Some (Throw e, st) /\
        fetches st = 3 /\ fetches st <> maxRetries (config_with_retries 2))
  /\ (forall n, gql_retryable (unavailable_then_internal_error n))
  /\ (exists e st,
        gqlRequest default_config no_jitter unavailable_then_internal_error =
          Some (Throw e, st) /\
        slept st = [3000; 400; 16000; 32000]%Q /\
        ~ Sorted Qle (slept st)).
Proof.
  assert (Hise : forall n, gql_retryable (always_internal_error n)).
  { intros n. eexists. split; [reflexivity|]. right.
    split; [reflexivity|]. do 2 eexists. repeat split; reflexivity. }
  split; [exact Hise|split; [|split]].
  - do 2 eexists. split; [reflexivity|]. split; [reflexivity|]. simpl. lia.
  - intros [|n]; [|apply Hise].
    eexists. split; [reflexivity|]. left. reflexivity.
  - do 2 eexists. split; [reflexivity|]. split; [reflexivity|].
    cbn [slept]. intros Hs. inversion Hs as [|a l _ Hhd]; subst.
    inversion Hhd as [|b l' Hle]; subst.
    unfold Qle in Hle. simpl in Hle. lia.
Qed.

(** *** Classification of one attempt *)

(** C4 (amended): the statuses 429, 500, 502, 503 and 504 are retried while
    the attempt number is below [maxRetries]; every other non-2xx status is
    fatal at once; a GraphQL errors payload is retried whatever its text on
    attempts 1 and 2, and from attempt 3 on it is fatal unless its text
    contains "Internal server error" and the attempt number is below
    [maxRetries], in which case it is retried. *)
Theorem outcome_classification
        (cfg : Config) (J D : Type) (tryNum : nat) (r : Q)
        (resJ : response J) (resG : response (gql_body D)) :
  (forall s, retryable_status s = true <->
             (s = 429 \/ s = 500 \/ s = 502 \/ s = 503 \/ s = 504)%Z)
  /\ (retryable_status (status resJ) = true -> tryNum < maxRetries cfg ->
      http_attempt cfg tryNum r resJ = Retry (http_delay tryNum r))
  /\ (retryable_status (status resG) = true -> tryNum < maxRetries cfg ->
      gql_attempt cfg tryNum r resG = Retry (gql_delay tryNum r))
  /\ (ok resJ = false -> retryable_status (status resJ) = false ->
      http_attempt cfg tryNum r resJ =
        Fatal (HttpError (status resJ) (statusText resJ) (text resJ)))
  /\ (ok resG = false -> retryable_status (status resG) = false ->
      gql_attempt cfg tryNum r resG =
        Fatal (GraphQLHttpError (status resG) (statusText resG) (text resG)))
  /\ (forall js m,
        ok resG = true -> json resG = Ok js -> errors js = Some m ->
        (tryNum < 3 ->
         gql_attempt cfg tryNum r resG = Retry (gql_quick_delay tryNum))
        /\ (3 <= tryNum -> tryNum < maxRetries cfg ->
            includes "Internal server error" m = true ->
            gql_attempt cfg tryNum r resG = Retry (gql_error_delay tryNum r))
        /\ (3 <= tryNum ->
            includes "Internal server error" m = false \/ maxRetries cfg <= tryNum ->
            gql_attempt cfg tryNum r resG = Fatal (GraphQLErrors m))).
Proof.
  split; [exact retryable_status_spec|].
  split; [|split; [|split; [|split]]].
  - intros Hst Hlt. unfold http_attempt.
    rewrite (retryable_status_not_ok resJ Hst), Hst.
    replace (tryNum <? maxRetries cfg) with true
      by (symmetry; apply Nat.ltb_lt; lia).
    reflexivity.
  - intros Hst Hlt. unfold gql_attempt.
    rewrite (retryable_status_not_ok resG Hst), Hst.
    replace (tryNum <? maxRetries cfg) with true
      by (symmetry; apply Nat.ltb_lt; lia).
    reflexivity.
  - intros Hok Hst. unfold http_attempt. rewrite Hok, Hst, andb_false_r.
    reflexivity.
  - intros Hok Hst. unfold gql_attempt. rewrite Hok, Hst, andb_false_r.
    reflexivity.
  - intros js m Hok Hjs Herr. unfold gql_attempt.
    rewrite Hok, Hjs, Herr. cbn [negb]. split; [|split].
    + intros Hlt.
      replace (tryNum <? 3) with true by (symmetry; apply Nat.ltb_lt; lia).
      reflexivity.
    + intros H3 Hlt Hinc.
      replace (tryNum <? 3) with false by (symmetry; apply Nat.ltb_ge; lia).
      replace (tryNum <? maxRetries cfg) with true
        by (symmetry; apply Nat.ltb_lt; lia).
      rewrite Hinc. reflexivity.
    + intros H3 Hcase.
      replace (tryNum <? 3) with false by (symmetry; apply Nat.ltb_ge; lia).
      destruct Hcase as [Hinc | Hge].
      * rewrite Hinc. reflexivity.
      * replace (tryNum <? maxRetries cfg) with false
          by (symmetry; apply Nat.ltb_ge; lia).
        rewrite andb_false_r. reflexivity.
Qed.

(** A 503 on the first attempt is retried after 2000 ms plus jitter, a 404 is
    fatal, and a permanent GraphQL error is fatal on the third attempt. *)
Lemma outcome_classification_witness :
  http_attempt default_config 1 0 (Build_response 503 "Error" EmptyString (Ok 0)) =
    Retry (http_delay 1 0)
  /\ http_attempt default_config 1 0 (Build_response 404 "Not Found" EmptyString (Ok 0)) =
    Fatal (HttpError 404 "Not Found" EmptyString)
  /\ gql_attempt default_config 3 0
       (gql_answer (Some (errors_text "Unknown argument")) 0) =
    Fatal (GraphQLErrors (errors_text "Unknown argument")).
Proof.
  split; [|split].
  - destruct (@outcome_classification default_config nat nat 1 0
                (Build_response 503 "Error" EmptyString (Ok 0))
                (gql_answer None 0)) as (_ & H & _).
    apply H; [reflexivity | simpl; lia].
  - destruct (@outcome_classification default_config nat nat 1 0
                (Build_response 404 "Not Found" EmptyString (Ok 0))
                (gql_answer None 0)) as (_ & _ & _ & H & _).
    apply H; reflexivity.
  - destruct (@outcome_classification default_config nat nat 3 0
                (Build_response 404 "Not Found" EmptyString (Ok 0))
                (gql_answer (Some (errors_text "Unknown argument")) 0))
      as (_ & _ & _ & _ & _ & H).
    destruct (H _ _ eq_refl eq_refl eq_refl) as (_ & _ & H3).
    apply H3; [lia | left; reflexivity].
Defined.

(** C4 as stated fails: a GraphQL errors payload without the transient
    message is not fatal on the first attempt; it is retried after 200 ms and
    the call succeeds with the second answer. *)
Lemma outcome_classification_counterexample :
  includes "Internal server error" (errors_text "Unknown argument") = false
  /\ gql_attempt default_config 1 0
       (gql_answer (Some (errors_text "Unknown argument")) 0) =
     Retry 200%Q
  /\ gqlRequest default_config no_jitter bad_request_then_data =
     Some (Ok 7, {| fetches := 2; slept := [200; 200]%Q |}).
Proof.
  repeat split; reflexivity.
Qed.

End RetryFacts.

(** ** The concurrency gate *)

Module GateFacts.
Import Gate.

Lemma remove_perm (x : nat) (l : list nat) :
  NoDup l -> In x l -> Permutation l (x :: remove Nat.eq_dec x l).
Proof.
  induction l as [|a l IH]; intros Hnd Hin; [destruct Hin|].
  inversion Hnd as [|? ? Hna Hnd']; subst. cbn [remove].
  destruct (Nat.eq_dec x a) as [->|Hne].
  - rewrite notin_remove by assumption. reflexivity.
  - destruct Hin as [Heq|Hin]; [congruence|].
    rewrite perm_swap. constructor. now apply IH.
Qed.

Lemma remove_nodup (x : nat) (l : list nat) :
  NoDup l -> NoDup (remove Nat.eq_dec x l).
Proof.
  induction l as [|a l IH]; intros Hnd; [constructor|].
  inversion Hnd as [|? ? Hna Hnd']; subst. cbn [remove].
  destruct (Nat.eq_dec x a); [now apply IH|].
  constructor; [|now apply IH].
  intros Hin. apply in_remove in Hin. tauto.
Qed.

Lemma remove_head (x : nat) (l : list nat) :
  NoDup (x :: l) -> remove Nat.eq_dec x (x :: l) = l.
Proof.
  intros Hnd. inversion Hnd; subst. cbn [remove].
  destruct (Nat.eq_dec x x); [|congruence]. now apply notin_remove.
Qed.

Section Invariant.
Variable V : Type.
Variable concurrency : Z.
Hypothesis concurrency_pos : (1 <= concurrency)%Z.

Lemma pLimit_inv : gate_inv concurrency (pLimit V).
Proof.
  constructor; cbn; try reflexivity; try lia.
  - constructor.
  - intros x [].
  - congruence.
Qed.

Lemma queued_not_started (g : gate V) (q : nat) (rest : list nat) :
  gate_inv concurrency g -> queue g = q :: rest -> ~ In q (started g).
Proof.
  intros Hinv Hq Hin.
  pose proof (seq_NoDup (submitted g) 0) as Hnd.
  rewrite <- (inv_order Hinv), Hq in Hnd.
  apply NoDup_remove_2 in Hnd. apply Hnd.
  apply in_or_app. now left.
Qed.

Lemma submit_inv (g : gate V) :
  gate_inv concurrency g -> gate_inv concurrency (submit concurrency g).
Proof.
  intros Hinv. unfold submit. cbn [active submitted].
  destruct (active g <? concurrency)%Z eqn:Hlt.
  - apply Z.ltb_lt in Hlt.
    assert (Hq : queue g = []).
    { destruct (queue g) eqn:Hq; [reflexivity|].
      pose proof (inv_full Hinv) as Hf. rewrite Hq in Hf.
      assert (active g = concurrency) by (apply Hf; discriminate). lia. }
    pose proof (inv_order Hinv) as Hord. rewrite Hq, app_nil_r in Hord.
    constructor; cbn [active queue running started settled submitted run].
    + rewrite length_app, (inv_active Hinv). cbn. lia.
    + lia.
    + rewrite Hq, app_nil_r, Hord, seq_S. reflexivity.
    + apply NoDup_app_remove_l with (l := []). cbn.
      apply Permutation_NoDup with (l := submitted g :: running g).
      * apply Permutation_cons_append.
      * constructor; [|exact (inv_nodup Hinv)].
        intros Hin. apply (inv_incl Hinv) in Hin. rewrite Hord in Hin.
        apply in_seq in Hin. lia.
    + intros x Hin. apply in_app_or in Hin. apply in_or_app.
      destruct Hin as [Hin|Hin]; [left; now apply (inv_incl Hinv)|now right].
    + rewrite Hq. congruence.
    + rewrite app_assoc. apply Permutation_app_tail. exact (inv_accounted Hinv).
  - apply Z.ltb_ge in Hlt. pose proof (inv_bound Hinv).
    constructor; cbn [active queue running started settled submitted run].
    + exact (inv_active Hinv).
    + lia.
    + rewrite app_assoc, (inv_order Hinv), seq_S. reflexivity.
    + exact (inv_nodup Hinv).
    + exact (inv_incl Hinv).
    + intros _. lia.
    + exact (inv_accounted Hinv).
Qed.

Lemma settle_inv (g : gate V) (id : nat) (o : settlement V) :
  gate_inv concurrency g -> In id (running g) ->
  gate_inv concurrency (settle id o g).
Proof.
  intros Hinv Hin.
  pose proof (@remove_perm id _ (inv_nodup Hinv) Hin) as Hperm.
  assert (Hlen : length (running g) = S (length (remove Nat.eq_dec id (running g))))
    by (rewrite (Permutation_length Hperm); reflexivity).
  pose proof (inv_active Hinv) as Hact. pose proof (inv_bound Hinv) as Hb.
  assert (Hsub : incl (remove Nat.eq_dec id (running g)) (started g)).
  { intros x Hx. apply in_remove in Hx. apply (inv_incl Hinv). tauto. }
  unfold settle, next. cbn [active queue running started settled submitted].
  destruct (queue g) as [|q rest] eqn:Hq.
  - constructor; cbn [active queue running started settled submitted run].
    + lia.
    + lia.
    + rewrite <- (inv_order Hinv), Hq. reflexivity.
    + apply remove_nodup. exact (inv_nodup Hinv).
    + exact Hsub.
    + congruence.
    + rewrite map_app, <- app_assoc.
      apply Permutation_trans with (1 := inv_accounted Hinv).
      apply Permutation_app_head. exact Hperm.
  - assert (Hfull : active g = concurrency)
      by (apply (inv_full Hinv); rewrite Hq; discriminate).
    pose proof (queued_not_started Hinv Hq) as Hfresh.
    constructor; cbn [active queue running started settled submitted run].
    + rewrite length_app. cbn. lia.
    + lia.
    + rewrite <- app_assoc. cbn. rewrite <- (inv_order Hinv), Hq. reflexivity.
    + apply Permutation_NoDup with (l := q :: remove Nat.eq_dec id (running g)).
      * apply Permutation_cons_append.
      * constructor; [|apply remove_nodup; exact (inv_nodup Hinv)].
        intros Hx. apply Hfresh. now apply Hsub.
    + intros x Hx. apply in_app_or in Hx. apply in_or_app.
      destruct Hx as [Hx|Hx]; [left; now apply Hsub|now right].
    + intros _. lia.
    + apply Permutation_trans
        with (l' := (map fst (settled g) ++ running g) ++ [q]).
      * apply Permutation_app_tail. exact (inv_accounted Hinv).
      * rewrite map_app, <- !app_assoc. apply Permutation_app_head.
        exact (Permutation_app_tail [q] Hperm).
Qed.

Lemma step_inv (g g' : gate V) (ev : event V) :
  gate_inv concurrency g -> step concurrency g ev = Some g' ->
  gate_inv concurrency g'.
Proof.
  intros Hinv Hstep. destruct ev as [|id o]; cbn in Hstep.
  - injection Hstep as <-. now apply submit_inv.
  - destruct (in_dec Nat.eq_dec id (running g)) as [Hin|]; [|discriminate].
    injection Hstep as <-. now apply settle_inv.
Qed.

Lemma exec_inv (evs : list (event V)) :
  forall g g', gate_inv concurrency g -> exec concurrency g evs = Some g' ->
               gate_inv concurrency g'.
Proof.
  induction evs as [|ev evs IH]; intros g g' Hinv Hexec; cbn in Hexec.
  - injection Hexec as <-. assumption.
  - destruct (step concurrency g ev) as [g1|] eqn:Hstep; [|discriminate].
    eapply IH; [|eassumption]. eapply step_inv; eassumption.
Qed.

Lemma reachable_inv (g : gate V) :
  reachable concurrency g -> gate_inv concurrency g.
Proof.
  intros (evs & Hexec). eapply exec_inv; [apply pLimit_inv|eassumption].
Qed.
End Invariant.

Section Progress.
Variable V : Type.
Variable concurrency : Z.
Hypothesis concurrency_pos : (1 <= concurrency)%Z.

(** Settling a started task while a task waits starts the oldest waiting
    task and nothing else. *)
Lemma settle_releases_head (g : gate V) (id q : nat) (rest : list nat)
      (o : settlement V) :
  queue g = q :: rest ->
  queue (settle id o g) = rest /\
  running (settle id o g) = remove Nat.eq_dec id (running g) ++ [q] /\
  started (settle id o g) = started g ++ [q].
Proof.
  intros Hq. unfold settle, next.
  cbn [active queue running started settled submitted]. rewrite Hq.
  cbn [active queue running started settled submitted run]. auto.
Qed.

Lemma settle_no_waiting (g : gate V) (id : nat) (o : settlement V) :
  queue g = [] ->
  queue (settle id o g) = [] /\
  running (settle id o g) = remove Nat.eq_dec id (running g) /\
  started (settle id o g) = started g.
Proof.
  intros Hq. unfold settle, next.
  cbn [active queue running started settled submitted]. rewrite Hq.
  cbn [active queue running started settled submitted run]. auto.
Qed.

Lemma settle_submitted (g : gate V) (id : nat) (o : settlement V) :
  submitted (settle id o g) = submitted g.
Proof.
  unfold settle, next. cbn [active queue running started settled submitted].
  destruct (queue g); reflexivity.
Qed.

(** A waiting task always has a started task ahead of it. *)
Lemma waiting_means_running (g : gate V) :
  gate_inv concurrency g -> queue g <> [] -> running g <> [].
Proof.
  intros Hinv Hq Hr. pose proof (inv_full Hinv Hq) as Hfull.
  rewrite (inv_active Hinv), Hr in Hfull. cbn in Hfull. lia.
Qed.

(** Letting the started tasks settle one after the other, with any
    outcomes, empties the gate. *)
Lemma drain_empties (outcome : nat -> settlement V) :
  forall n g,
    gate_inv concurrency g ->
    length (running g) + length (queue g) = n ->
    exists g',
      exec concurrency g (drain outcome n g) = Some g' /\
      running g' = [] /\ queue g' = [] /\
      submitted g' = submitted g /\
      forallb (@is_settle V) (drain outcome n g) = true.
Proof.
  induction n as [|n IH]; intros g Hinv Hn.
  - exists g. cbn. repeat split; try reflexivity.
    + destruct (running g); [reflexivity|cbn in Hn; lia].
    + destruct (queue g); [reflexivity|].
      destruct (running g); cbn in Hn; lia.
  - destruct (running g) as [|id rest] eqn:Hrun.
    + exfalso. apply (waiting_means_running Hinv); [|assumption].
      destruct (queue g); [cbn in Hn; lia|discriminate].
    + assert (Hin : In id (running g)) by (rewrite Hrun; now left).
      pose proof (inv_nodup Hinv) as Hnd. rewrite Hrun in Hnd.
      pose proof (@settle_inv V concurrency g id (outcome id) Hinv Hin) as Hinv'.
      destruct (IH (settle id (outcome id) g) Hinv') as (g' & He & Hr & Hq & Hs & Hall).
      * destruct (queue g) as [|q qs] eqn:Hq.
        -- destruct (settle_no_waiting g id (outcome id) Hq) as (-> & -> & _).
           rewrite Hrun, (remove_head Hnd). cbn in Hn |- *. lia.
        -- destruct (settle_releases_head g id (outcome id) Hq) as (-> & -> & _).
           rewrite Hrun, (remove_head Hnd), length_app. cbn in Hn |- *. lia.
      * exists g'. cbn [drain]. rewrite Hrun. cbn [exec step forallb is_settle].
        destruct (in_dec Nat.eq_dec id (running g)) as [_|Hno]; [|contradiction].
        rewrite settle_submitted in Hs. auto.
Qed.
End Progress.

(** C5: in every state a gate of size [concurrency >= 1] can reach, at most
    [concurrency] tasks are running and [active] counts them; tasks are
    started in the order they were submitted, and a settling task releases
    the oldest waiting one; a rejected task frees its slot exactly as a
    fulfilled one does and its rejection is recorded for its own caller
    only; a waiting task always has a running task ahead of it, and letting
    the running tasks settle, with failures or not, runs every submitted
    task to completion. *)
Theorem gate_bounded_fifo_isolated
        (V : Type) (concurrency : Z) (g : gate V) :
  (1 <= concurrency)%Z ->
  reachable concurrency g ->
  (Z.of_nat (length (running g)) <= concurrency)%Z
  /\ active g = Z.of_nat (length (running g))
  /\ started g ++ queue g = seq 0 (submitted g)
  /\ (forall id o q rest,
        queue g = q :: rest ->
        queue (settle id o g) = rest /\
        running (settle id o g) = remove Nat.eq_dec id (running g) ++ [q] /\
        started (settle id o g) = started g ++ [q])
  /\ (forall id e v,
        In id (running g) ->
        active (settle id (Rejected e) g) = active (settle id (Fulfilled v) g) /\
        queue (settle id (Rejected e) g) = queue (settle id (Fulfilled v) g) /\
        running (settle id (Rejected e) g) = running (settle id (Fulfilled v) g) /\
        ~ In id (running (settle id (Rejected e) g)) /\
        settled (settle id (Rejected e) g) = settled g ++ [(id, Rejected e)])
  /\ (queue g <> [] -> running g <> [])
  /\ (forall outcome : nat -> settlement V,
        exists evs g',
          forallb (@is_settle V) evs = true /\
          exec concurrency g evs = Some g' /\
          running g' = [] /\ queue g' = [] /\
          Permutation (map fst (settled g')) (seq 0 (submitted g))).
Proof.
  intros Hpos Hreach. pose proof (reachable_inv Hpos Hreach) as Hinv.
  split; [|split; [|split; [|split; [|split; [|split]]]]].
  - rewrite <- (inv_active Hinv). exact (inv_bound Hinv).
  - exact (inv_active Hinv).
  - exact (inv_order Hinv).
  - intros id o q rest Hq. now apply settle_releases_head.
  - intros id e v Hin.
    assert (Hgone : ~ In id (running (settle id (Rejected e) g))).
    { destruct (queue g) as [|q rest] eqn:Hq.
      - destruct (settle_no_waiting g id (Rejected e) Hq) as (_ & -> & _).
        apply remove_In.
      - destruct (settle_releases_head g id (Rejected e) Hq) as (_ & -> & _).
        intros Hx. apply in_app_or in Hx. destruct Hx as [Hx|[Hx|[]]].
        + revert Hx. apply remove_In.
        + subst q. apply (queued_not_started Hinv Hq).
          now apply (inv_incl Hinv). }
    unfold settle, next in *.
    cbn [active queue running started settled submitted] in *.
    destruct (queue g); cbn [active queue running started settled submitted run] in *;
      repeat split; auto.
  - exact (waiting_means_running Hpos Hinv).
  - intros outcome.
    destruct (@drain_empties V concurrency Hpos outcome
                (length (running g) + length (queue g)) g Hinv eq_refl)
      as (g' & He & Hr & Hq & Hs & Hall).
    exists (drain outcome (length (running g) + length (queue g)) g), g'.
    repeat split; try assumption.
    assert (Hinv' : gate_inv concurrency g') by (eapply exec_inv; eassumption).
    pose proof (inv_accounted Hinv') as Hacc.
    pose proof (inv_order Hinv') as Hord.
    rewrite Hr, app_nil_r in Hacc. rewrite Hq, app_nil_r, Hs in Hord.
    rewrite <- Hord. symmetry. exact Hacc.
Qed.

(** Three tasks through a gate of size two: the third waits, the failure of
    the first releases it, and all three settle. *)
Lemma gate_bounded_fifo_isolated_witness :
  exists g : gate nat,
    exec 2 (pLimit nat) [Submit; Submit; Submit] = Some g /\
    running g = [0; 1] /\ queue g = [2] /\
    running (settle 0 (Rejected (NetworkError "timeout")) g) = [1; 2] /\
    settled (settle 0 (Rejected (NetworkError "timeout")) g) =
      [(0, Rejected (NetworkError "timeout"))].
Proof.
  eexists. split; [reflexivity|].
  assert (Hreach : reachable 2 (submit 2 (submit 2 (submit 2 (pLimit nat)))))
    by (exists [Submit; Submit; Submit]; reflexivity).
  destruct (@gate_bounded_fifo_isolated nat 2 _ ltac:(lia) Hreach)
    as (_ & _ & _ & Hfifo & Hiso & _).
  destruct (Hfifo 0 (Rejected (NetworkError "timeout")) 2 [] eq_refl)
    as (_ & Hrun & _).
  destruct (Hiso 0 (NetworkError "timeout") 0 ltac:(now left))
    as (_ & _ & _ & _ & Hset).
  split; [reflexivity|]. split; [reflexivity|].
  split; [exact Hrun | exact Hset].
Defined.

End GateFacts.

(** ** Address extraction *)

Module AddressFacts.
Import Js Address.

Lemma lower_char_not_upper (c : ascii) : is_upper (lower_char c) = false.
Proof.
  unfold lower_char. destruct (is_upper c) eqn:Hup; [|assumption].
  unfold is_upper in *. apply andb_true_iff in Hup. destruct Hup as [H1 H2].
  apply Nat.leb_le in H1, H2.
  rewrite nat_ascii_embedding by lia.
  apply andb_false_iff. right. apply Nat.leb_gt. lia.
Qed.

Lemma toLowerCase_no_upper (s : string) : no_upper (toLowerCase s) = true.
Proof.
  induction s as [|c s IH]; [reflexivity|].
  cbn [toLowerCase no_upper]. rewrite lower_char_not_upper, IH. reflexivity.
Qed.

Lemma normalizeAddress_string_or_falsy (v : value) :
  string_or_falsy v = true ->
  exists s, normalizeAddress v = Ok s /\ no_upper s = true.
Proof.
  intros H. unfold normalizeAddress.
  destruct v as [| |b|q|s|l|f]; cbn in H |- *;
    try (exists EmptyString; split; reflexivity);
    try discriminate.
  - destruct b; [discriminate|]. exists EmptyString. split; reflexivity.
  - apply negb_true_iff in H. rewrite H. exists EmptyString. split; reflexivity.
  - destruct s as [|c s].
    + exists EmptyString. split; reflexivity.
    + eexists. split; [reflexivity|]. apply toLowerCase_no_upper.
Qed.

Lemma split_not_nil (sep : ascii) (s : string) : split sep s <> [].
Proof.
  induction s as [|c s IH]; cbn; [discriminate|].
  destruct (Ascii.eqb c sep); [discriminate|].
  destruct (split sep s); discriminate.
Qed.

Lemma last_map_VStr (l : list string) :
  l <> [] -> exists s, last (map VStr l) VUndefined = VStr s.
Proof.
  induction l as [|a l IH]; intros Hne; [congruence|].
  destruct l as [|b l]; [exists a; reflexivity|].
  destruct IH as (s & Hs); [discriminate|]. exists s. exact Hs.
Qed.

(** On the shapes it is written for the extractor returns a string without
    upper-case letters. *)
Lemma extractPtAddress_expected_shape (ptField : value) :
  expected_shape ptField = true ->
  exists s, extractPtAddressFromPendleActive ptField = Ok s /\ no_upper s = true.
Proof.
  intros Hshape.
  assert (Hfields :
            forall v, (forall s, v <> VStr s) -> expected_shape v = true ->
                      exists s,
                        (if truthy v && typeof_object v then
                           if truthy (get v "address")
                           then normalizeAddress (get v "address")
                           else if truthy (get v "token")
                           then normalizeAddress (get v "token")
                           else if truthy (get v "id")
                           then normalizeAddress (get v "id")
                           else Ok EmptyString
                         else Ok EmptyString) = Ok s /\ no_upper s = true).
  { intros v Hns Hsh.
    assert (Hsh' : string_or_falsy (get v "address") = true /\
                   string_or_falsy (get v "token") = true /\
                   string_or_falsy (get v "id") = true).
    { destruct v; cbn in Hsh; try (exfalso; eapply Hns; reflexivity);
        try (repeat split; reflexivity).
      apply andb_true_iff in Hsh. destruct Hsh as [Hsh H3].
      apply andb_true_iff in Hsh. tauto. }
    destruct Hsh' as (H1 & H2 & H3).
    destruct (truthy v && typeof_object v);
      [|exists EmptyString; split; reflexivity].
    destruct (truthy (get v "address"));
      [now apply normalizeAddress_string_or_falsy|].
    destruct (truthy (get v "token"));
      [now apply normalizeAddress_string_or_falsy|].
    destruct (truthy (get v "id"));
      [now apply normalizeAddress_string_or_falsy|].
    exists EmptyString. split; reflexivity. }
  destruct ptField as [| |b|q|s|l|f];
    try (apply Hfields; [discriminate|assumption]).
  cbn [extractPtAddressFromPendleActive].
  destruct (last_map_VStr (split_not_nil "-" s)) as (p & Hp). rewrite Hp.
  apply normalizeAddress_string_or_falsy. reflexivity.
Qed.

(** C9, at the failing input: an object whose [address] is a number makes
    the extractor throw instead of returning the empty string. *)
Theorem extractPtAddress_throws_on_numeric_address :
  expected_shape (VObj [("address"%string, VNum 42)]) = false /\
  extractPtAddressFromPendleActive (VObj [("address"%string, VNum 42)]) =
    Throw (TypeError "(addr || ...).toLowerCase is not a function") /\
  extractPtAddressFromPendleActive (VStr "1-0xABCDEF") = Ok "0xabcdef"%string /\
  extractPtAddressFromPendleActive (VObj [("token"%string, VStr "0xAb")]) = Ok "0xab"%string /\
  extractPtAddressFromPendleActive VNull = Ok EmptyString /\
  extractPtAddressFromPendleActive VUndefined = Ok EmptyString.
Proof.
  repeat split; reflexivity.
Qed.

End AddressFacts.

(** ** The fetch graph *)

Module AggregateFacts.
Import Aggregate.

(** *** The vault loop and its circuit breaker *)

Lemma fetchVaultDepositors_never_throws (answer : result (option (list position))) :
  fetchVaultDepositors answer = Ok (depositors_or_empty answer).
Proof. destruct answer; reflexivity. Qed.

Section CaughtLoop.
Variable cfg : Config.
Variable w : provider.
Variable rnd : jitter.

Lemma vault_iteration_caught (i : nat) (va : string) (st : vault_loop_state) :
  consecutiveFailures st = 0 ->
  vault_iteration cfg w rnd fetchVaultDepositors i va st =
  {| failureCount := failureCount st;
     consecutiveFailures := 0;
     vaultDepositors :=
       set_key va (depositors_or_empty (vaultDepositorsQuery w i va))
               (vaultDepositors st);
     sleeps := sleeps st ++
               [(Pacing, (inject_Z (rateLimitMs cfg) + pacing_random rnd i * 100)%Q)] |}.
Proof.
  intros H0. unfold vault_iteration. rewrite H0.
  rewrite fetchVaultDepositors_never_throws. reflexivity.
Qed.

Lemma vault_loop_caught :
  forall vs i st,
    consecutiveFailures st = 0 ->
    consecutiveFailures (vault_loop cfg w rnd fetchVaultDepositors i vs st) = 0
    /\ failureCount (vault_loop cfg w rnd fetchVaultDepositors i vs st) =
       failureCount st
    /\ (forall s, In s (sleeps (vault_loop cfg w rnd fetchVaultDepositors i vs st)) ->
                  In s (sleeps st) \/ fst s = Pacing).
Proof.
  induction vs as [|v vs IH]; intros i st H0; cbn [vault_loop].
  - auto.
  - rewrite (vault_iteration_caught i (vault_address v) st H0).
    match goal with
    | |- context [if ?c then ?a else _] => set (st1 := a); destruct c
    end.
    + subst st1. cbn [consecutiveFailures failureCount sleeps].
      repeat split; try reflexivity.
      intros s Hs. apply in_app_or in Hs.
      destruct Hs as [Hs|[<-|[]]]; [now left|now right].
    + destruct (IH (S i) st1 eq_refl) as (Hc & Hf & Hs).
      repeat split; [exact Hc|exact Hf|].
      intros s Hin. destruct (Hs s Hin) as [Hold|Hp]; [|now right].
      subst st1. cbn [sleeps] in Hold. apply in_app_or in Hold.
      destruct Hold as [Hold|[<-|[]]]; [now left|now right].
Qed.
End CaughtLoop.

(** The loop itself does what its comments say, for a fetch function whose
    failures reach it: with five or more consecutive failures on record the
    iteration starts with the cooldown of 5000 ms plus jitter and a counter
    set back to 0, and a fetch that succeeds leaves the counter at 0. *)
Lemma breaker_trips_when_failures_are_seen
      (cfg : Config) (w : provider) (rnd : jitter)
      (fetch : result (option (list position)) -> result (list position))
      (i : nat) (va : string) (st : vault_loop_state) :
  (maxConsecutiveFailures <= consecutiveFailures st ->
   exists later,
     sleeps (vault_iteration cfg w rnd fetch i va st) =
     sleeps st ++
     (BreakerCooldown, (5000 + breaker_random rnd i * 2000)%Q) :: later)
  /\ (forall items,
        fetch (vaultDepositorsQuery w i va) = Ok items ->
        consecutiveFailures (vault_iteration cfg w rnd fetch i va st) = 0).
Proof.
  split.
  - intros Hge. unfold vault_iteration.
    replace (maxConsecutiveFailures <=? consecutiveFailures st) with true
      by (symmetry; apply Nat.leb_le; exact Hge).
    cbn [failureCount consecutiveFailures vaultDepositors sleeps].
    destruct (fetch (vaultDepositorsQuery w i va)) as [items|e];
      cbn [failureCount consecutiveFailures vaultDepositors sleeps Nat.ltb Nat.leb].
    + eexists. rewrite <- app_assoc. reflexivity.
    + eexists. rewrite <- app_assoc. reflexivity.
  - intros items Hok. unfold vault_iteration. rewrite Hok. reflexivity.
Qed.

(** C8, on the code: in [run] the failure counters of the vault loop never
    leave 0 and the only sleep is the pacing one, whatever the depositor
    queries do, because [fetchVaultDepositors] catches every error before
    the loop can count it.  With six vaults whose queries all fail the loop
    sleeps six pacing delays; the same loop around a fetch function that
    lets the error through counts six failures and takes the cooldown of
    5000 ms before the sixth vault. *)
Theorem circuit_breaker_never_trips :
  (forall cfg w rnd vaults,
      let st := vault_loop cfg w rnd fetchVaultDepositors 0 vaults vault_loop_start in
      consecutiveFailures st = 0 /\ failureCount st = 0 /\
      forall s, In s (sleeps st) -> fst s = Pacing)
  /\ (let w := sample_provider (Ok []) 6 (Throw (NetworkError "down")) in
      sleeps (vault_loop default_config w no_vault_jitter fetchVaultDepositors
                         0 (sample_vaults 6) vault_loop_start) =
        [(Pacing, 200%Q); (Pacing, 200%Q); (Pacing, 200%Q);
         (Pacing, 200%Q); (Pacing, 200%Q); (Pacing, 200%Q)]
      /\ sleeps (vault_loop default_config w no_vault_jitter
                            fetchVaultDepositors_uncaught
                            0 (sample_vaults 6) vault_loop_start) =
        [(Pacing, 200%Q); (Pacing, 200%Q);
         (AdditionalBackoff, 3000%Q); (Pacing, 200%Q);
         (AdditionalBackoff, 4000%Q); (Pacing, 200%Q);
         (AdditionalBackoff, 5000%Q); (Pacing, 200%Q);
         (BreakerCooldown, 5000%Q); (Pacing, 200%Q)]
      /\ failureCount (vault_loop default_config w no_vault_jitter
                                  fetchVaultDepositors_uncaught
                                  0 (sample_vaults 6) vault_loop_start) = 6).
Proof.
  split.
  - intros cfg w rnd vaults st.
    destruct (vault_loop_caught cfg w rnd vaults 0 vault_loop_start eq_refl)
      as (Hc & Hf & Hs).
    repeat split; [exact Hc|exact Hf|].
    intros s Hin. destruct (Hs s Hin) as [[]|Hp]. exact Hp.
  - repeat split; reflexivity.
Qed.

(** *** Error isolation *)

Lemma borrowersWithTransactions_all_users (w : provider) (key : string) :
  forall bs acc,
    (forall b, In b bs -> position_user b <> None) ->
    borrowersWithTransactions w key bs acc =
    Ok (acc ++ map (try_userTransactions w key) bs).
Proof.
  induction bs as [|b bs IH]; intros acc Hall; cbn [borrowersWithTransactions map].
  - rewrite app_nil_r. reflexivity.
  - destruct (position_user b) eqn:Hu.
    + rewrite IH by (intros b' Hb'; apply Hall; now right).
      rewrite <- app_assoc. reflexivity.
    + exfalso. apply (Hall b); [now left|assumption].
Qed.

Lemma fold_build_market (w : provider) :
  forall ms acc,
    fold_left (build_market w) ms acc =
    acc ++ map (try_market w) (filter has_both_assets ms).
Proof.
  induction ms as [|m ms IH]; intros acc; cbn [fold_left filter].
  - rewrite app_nil_r. reflexivity.
  - rewrite IH. unfold build_market. destruct (has_both_assets m).
    + rewrite <- app_assoc. reflexivity.
    + reflexivity.
Qed.

Lemma set_key_keeps_keys (A : Type) (k k' : string) (v : A)
      (obj : list (string * A)) :
  k' = k \/ In k' (map fst obj) -> In k' (map fst (set_key k v obj)).
Proof.
  induction obj as [|[k0 v0] obj IH]; cbn [set_key map fst In].
  - intros [->|[]]. now left.
  - intros Hor. destruct (String.eqb k k0) eqn:Heq; cbn [map fst In].
    + apply String.eqb_eq in Heq. subst k0.
      destruct Hor as [->|[<-|Hin]]; [now left|now left|now right].
    + destruct Hor as [->|[<-|Hin]]; [right; apply IH; now left|now left|].
      right. apply IH. now right.
Qed.

Lemma set_key_values (A : Type) (k k' : string) (v v' : A)
      (obj : list (string * A)) :
  In (k', v') (set_key k v obj) -> (k' = k /\ v' = v) \/ In (k', v') obj.
Proof.
  induction obj as [|[k0 v0] obj IH]; cbn [set_key In].
  - intros [Heq|[]]. injection Heq as <- <-. now left.
  - destruct (String.eqb k k0); cbn [In].
    + intros [Heq|Hin]; [injection Heq as <- <-; now left|right; now right].
    + intros [Heq|Hin]; [right; now left|].
      destruct (IH Hin) as [Hl|Hr]; [now left|right; now right].
Qed.

Section VaultEntries.
Variable cfg : Config.
Variable w : provider.
Variable rnd : jitter.

Lemma vault_loop_keys :
  testMode cfg = false ->
  forall vs i st (v : vault),
    consecutiveFailures st = 0 ->
    In v vs \/ In (vault_address v) (map fst (vaultDepositors st)) ->
    In (vault_address v)
       (map fst (vaultDepositors (vault_loop cfg w rnd fetchVaultDepositors i vs st))).
Proof.
  intros Htest. induction vs as [|v0 vs IH]; intros i st v H0 Hor;
    cbn [vault_loop].
  - destruct Hor as [[]|Hin]. exact Hin.
  - rewrite Htest. cbn [andb].
    rewrite (vault_iteration_caught cfg w rnd i (vault_address v0) st H0).
    apply IH; [reflexivity|]. cbn [vaultDepositors].
    destruct Hor as [[->|Hin]|Hin].
    + right. apply set_key_keeps_keys. now left.
    + now left.
    + right. apply set_key_keeps_keys. now right.
Qed.

Lemma vault_loop_values :
  forall vs i st va items,
    consecutiveFailures st = 0 ->
    In (va, items)
       (vaultDepositors (vault_loop cfg w rnd fetchVaultDepositors i vs st)) ->
    In (va, items) (vaultDepositors st) \/
    exists j, items = depositors_or_empty (vaultDepositorsQuery w j va).
Proof.
  induction vs as [|v0 vs IH]; intros i st va items H0 Hin;
    cbn [vault_loop] in Hin.
  - now left.
  - rewrite (vault_iteration_caught cfg w rnd i (vault_address v0) st H0) in Hin.
    assert (Hstep :
              In (va, items)
                 (set_key (vault_address v0)
                          (depositors_or_empty (vaultDepositorsQuery w i (vault_address v0)))
                          (vaultDepositors st)) ->
              In (va, items) (vaultDepositors st) \/
              exists j, items = depositors_or_empty (vaultDepositorsQuery w j va)).
    { intros Hset. apply set_key_values in Hset.
      destruct Hset as [[-> ->]|Hold]; [right; now exists i|now left]. }
    destruct (testMode cfg && (3 <? i)).
    + apply Hstep. exact Hin.
    + apply IH in Hin; [|reflexivity].
      destruct Hin as [Hin|Hex]; [apply Hstep; exact Hin|now right].
Qed.
End VaultEntries.

Lemma rejections_none (A B : Type) (f : A -> result B) :
  forall l out, mapM f l = Ok out -> rejections (map f l) = [].
Proof.
  induction l as [|a l IH]; intros out H; [reflexivity|].
  cbn [mapM] in H. cbn [map rejections].
  destruct (f a) as [b|e]; [|discriminate]. cbn [bind] in H.
  destruct (mapM f l) as [bs|e]; [|discriminate]. now apply (IH bs).
Qed.

Lemma mapM_settled (A B : Type) (f : A -> result B) (l : list A) :
  mapM (fun outcome => outcome) (map f l) = mapM f l.
Proof.
  induction l as [|a l IH]; [reflexivity|].
  cbn [map mapM]. now rewrite IH.
Qed.

(** When every task is fulfilled, [Promise.all] gives the values. *)
Lemma promise_all_fulfilled (A B : Type) (f : A -> result B) (first : nat) :
  forall l out, mapM f l = Ok out -> promise_all first (map f l) = Ok out.
Proof.
  intros l out H. unfold promise_all.
  rewrite (rejections_none f l H), mapM_settled. exact H.
Qed.

(** C2 (amended): in [buildCompleteDataset] a failure to fetch a market's top
    borrowers or a borrower's transactions is caught: the market (resp. the
    borrower) is still emitted, with an empty child collection and the error
    noted on it, and only a failure of the market listing makes the call
    throw.  In the collector's [run] a failure to fetch a vault's depositors
    is caught inside [fetchVaultDepositors]: the vault is still emitted,
    with an empty list of depositors (and nothing else), while a failure of
    the market listing or of the curator and vault listing makes [run]
    throw. *)
Theorem fetch_failures_isolated (cfg : Config) (w : provider) (rnd : jitter) :
  (forall e, allMorphoMarkets w = Throw e -> buildCompleteDataset w = Throw e)
  /\ (forall ms, allMorphoMarkets w = Ok ms ->
        buildCompleteDataset w =
          Ok (map (try_market w) (filter has_both_assets ms)))
  /\ (forall m e, topBorrowersForMarket w (uniqueKey m) = Throw e ->
        try_market w m =
          {| entry_market := m; topBorrowers := []; entry_error := Some e |})
  /\ (forall m bs, topBorrowersForMarket w (uniqueKey m) = Ok bs ->
        (forall b, In b bs -> position_user b <> None) ->
        try_market w m =
          {| entry_market := m;
             topBorrowers := map (try_userTransactions w (uniqueKey m)) bs;
             entry_error := None |})
  /\ (forall key b e,
        userTransactionsForMarket w (user_address b) key = Throw e ->
        try_userTransactions w key b =
          {| borrower := b; borrower_transactions := [];
             borrower_error := Some e |})
  /\ (forall e, allMorphoMarkets w = Throw e -> run cfg w rnd = Throw e)
  /\ (forall ms entries e,
        allMorphoMarkets w = Ok ms ->
        mapM (market_task w) ms = Ok entries ->
        curatorsAndAllVaults w = Throw e ->
        run cfg w rnd = Throw e)
  /\ (forall ms entries cs vs,
        allMorphoMarkets w = Ok ms ->
        mapM (market_task w) ms = Ok entries ->
        curatorsAndAllVaults w = Ok (cs, vs) ->
        exists out,
          run cfg w rnd = Ok out /\
          marketsWithBorrowers out = entries /\
          vaults out = vs /\
          (testMode cfg = false ->
           forall v, In v vs ->
             In (vault_address v) (map fst (vaultDepositors (vault_state out)))) /\
          (forall va items,
             In (va, items) (vaultDepositors (vault_state out)) ->
             exists i, items = depositors_or_empty (vaultDepositorsQuery w i va))).
Proof.
  split; [|split; [|split; [|split; [|split; [|split; [|split]]]]]].
  - intros e He. unfold buildCompleteDataset. rewrite He. reflexivity.
  - intros ms Hms. unfold buildCompleteDataset. rewrite Hms. cbn [bind].
    rewrite fold_build_market. reflexivity.
  - intros m e He. unfold try_market. rewrite He. reflexivity.
  - intros m bs Hbs Husers. unfold try_market. rewrite Hbs. cbn [bind].
    rewrite borrowersWithTransactions_all_users by assumption. reflexivity.
  - intros key b e He. unfold try_userTransactions. rewrite He. reflexivity.
  - intros e He. unfold run. rewrite He. reflexivity.
  - intros ms entries e Hms Hent Hcv. unfold run.
    rewrite Hms. cbn [bind]. rewrite (promise_all_fulfilled _ _ _ Hent).
    cbn [bind]. rewrite Hcv. reflexivity.
  - intros ms entries cs vs Hms Hent Hcv. unfold run.
    rewrite Hms. cbn [bind]. rewrite (promise_all_fulfilled _ _ _ Hent).
    cbn [bind]. rewrite Hcv. cbn [bind].
    eexists. split; [reflexivity|].
    cbn [marketsWithBorrowers vaults vault_state fst snd].
    repeat split.
    + intros Htest v Hin. apply vault_loop_keys; [assumption|reflexivity|now left].
    + intros va items Hin. apply vault_loop_values in Hin; [|reflexivity].
      destruct Hin as [[]|Hex]. exact Hex.
Qed.

(** One market whose borrower listing fails, in the builder; two vaults
    whose depositor queries fail, in the collector. *)
Lemma fetch_failures_isolated_witness :
  let w := sample_provider (Throw (NetworkError "down")) 0 (Ok None) in
  let w' := sample_provider (Ok []) 2 (Throw (NetworkError "down")) in
  buildCompleteDataset w =
    Ok [{| entry_market := sample_market "0xm1"; topBorrowers := [];
           entry_error := Some (NetworkError "down") |}]
  /\ exists out,
       run default_config w' no_vault_jitter = Ok out /\
       vaultDepositors (vault_state out) = [("a"%string, []); ("b"%string, [])].
Proof.
  intros w w'. split.
  - destruct (fetch_failures_isolated default_config w no_vault_jitter)
      as (_ & Hb & _).
    exact (Hb [sample_market "0xm1"] eq_refl).
  - destruct (fetch_failures_isolated default_config w' no_vault_jitter)
      as (_ & _ & _ & _ & _ & _ & _ & Hr).
    destruct (Hr [sample_market "0xm1"] _ [] (sample_vaults 2)
                 eq_refl eq_refl eq_refl) as (out & Hout & _).
    exists out. split; [exact Hout|].
    vm_compute in Hout. injection Hout as <-. reflexivity.
Defined.

(** C2 as stated fails in the collector.  A market whose borrower listing
    fails is not emitted: the task has no [try] and the rejection ends [run],
    although both listings succeeded.  A vault whose depositor query fails is
    emitted, but without a note: the result of the run is the very result
    obtained when the vault has no depositors. *)
Lemma fetch_failures_isolated_counterexample :
  (let w := sample_provider (Throw (NetworkError "down")) 1 (Ok None) in
   allMorphoMarkets w = Ok [sample_market "0xm1"] /\
   curatorsAndAllVaults w = Ok ([], sample_vaults 1) /\
   run default_config w no_vault_jitter = Throw (NetworkError "down"))
  /\ (let failing := sample_provider (Ok []) 1 (Throw (NetworkError "down")) in
      let empty := sample_provider (Ok []) 1 (Ok (Some [])) in
      run default_config failing no_vault_jitter =
      run default_config empty no_vault_jitter /\
      exists out, run default_config failing no_vault_jitter = Ok out /\
                  vaultDepositors (vault_state out) = [("a"%string, [])]).
Proof.
  split.
  - repeat split; reflexivity.
  - split; [reflexivity|]. eexists. split; reflexivity.
Qed.

(** *** The top five transactions of a depositor *)


Lemma insert_perm (A : Type) (compare : A -> A -> Q) (x : A) :
  forall l, Permutation (insert compare x l) (x :: l).
Proof.
  induction l as [|y l IH]; cbn [insert]; [reflexivity|].
  destruct (Qle_bool (compare x y) 0); [reflexivity|].
  rewrite IH. apply perm_swap.
Qed.

Lemma sort_perm (A : Type) (compare : A -> A -> Q) :
  forall l, Permutation (sort compare l) l.
Proof.
  induction l as [|x l IH]; cbn [sort]; [reflexivity|].
  rewrite insert_perm. now constructor.
Qed.







Lemma no_usd_field_value (tx : transaction) :
  no_usd_field tx -> extractAssetsUsd tx = 0%Q.
Proof.
  intros [Hd|(d & Hd & Ha & Hr)]; unfold extractAssetsUsd; rewrite Hd;
    [reflexivity|]. rewrite Ha, Hr. reflexivity.
Qed.




End AggregateFacts.

(** ** Flattening and headers *)

Module SheetsFacts.
Import Js Sheets.

Section Flatten.
Variable rt : runtime.

Lemma flat_entries_fields (fields : list (string * value)) (prefix : string) :
  flat_entries rt (VObj fields) prefix =
  flat_map (fun kv => flat_entries rt (snd kv) (dotted prefix (fst kv))) fields.
Proof.
  cbn [flat_entries]. induction fields as [|[k v] fields IH]; [reflexivity|].
  cbn [flat_map fst snd]. rewrite IH. reflexivity.
Qed.

(** [flatten] writes the entries of the specification into [out], in
    order. *)
Lemma flatten_flat_entries :
  forall v prefix out,
    flatten rt v prefix out = fold_left put (flat_entries rt v prefix) out.
Proof.
  induction v as [| |b|q|s|elems _|fields IH] using value_induction;
    intros prefix out; try reflexivity.
  - destruct prefix; reflexivity.
  - destruct prefix; reflexivity.
  - destruct elems as [|first rest]; [reflexivity|].
    cbn [flatten flat_entries]. destruct (typeof_object first); reflexivity.
  - rewrite flat_entries_fields. cbn [flatten]. revert out.
    induction fields as [|[k v] fields IHf]; intros out; [reflexivity|].
    inversion IH as [|? ? Hv Hrest]; subst.
    cbn [flat_map fst snd]. rewrite fold_left_app.
    cbn [snd] in Hv. rewrite <- Hv. apply IHf. exact Hrest.
Qed.
End Flatten.

(** *** Keys and headers *)












(** *** The text of a sheet *)

Section Cells.
Variable rt : runtime.







End Cells.


Lemma run_columns_not_inherited :
  forall k, In k run_columns ->
            k <> EmptyString /\ inherited_text plain_runtime k = None.
Proof.
  intros k Hin. unfold run_columns in Hin. cbn [In] in Hin.
  repeat (destruct Hin as [<-|Hin]; [split; [discriminate|reflexivity]|]).
  destruct Hin.
Qed.




(** C10: [flatten] looks at the first element of an array only.  When it
    is an object (or an array, or [null]) the whole array, whatever follows,
    is stored as one JSON text under the parent path; otherwise the array is
    joined with the delimiter; and the empty array is stored as the empty
    string, the join of no element, never as JSON. *)
Theorem flatten_array_by_first_element
        (rt : runtime) (prefix : string) (out : row) :
  (forall first rest,
      typeof_object first = true ->
      flatten rt (VArr (first :: rest)) prefix out =
      set_key (or_key prefix "json")
              (VStr (JSON_stringify rt (VArr (first :: rest)))) out)
  /\ (forall first rest,
        typeof_object first = false ->
        flatten rt (VArr (first :: rest)) prefix out =
        set_key (or_key prefix "list")
                (VStr (join_with (to_string rt) "|" (first :: rest))) out)
  /\ (forall fields, typeof_object (VObj fields) = true)
  /\ flatten rt (VArr []) prefix out =
     set_key (or_key prefix "list") (VStr EmptyString) out
  /\ join_with (to_string rt) "|" [] = EmptyString.
Proof.
  split; [|split; [|split; [|split]]]; try reflexivity.
  - intros first rest Hobj. cbn [flatten]. rewrite Hobj. reflexivity.
  - intros first rest Hobj. cbn [flatten]. rewrite Hobj. reflexivity.
Qed.

(** An array that starts with an object and goes on with a number is one
    JSON text; the empty array is the empty string. *)
Lemma flatten_array_by_first_element_witness :
  flatten plain_runtime
          (VArr [VObj [("hash"%string, VStr "0xt1")]; VNum 2])
          "userTransactions" [] =
    [("userTransactions"%string,
      VStr (JSON_stringify plain_runtime
              (VArr [VObj [("hash"%string, VStr "0xt1")]; VNum 2])))]
  /\ flatten plain_runtime (VArr [VNum 2; VObj [("hash"%string, VStr "0xt1")]])
             "userTransactions" [] =
     [("userTransactions"%string, VStr "2|[object Object]")]
  /\ flatten plain_runtime (VArr []) "notes" [] =
     [("notes"%string, VStr EmptyString)].
Proof.
  destruct (flatten_array_by_first_element plain_runtime "userTransactions" [])
    as (Hjson & Hjoin & _).
  destruct (flatten_array_by_first_element plain_runtime "notes" [])
    as (_ & _ & _ & Hempty & _).
  split; [|split].
  - exact (Hjson (VObj [("hash"%string, VStr "0xt1")]) [VNum 2] eq_refl).
  - exact (Hjoin (VNum 2) [VObj [("hash"%string, VStr "0xt1")]] eq_refl).
  - exact Hempty.
Defined.

End SheetsFacts.

(** * Part III: further properties of the code *)

(** ** Retrying clients: budget and recovery *)

Module RetryBudgetFacts.
Import Retry.

Section Bounded.
Variable rnd : nat -> Q.
Variables J X : Type.
Variable attempt : nat -> Q -> response J -> verdict X.
Variable fetch : nat -> result (response J).

(** A call makes at least one request and at most as many as it has fuel,
    and it sleeps at most once per request. *)
Lemma attempts_bounded :
  forall fuel t st r st',
    attempts rnd attempt fetch fuel t st = Some (r, st') ->
    fetches st < fetches st' <= fetches st + fuel /\
    length (slept st') <= length (slept st) + (fetches st' - fetches st).
Proof.
  induction fuel as [|fuel IH]; intros t st r st' Hrun; [discriminate|].
  cbn [attempts] in Hrun.
  destruct (fetch (fetches st)) as [res|e].
  - destruct (attempt t (rnd (fetches st)) res) as [x [p|]|d|e].
    + injection Hrun as <- <-. cbn [sleep fetched fetches slept].
      rewrite length_app. cbn [length]. lia.
    + injection Hrun as <- <-. cbn [fetched fetches slept]. lia.
    + apply IH in Hrun. cbn [sleep fetched fetches slept] in Hrun.
      rewrite length_app in Hrun. cbn [length] in Hrun. lia.
    + injection Hrun as <- <-. cbn [fetched fetches slept]. lia.
  - injection Hrun as <- <-. cbn [fetched fetches slept]. lia.
Qed.

(** Retried attempts only move the call forward: after [d] of them the call
    goes on from attempt [t + d] with the [d] delays in the log. *)
Lemma attempts_after_retries :
  forall d fuel t st (dl : nat -> Q),
    (forall k, k < d -> exists res,
          fetch (fetches st + k) = Ok res /\
          attempt (t + k) (rnd (fetches st + k)) res = Retry (dl k)) ->
    attempts rnd attempt fetch (d + fuel) t st =
    attempts rnd attempt fetch fuel (t + d)
             {| fetches := fetches st + d;
                slept := slept st ++ map dl (seq 0 d) |}.
Proof.
  induction d as [|d IH]; intros fuel t st dl Hretry.
  - cbn [Nat.add map seq]. rewrite !Nat.add_0_r, app_nil_r.
    destruct st; reflexivity.
  - destruct (Hretry 0) as (res & Hres & Hv); [lia|].
    rewrite Nat.add_0_r in Hres. rewrite !Nat.add_0_r in Hv.
    cbn [Nat.add attempts]. rewrite Hres, Hv.
    rewrite (IH fuel (S t) (sleep (dl 0) (fetched st)) (fun k => dl (S k))).
    + cbn [sleep fetched fetches slept].
      change (seq 0 (S d)) with (0 :: seq 1 d). cbn [map].
      rewrite <- seq_shift, map_map, <- app_assoc. cbn [app].
      replace (S (fetches st) + d) with (fetches st + S d) by lia.
      replace (S t + d) with (t + S d) by lia. reflexivity.
    + intros k Hk. destruct (Hretry (S k)) as (res' & Hres' & Hv'); [lia|].
      exists res'. cbn [sleep fetched fetches].
      replace (S (fetches st) + k) with (fetches st + S k) by lia.
      replace (S t + k) with (t + S k) by lia. now split.
Qed.
End Bounded.

(** X1: whatever the provider answers, [fetchJsonWithRetry] returns or
    throws after at least one and at most [max(1, maxRetries)] requests, and
    it has slept exactly once between two consecutive requests. *)
Theorem fetchJsonWithRetry_request_budget
        (cfg : Config) (rnd : nat -> Q) (J : Type)
        (fetch : nat -> result (response J)) :
  exists r st,
    fetchJsonWithRetry cfg rnd fetch = Some (r, st) /\
    1 <= fetches st <= Nat.max 1 (maxRetries cfg) /\
    length (slept st) = fetches st - 1.
Proof.
  destruct (fetchJsonWithRetry cfg rnd fetch) as [[r st]|] eqn:Hrun;
    [|exfalso; revert Hrun; apply RetryFacts.fetchJsonWithRetry_total].
  exists r, st. split; [reflexivity|].
  unfold fetchJsonWithRetry in Hrun.
  pose proof (attempts_bounded _ _ _ _ _ _ Hrun) as [Hb _].
  cbn [io0 fetches] in Hb. split; [lia|].
  clear Hb. revert Hrun. generalize (Nat.max 1 (maxRetries cfg)).
  assert (Hgen : forall fuel t st0,
             length (slept st0) = fetches st0 ->
             attempts rnd (http_attempt cfg) fetch fuel t st0 = Some (r, st) ->
             length (slept st) = fetches st - 1).
  { induction fuel as [|fuel IH]; intros t st0 Hlen Hrun; [discriminate|].
    cbn [attempts] in Hrun.
    destruct (fetch (fetches st0)) as [res|e].
    - unfold http_attempt in Hrun at 1.
      destruct (negb (ok res)).
      + destruct ((t <? maxRetries cfg) && retryable_status (status res)).
        * apply IH in Hrun; [assumption|].
          cbn [sleep fetched fetches slept]. rewrite length_app. cbn [length]. lia.
        * injection Hrun as <- <-. cbn [fetched fetches slept]. lia.
      + destruct (json res); injection Hrun as <- <-;
          cbn [fetched fetches slept]; lia.
    - injection Hrun as <- <-. cbn [fetched fetches slept]. lia. }
  intros n Hrun. exact (Hgen n 1 io0 eq_refl Hrun).
Qed.

(** X2: whatever the provider answers, [gqlRequest] returns or throws after
    at least one and at most [max(3, maxRetries)] requests. *)
Theorem gqlRequest_request_budget
        (cfg : Config) (rnd : nat -> Q) (D : Type)
        (fetch : nat -> result (response (gql_body D))) :
  exists r st,
    gqlRequest cfg rnd fetch = Some (r, st) /\
    1 <= fetches st <= Nat.max 3 (maxRetries cfg) /\
    length (slept st) <= fetches st.
Proof.
  destruct (gqlRequest cfg rnd fetch) as [[r st]|] eqn:Hrun;
    [|exfalso; revert Hrun; apply RetryFacts.gqlRequest_total].
  exists r, st. split; [reflexivity|].
  unfold gqlRequest in Hrun.
  pose proof (attempts_bounded _ _ _ _ _ _ Hrun) as [Hb Hs].
  cbn [io0 fetches slept length] in Hb, Hs. lia.
Qed.

(** X3: a transport-level failure streak that ends inside the budget is
    invisible to the caller: when the first [k < maxRetries] answers carry a
    retryable status and the next one is a 2xx with a well-formed body,
    [fetchJsonWithRetry] returns that body after [k + 1] requests and the [k]
    backoff delays. *)
Theorem fetchJsonWithRetry_recovers
        (cfg : Config) (rnd : nat -> Q) (J : Type)
        (fetch : nat -> result (response J))
        (k : nat) (res : response J) (j : J) :
  k < maxRetries cfg ->
  (forall n, n < k -> http_retryable (fetch n)) ->
  fetch k = Ok res -> ok res = true -> json res = Ok j ->
  fetchJsonWithRetry cfg rnd fetch =
  Some (Ok j, {| fetches := S k;
                 slept := map (fun i => http_delay (S i) (rnd i)) (seq 0 k) |}).
Proof.
  intros Hk Hretry Hres Hok Hjson. unfold fetchJsonWithRetry.
  replace (Nat.max 1 (maxRetries cfg))
    with (k + (Nat.max 1 (maxRetries cfg) - k)) by lia.
  rewrite (@attempts_after_retries rnd J J (http_attempt cfg) fetch k
             (Nat.max 1 (maxRetries cfg) - k) 1 io0
             (fun i => http_delay (S i) (rnd i))).
  - cbn [io0 fetches slept app Nat.add].
    destruct (Nat.max 1 (maxRetries cfg) - k) as [|fuel] eqn:Hfuel; [lia|].
    cbn [attempts fetches]. rewrite Hres. unfold http_attempt.
    rewrite Hok, Hjson. cbn [negb]. unfold fetched. cbn [fetches slept].
    reflexivity.
  - intros i Hi. destruct (Hretry i Hi) as (res' & Hres' & Hst).
    exists res'. cbn [io0 fetches Nat.add]. split; [assumption|].
    unfold http_attempt.
    rewrite (RetryFacts.retryable_status_not_ok res' Hst), Hst.
    replace (S i <? maxRetries cfg) with true
      by (symmetry; apply Nat.ltb_lt; lia).
    reflexivity.
Qed.

(** Two 503 answers and then the body. *)
Lemma fetchJsonWithRetry_recovers_witness :
  fetchJsonWithRetry default_config no_jitter
    (fun n => if n <? 2 then always_status nat 503 n
              else Ok (Build_response 200 "OK" EmptyString (Ok 7))) =
  Some (Ok 7, {| fetches := 3; slept := [2000; 4000]%Q |}).
Proof.
  apply (@fetchJsonWithRetry_recovers default_config no_jitter nat
           (fun n => if n <? 2 then always_status nat 503 n
                     else Ok (Build_response 200 "OK" EmptyString (Ok 7)))
           2 (Build_response 200 "OK" EmptyString (Ok 7)) 7).
  - simpl. lia.
  - intros n Hn. destruct n as [|[|n]]; [| |lia];
      (eexists; split; reflexivity).
  - reflexivity.
  - reflexivity.
  - reflexivity.
Defined.

End RetryBudgetFacts.

(** ** Paginated listings: termination, page caps, the builder's loops *)

Module ListingFacts.
Import Paginate Listing.

(** *** The collector's loops end for every provider *)

Lemma loop_fuel_enough (A : Type) (gql : nat -> nat -> nat -> result (page A)) :
  forall fuel first skip all total calls fuel',
    loop gql fuel first skip all total calls <> Diverged ->
    fuel <= fuel' ->
    loop gql fuel' first skip all total calls =
    loop gql fuel first skip all total calls.
Proof.
  induction fuel as [|fuel IH]; intros first skip all total calls fuel' Hnd Hle.
  - exfalso. apply Hnd. reflexivity.
  - destruct fuel' as [|fuel']; [lia|]. cbn [loop] in Hnd |- *.
    destruct (gql calls first skip) as [pg|e]; [|reflexivity].
    match goal with
    | |- context [if ?c then _ else _] => destruct c; [reflexivity|]
    end.
    apply IH; [assumption|lia].
Qed.

Lemma loop_calls_bound (A : Type) (gql : nat -> nat -> nat -> result (page A)) :
  forall fuel first skip all t calls,
    match loop gql fuel first skip all (Some t) calls with
    | Returned _ n | Thrown _ n => n <= calls + Nat.max 1 (t - skip)
    | Diverged => True
    end.
Proof.
  induction fuel as [|fuel IH]; intros first skip all t calls; [exact I|].
  cbn [loop]. destruct (gql calls first skip) as [pg|e]; [|lia].
  destruct (length (or_empty (items pg)) =? 0) eqn:Hz; [cbn [orb]; lia|].
  destruct (t <=? skip + length (or_empty (items pg))) eqn:Hle; [cbn [orb]; lia|].
  cbn [orb]. apply Nat.eqb_neq in Hz. apply Nat.leb_gt in Hle.
  specialize (IH first (skip + length (or_empty (items pg)))
                 (all ++ or_empty (items pg)) t (S calls)).
  destruct (loop gql fuel first (skip + length (or_empty (items pg)))
                 (all ++ or_empty (items pg)) (Some t) (S calls));
    try exact I; lia.
Qed.

(** X4: for every provider, consistent or not, the two paginated fetchers
    of the collector end: with enough fuel each returns or throws, the
    outcome no longer depends on the fuel, and when the first page reports a
    total [t] no more than [max(1, t)] requests are made. *)
Theorem paginated_fetch_always_ends
        (A : Type) (gql : nat -> nat -> nat -> result (page A)) (cfg : Config) :
  (exists r fuel0,
      r <> Diverged /\
      (forall fuel, fuel0 <= fuel ->
                    fetchAllUserTransactionsForMarket gql cfg fuel = r))
  /\ (exists r fuel0,
        r <> Diverged /\
        (forall fuel, fuel0 <= fuel -> fetchAllMorphoMarkets gql cfg fuel = r))
  /\ (forall fuel pg t,
        gql 0 (txPageSize cfg) 0 = Ok pg -> countTotal pg = Some t ->
        match fetchAllUserTransactionsForMarket gql cfg fuel with
        | Returned _ n | Thrown _ n => n <= Nat.max 1 t
        | Diverged => True
        end).
Proof.
  assert (Hends : forall first, exists r fuel0,
               r <> Diverged /\
               forall fuel, fuel0 <= fuel -> loop gql fuel first 0 [] None 0 = r).
  { intros first.
    destruct (PaginateFacts.loop_terminates gql first) as (fuel0 & Hfuel0).
    exists (loop gql fuel0 first 0 [] None 0), fuel0.
    split; [apply Hfuel0; lia|].
    intros fuel Hle. apply loop_fuel_enough; [apply Hfuel0; lia|assumption]. }
  split; [|split].
  - apply Hends.
  - destruct (Hends (morphoPageSize cfg)) as (r & fuel0 & Hnd & Hall).
    exists (match r with
            | Returned all n => Returned (apply_marketsLimit cfg all) n
            | o => o
            end), fuel0.
    split; [destruct r; [discriminate|discriminate|congruence]|].
    intros fuel Hle. unfold fetchAllMorphoMarkets. rewrite (Hall fuel Hle).
    destruct r; reflexivity.
  - intros fuel pg t Hpg Ht. unfold fetchAllUserTransactionsForMarket.
    destruct fuel as [|fuel]; [exact I|]. cbn [loop]. rewrite Hpg, Ht.
    destruct (length (or_empty (items pg)) =? 0) eqn:Hz; [cbn [orb]; lia|].
    destruct (t <=? 0 + length (or_empty (items pg))) eqn:Hle; [cbn [orb]; lia|].
    cbn [orb]. apply Nat.eqb_neq in Hz. apply Nat.leb_gt in Hle.
    pose proof (loop_calls_bound gql fuel (txPageSize cfg)
                  (0 + length (or_empty (items pg)))
                  ([] ++ or_empty (items pg)) t 1) as Hb.
    destruct (loop gql fuel (txPageSize cfg) (0 + length (or_empty (items pg)))
                   ([] ++ or_empty (items pg)) (Some t) 1);
      try exact I; lia.
Qed.

(** A provider that hands out one item per page and reports three. *)
Lemma paginated_fetch_always_ends_witness :
  match fetchAllUserTransactionsForMarket
          (fun _ _ _ => Ok {| items := Some [7]; countTotal := Some 3 |})
          default_config 10 with
  | Returned _ n | Thrown _ n => n <= 3
  | Diverged => True
  end.
Proof.
  destruct (@paginated_fetch_always_ends nat
              (fun _ _ _ => Ok {| items := Some [7]; countTotal := Some 3 |})
              default_config) as (_ & _ & H).
  exact (H 10 {| items := Some [7]; countTotal := Some 3 |} 3 eq_refl eq_refl).
Defined.

(** *** A server that caps the page size *)

Lemma loop_same_answers (A : Type)
      (gql gql' : nat -> nat -> nat -> result (page A)) (P P' : nat) :
  (forall n skip, gql' n P' skip = gql n P skip) ->
  forall fuel skip all total calls,
    loop gql' fuel P' skip all total calls = loop gql fuel P skip all total calls.
Proof.
  intros Hsame. induction fuel as [|fuel IH]; intros skip all total calls;
    [reflexivity|].
  cbn [loop]. rewrite Hsame. destruct (gql calls P skip) as [pg|e]; [|reflexivity].
  rewrite IH. reflexivity.
Qed.

(** X5: a server that silently caps pages at [cap] items (fewer than
    asked for) costs the collector nothing but requests: its loop advances by
    the items received and still returns all [T] items, after
    [max(1, ceil(T / min(P, cap)))] calls. *)
Theorem collector_tolerates_page_cap
        (A : Type) (D : list A) (cap : nat) (cfg : Config) (fuel : nat) :
  0 < cap ->
  0 < txPageSize cfg ->
  Nat.max 1 (ceil_div (length D) (Nat.min (txPageSize cfg) cap)) <= fuel ->
  fetchAllUserTransactionsForMarket (serve_capped cap D) cfg fuel =
  Returned D (Nat.max 1 (ceil_div (length D) (Nat.min (txPageSize cfg) cap))).
Proof.
  intros Hcap HP Hfuel. unfold fetchAllUserTransactionsForMarket.
  rewrite (@loop_same_answers A (serve D) (serve_capped cap D)
             (Nat.min (txPageSize cfg) cap) (txPageSize cfg))
    by reflexivity.
  apply (@PaginateFacts.loop_well_formed A (serve D) D); [|lia|assumption].
  intros n first skip. reflexivity.
Qed.

(** Five items, pages of 200 asked for, 2 delivered. *)
Lemma collector_tolerates_page_cap_witness :
  fetchAllUserTransactionsForMarket (serve_capped 2 [1; 2; 3; 4; 5])
                                    default_config 3 =
  Returned [1; 2; 3; 4; 5] 3.
Proof.
  apply (@collector_tolerates_page_cap nat [1; 2; 3; 4; 5] 2 default_config 3).
  - lia.
  - simpl. lia.
  - vm_compute. lia.
Defined.

(** *** The loops of the data builder *)

Lemma div_batch_step (R : nat) : 100 <= R -> R / 100 = S ((R - 100) / 100).
Proof.
  intros H. replace R with ((R - 100) + 1 * 100) at 1 by lia.
  rewrite Nat.div_add by lia. lia.
Qed.

Section BuilderLoops.
Variable A : Type.
Variable query : nat -> nat -> nat -> result (page A).
Variable D : list A.
Hypothesis query_serves : well_formed query D.

Lemma getAllMarkets_collects_rest :
  forall fuel skip all calls,
    skip <= length D ->
    (length D - skip) / 100 < fuel ->
    getAllMarkets_loop query fuel skip all calls =
    Returned (all ++ skipn skip D) (calls + (length D - skip) / 100 + 1).
Proof.
  induction fuel as [|fuel IH]; intros skip all calls Hskip Hfuel; [lia|].
  cbn [getAllMarkets_loop]. rewrite query_serves. cbn [items].
  rewrite length_firstn, length_skipn. unfold batchSize.
  destruct (Nat.le_gt_cases 100 (length D - skip)) as [Hfull|Hshort].
  - replace (Nat.min 100 (length D - skip) =? 100) with true
      by (symmetry; apply Nat.eqb_eq; lia).
    rewrite (div_batch_step Hfull) in Hfuel |- *.
    rewrite IH by (replace (length D - (skip + 100)) with (length D - skip - 100) by lia; lia).
    f_equal.
    + rewrite <- app_assoc. f_equal.
      rewrite <- (firstn_skipn 100 (skipn skip D)) at 2.
      f_equal. rewrite skipn_skipn. f_equal. lia.
    + replace (length D - (skip + 100)) with (length D - skip - 100) by lia. lia.
  - replace (Nat.min 100 (length D - skip) =? 100) with false
      by (symmetry; apply Nat.eqb_neq; lia).
    rewrite Nat.div_small by lia.
    rewrite firstn_all2 by (rewrite length_skipn; lia).
    f_equal. lia.
Qed.

Lemma getUserTransactions_collects_rest :
  forall fuel skip all calls,
    length all = skip ->
    skip < length D ->
    ceil_div (length D - skip) 100 <= fuel ->
    getUserTransactions_loop query fuel skip all calls =
    Returned (all ++ skipn skip D) (calls + ceil_div (length D - skip) 100).
Proof.
  induction fuel as [|fuel IH]; intros skip all calls Hall Hskip Hfuel.
  - destruct (Nat.le_gt_cases (length D - skip) 100).
    + rewrite PaginateFacts.ceil_div_small in Hfuel by lia. lia.
    + rewrite PaginateFacts.ceil_div_step in Hfuel by lia. lia.
  - cbn [getUserTransactions_loop]. rewrite query_serves. cbn [items countTotal].
    rewrite length_app, length_firstn, length_skipn, Hall. unfold batchSize.
    destruct (Nat.le_gt_cases (length D - skip) 100) as [Hlast|Hmore].
    + replace ((Nat.min 100 (length D - skip) <? 100)
               || (length D <=? skip + Nat.min 100 (length D - skip)))
        with true
        by (symmetry; apply orb_true_iff; right; apply Nat.leb_le; lia).
      rewrite PaginateFacts.ceil_div_small by lia.
      rewrite firstn_all2 by (rewrite length_skipn; lia).
      f_equal. lia.
    + replace (Nat.min 100 (length D - skip) <? 100) with false
        by (symmetry; apply Nat.ltb_ge; lia).
      replace (length D <=? skip + Nat.min 100 (length D - skip)) with false
        by (symmetry; apply Nat.leb_gt; lia).
      cbn [orb].
      rewrite PaginateFacts.ceil_div_step in Hfuel |- * by lia.
      rewrite IH.
      * f_equal.
        -- rewrite <- app_assoc. f_equal.
           rewrite <- (firstn_skipn 100 (skipn skip D)) at 2.
           f_equal. rewrite skipn_skipn. f_equal. lia.
        -- replace (length D - (skip + 100)) with (length D - skip - 100) by lia. lia.
      * rewrite length_app, length_firstn, length_skipn. lia.
      * lia.
      * replace (length D - (skip + 100)) with (length D - skip - 100) by lia. lia.
Qed.
End BuilderLoops.

(** X6: on a provider that serves [T] items by offset, the builder's
    [getAllMarkets] returns the [T] items in order after [floor(T / 100) + 1]
    requests (one request more than pages when [T] is a multiple of 100,
    because only a page shorter than 100 ends its loop), and its
    [getUserTransactions] returns them after [max(1, ceil(T / 100))]
    requests. *)
Theorem builder_listings_return_all
        (A : Type) (query : nat -> nat -> nat -> result (page A))
        (D : list A) (fuel : nat) :
  well_formed query D ->
  length D / 100 + 1 <= fuel ->
  getAllMarkets query fuel = Returned D (length D / 100 + 1)
  /\ getUserTransactions query fuel =
     Returned D (Nat.max 1 (ceil_div (length D) 100)).
Proof.
  intros Hwf Hfuel. split.
  - unfold getAllMarkets.
    rewrite (getAllMarkets_collects_rest Hwf) by (rewrite ?Nat.sub_0_r; lia).
    rewrite Nat.sub_0_r. reflexivity.
  - unfold getUserTransactions.
    destruct (Nat.eq_dec (length D) 0) as [H0|H0].
    + destruct fuel as [|fuel]; [lia|].
      cbn [getUserTransactions_loop]. rewrite Hwf. cbn [items countTotal].
      destruct D; [|discriminate]. reflexivity.
    + assert (Hc : 1 <= ceil_div (length D) 100 <= length D / 100 + 1).
      { destruct (Nat.le_gt_cases (length D) 100).
        - rewrite PaginateFacts.ceil_div_small by lia. lia.
        - unfold ceil_div.
          replace (length D + 100 - 1) with ((length D - 1) + 1 * 100) by lia.
          rewrite Nat.div_add by lia.
          pose proof (Nat.Div0.div_le_mono (length D - 1) (length D) 100).
          lia. }
      rewrite Nat.max_r by lia.
      rewrite (getUserTransactions_collects_rest Hwf)
        by (rewrite ?Nat.sub_0_r; cbn [length]; lia).
      rewrite Nat.sub_0_r. reflexivity.
Qed.

(** Two hundred markets take three requests, the last one for an empty
    page. *)
Lemma builder_listings_return_all_witness :
  getAllMarkets (serve (seq 0 200)) 3 = Returned (seq 0 200) 3
  /\ getUserTransactions (serve (seq 0 200)) 3 = Returned (seq 0 200) 2.
Proof.
  destruct (@builder_listings_return_all nat (serve (seq 0 200)) (seq 0 200) 3)
    as [H1 H2].
  - intros n first skip. reflexivity.
  - rewrite length_seq. vm_compute. lia.
  - rewrite length_seq in H1, H2. split; [exact H1|exact H2].
Defined.

(** X7: the builder's loops take a page shorter than 100 items for the last
    one.  Against a server that caps pages below 100 they make one request
    and return the first [cap] items only, whatever total the server
    reports. *)
Theorem builder_stops_at_short_page
        (A : Type) (D : list A) (cap fuel : nat) :
  cap < 100 ->
  getAllMarkets (serve_capped cap D) (S fuel) = Returned (firstn cap D) 1
  /\ getUserTransactions (serve_capped cap D) (S fuel) = Returned (firstn cap D) 1.
Proof.
  intros Hcap.
  assert (Hlen : length (firstn (Nat.min batchSize cap) (skipn 0 D)) < 100).
  { rewrite length_firstn. unfold batchSize. lia. }
  assert (Hpage : firstn (Nat.min batchSize cap) (skipn 0 D) = firstn cap D).
  { unfold batchSize. rewrite Nat.min_r by lia. reflexivity. }
  split.
  - unfold getAllMarkets. cbn [getAllMarkets_loop serve_capped items].
    replace (length (firstn (Nat.min batchSize cap) (skipn 0 D)) =? batchSize)
      with false by (symmetry; apply Nat.eqb_neq; unfold batchSize at 2; lia).
    rewrite Hpage. reflexivity.
  - unfold getUserTransactions.
    cbn [getUserTransactions_loop serve_capped items countTotal].
    replace (length (firstn (Nat.min batchSize cap) (skipn 0 D)) <? batchSize)
      with true by (symmetry; apply Nat.ltb_lt; unfold batchSize at 2; lia).
    cbn [orb app]. rewrite Hpage. reflexivity.
Qed.

(** Of 120 transactions served 50 per page the builder keeps 50. *)
Lemma builder_stops_at_short_page_witness :
  getUserTransactions (serve_capped 50 (seq 0 120)) 1 =
  Returned (seq 0 50) 1.
Proof.
  destruct (@builder_stops_at_short_page nat (seq 0 120) 50 0) as [_ H].
  - lia.
  - exact H.
Defined.

(** *** Curators and vaults *)

Section VaultListing.
Variables C V : Type.
Variable gql : nat -> nat -> nat -> result (curators_and_vaults C V).

Lemma more_vaults_collects_rest (Cs : list C) (D : list V) :
  (forall n first skip, gql n first skip = serve_vaults Cs D n first skip) ->
  forall fuel vSkip all calls,
    vSkip <= length D ->
    ceil_div (length D - vSkip) 100 <= fuel ->
    more_vaults gql fuel vSkip (length D) all calls =
    Returned (all ++ skipn vSkip D) (calls + ceil_div (length D - vSkip) 100).
Proof.
  intros Hserve.
  induction fuel as [|fuel IH]; intros vSkip all calls Hskip Hfuel.
  - assert (vSkip = length D).
    { destruct (Nat.eq_dec vSkip (length D)); [assumption|].
      destruct (Nat.le_gt_cases (length D - vSkip) 100).
      - rewrite PaginateFacts.ceil_div_small in Hfuel by lia. lia.
      - rewrite PaginateFacts.ceil_div_step in Hfuel by lia. lia. }
    subst vSkip. cbn [more_vaults]. rewrite Nat.ltb_irrefl.
    rewrite Nat.sub_diag, PaginateFacts.ceil_div_zero, skipn_all, app_nil_r.
    f_equal. lia.
  - cbn [more_vaults]. destruct (vSkip <? length D) eqn:Hlt.
    + apply Nat.ltb_lt in Hlt. rewrite Hserve.
      cbn [serve_vaults answer_vaults items countTotal or_empty].
      rewrite length_firstn, length_skipn. unfold vFirst.
      destruct (Nat.le_gt_cases (length D - vSkip) 100) as [Hlast|Hmore].
      * replace (vSkip + Nat.min 100 (length D - vSkip)) with (length D) by lia.
        rewrite IH
          by (rewrite ?Nat.sub_diag, ?PaginateFacts.ceil_div_zero; lia).
        rewrite Nat.sub_diag, PaginateFacts.ceil_div_zero.
        rewrite PaginateFacts.ceil_div_small by lia.
        rewrite firstn_all2 by (rewrite length_skipn; lia).
        rewrite skipn_all, app_nil_r. f_equal. lia.
      * rewrite PaginateFacts.ceil_div_step in Hfuel |- * by lia.
        rewrite Nat.min_l by lia.
        rewrite IH
          by (replace (length D - (vSkip + 100)) with (length D - vSkip - 100) by lia; lia).
        f_equal.
        -- rewrite <- app_assoc. f_equal.
           rewrite <- (firstn_skipn 100 (skipn vSkip D)) at 2.
           f_equal. rewrite skipn_skipn. f_equal. lia.
        -- replace (length D - (vSkip + 100)) with (length D - vSkip - 100) by lia. lia.
    + apply Nat.ltb_ge in Hlt. assert (vSkip = length D) by lia. subst vSkip.
      rewrite Nat.sub_diag, PaginateFacts.ceil_div_zero, skipn_all, app_nil_r.
      f_equal. lia.
Qed.

(** Without a new vault and with a total that stays ahead, the loop asks
    again and again. *)
Lemma more_vaults_stalls (k : nat) :
  (forall n, 1 <= n -> exists page t,
        gql n vFirst k = Ok page /\
        or_empty (items (answer_vaults page)) = [] /\
        countTotal (answer_vaults page) = Some t /\ k < t) ->
  forall fuel total all calls,
    1 <= calls -> k < total ->
    more_vaults gql fuel k total all calls = Diverged.
Proof.
  intros Hstall. induction fuel as [|fuel IH]; intros total all calls Hc Hk;
    cbn [more_vaults];
    (replace (k <? total) with true by (symmetry; apply Nat.ltb_lt; lia));
    [reflexivity|].
  destruct (Hstall calls Hc) as (page & t & Hpage & Hempty & Htot & Hlt).
  rewrite Hpage, Hempty, Htot. cbn [length]. rewrite Nat.add_0_r.
  apply IH; [lia|assumption].
Qed.
End VaultListing.

(** X8: on a provider that serves the curators and, by offset, [T] vaults,
    [fetchCuratorsAndAllVaults] returns the curators of the first page and
    the [T] vaults in order after [max(1, ceil(T / 100))] requests. *)
Theorem fetchCuratorsAndAllVaults_returns_all
        (C V : Type) (gql : nat -> nat -> nat -> result (curators_and_vaults C V))
        (Cs : list C) (D : list V) (fuel : nat) :
  (forall n first skip, gql n first skip = serve_vaults Cs D n first skip) ->
  ceil_div (length D) 100 <= S fuel ->
  fetchCuratorsAndAllVaults gql fuel =
  Listed Cs D (Nat.max 1 (ceil_div (length D) 100)).
Proof.
  intros Hserve Hfuel. unfold fetchCuratorsAndAllVaults.
  rewrite Hserve.
  cbn [serve_vaults answer_curators answer_vaults items countTotal or_empty skipn].
  rewrite (more_vaults_collects_rest _ Hserve); unfold vFirst.
  - rewrite length_firstn.
    destruct (Nat.le_gt_cases (length D) 100) as [Hsmall|Hbig].
    + rewrite Nat.min_r, Nat.sub_diag, PaginateFacts.ceil_div_zero by lia.
      rewrite firstn_all2, skipn_all, app_nil_r by lia.
      destruct (Nat.eq_dec (length D) 0) as [H0|H0].
      * rewrite H0, PaginateFacts.ceil_div_zero. reflexivity.
      * rewrite PaginateFacts.ceil_div_small by lia. reflexivity.
    + rewrite Nat.min_l by lia. rewrite firstn_skipn.
      rewrite (PaginateFacts.ceil_div_step (R := length D) (P := 100)) by lia.
      f_equal; lia.
  - rewrite length_firstn. lia.
  - rewrite length_firstn.
    destruct (Nat.le_gt_cases (length D) 100) as [Hsmall|Hbig].
    + rewrite Nat.min_r, Nat.sub_diag, PaginateFacts.ceil_div_zero by lia. lia.
    + rewrite Nat.min_l by lia.
      rewrite (PaginateFacts.ceil_div_step (R := length D) (P := 100)) in Hfuel by lia.
      lia.
Qed.

(** Two hundred and fifty vaults take three requests. *)
Lemma fetchCuratorsAndAllVaults_returns_all_witness :
  fetchCuratorsAndAllVaults (serve_vaults [7] (seq 0 250)) 2 =
  Listed [7] (seq 0 250) 3.
Proof.
  apply (@fetchCuratorsAndAllVaults_returns_all nat nat
           (serve_vaults [7] (seq 0 250)) [7] (seq 0 250) 2).
  - reflexivity.
  - rewrite length_seq. vm_compute. lia.
Defined.

(** X9: unlike the other paginated loops, [fetchCuratorsAndAllVaults] has
    no guard for an empty page.  When the first page holds [k] vaults of a
    larger reported total and every later page is empty while the reported
    total stays above [k], the [while] loop never ends: no amount of fuel
    makes the call return or throw. *)
Theorem fetchCuratorsAndAllVaults_stalls_on_empty_page
        (C V : Type) (gql : nat -> nat -> nat -> result (curators_and_vaults C V))
        (firstPage : curators_and_vaults C V) (t : nat) :
  gql 0 vFirst 0 = Ok firstPage ->
  countTotal (answer_vaults firstPage) = Some t ->
  length (or_empty (items (answer_vaults firstPage))) < t ->
  (forall n, 1 <= n -> exists page t',
        gql n vFirst (length (or_empty (items (answer_vaults firstPage)))) = Ok page /\
        or_empty (items (answer_vaults page)) = [] /\
        countTotal (answer_vaults page) = Some t' /\
        length (or_empty (items (answer_vaults firstPage))) < t') ->
  forall fuel, fetchCuratorsAndAllVaults gql fuel = ListingDiverged.
Proof.
  intros Hfirst Htot Hlt Hstall fuel. unfold fetchCuratorsAndAllVaults.
  rewrite Hfirst, Htot.
  rewrite (@more_vaults_stalls C V gql _ Hstall); [reflexivity|lia|assumption].
Qed.

(** Three vaults delivered, five reported, nothing more to come. *)
Lemma fetchCuratorsAndAllVaults_stalls_on_empty_page_witness :
  fetchCuratorsAndAllVaults (@serve_stalled nat nat [1; 2; 3] 5) 1000 =
  ListingDiverged.
Proof.
  refine (@fetchCuratorsAndAllVaults_stalls_on_empty_page nat nat
            (@serve_stalled nat nat [1; 2; 3] 5)
            {| answer_curators := None;
               answer_vaults := {| items := Some [1; 2; 3];
                                   countTotal := Some 5 |} |} 5 _ _ _ _ 1000).
  - reflexivity.
  - reflexivity.
  - simpl. lia.
  - intros n Hn. destruct n as [|n]; [lia|].
    eexists. exists 5. simpl. repeat split. lia.
Defined.

End ListingFacts.

(** ** Principal-token markets *)

Module MatchingFacts.
Import Js Address Matching.

(** *** Strings *)

Lemma toLowerCase_app (a b : string) :
  toLowerCase (a ++ b) = (toLowerCase a ++ toLowerCase b)%string.
Proof.
  induction a as [|c a IH]; [reflexivity|].
  cbn [String.append toLowerCase]. rewrite IH. reflexivity.
Qed.

Lemma prefix_app (a b : string) : String.prefix a (a ++ b) = true.
Proof.
  induction a as [|c a IH]; cbn [String.append String.prefix].
  - destruct b; reflexivity.
  - destruct (ascii_dec c c); [assumption|congruence].
Qed.

Lemma prefix_includes (needle s : string) :
  String.prefix needle s = true -> Retry.includes needle s = true.
Proof.
  intros H. destruct s; cbn [Retry.includes]; rewrite H; reflexivity.
Qed.

Lemma includes_app (needle a b : string) :
  Retry.includes needle (a ++ needle ++ b) = true.
Proof.
  induction a as [|c a IH].
  - cbn [String.append]. apply prefix_includes. apply prefix_app.
  - cbn [String.append Retry.includes]. rewrite IH. apply orb_true_r.
Qed.

Lemma includes_char_free (c : ascii) (s : string) :
  free_of c s = true -> Retry.includes (String c EmptyString) s = false.
Proof.
  induction s as [|a s IH]; [reflexivity|].
  cbn [free_of]. intros H. apply andb_true_iff in H. destruct H as [Ha Hs].
  cbn [Retry.includes String.prefix]. rewrite (IH Hs).
  destruct (ascii_dec c a) as [->|Hne].
  - rewrite Ascii.eqb_refl in Ha. discriminate.
  - reflexivity.
Qed.

Lemma split_free (c : ascii) (s : string) :
  free_of c s = true -> split c s = [s].
Proof.
  induction s as [|a s IH]; [reflexivity|].
  cbn [free_of split]. intros H. apply andb_true_iff in H. destruct H as [Ha Hs].
  apply negb_true_iff in Ha. rewrite Ha, (IH Hs). reflexivity.
Qed.

Lemma split_one_separator (c : ascii) (a b : string) :
  free_of c a = true -> free_of c b = true ->
  split c (a ++ String c b) = [a; b].
Proof.
  intros Ha Hb. induction a as [|x a IH].
  - cbn [String.append split]. rewrite Ascii.eqb_refl, (split_free c b Hb).
    reflexivity.
  - cbn [free_of] in Ha. apply andb_true_iff in Ha. destruct Ha as [Hx Ha].
    apply negb_true_iff in Hx.
    cbn [String.append split]. rewrite Hx, (IH Ha). reflexivity.
Qed.

(** The last part of a split is what follows the last separator. *)
Lemma split_last_part (c : ascii) (q : string) :
  free_of c q = true ->
  forall p, exists hd tl,
      split c (p ++ String c q) = hd :: tl /\ last tl EmptyString = q /\ tl <> [].
Proof.
  intros Hq. induction p as [|x p (hd & tl & Hsplit & Hlast & Hne)].
  - cbn [String.append split]. rewrite Ascii.eqb_refl, (split_free c q Hq).
    exists EmptyString, [q]. repeat split. discriminate.
  - cbn [String.append split]. rewrite Hsplit.
    destruct (Ascii.eqb x c).
    + exists EmptyString, (hd :: tl). repeat split; [|discriminate].
      destruct tl; [congruence|exact Hlast].
    + exists (String x hd), tl. repeat split; assumption.
Qed.

Lemma last_VStr (l : list string) :
  l <> [] -> last (map VStr l) VUndefined = VStr (last l EmptyString).
Proof.
  induction l as [|a l IH]; intros Hne; [congruence|].
  destruct l as [|b l]; [reflexivity|].
  change (last (map VStr (a :: b :: l)) VUndefined)
    with (last (map VStr (b :: l)) VUndefined).
  rewrite IH by discriminate. reflexivity.
Qed.

Lemma normalizeAddress_string (s : string) :
  normalizeAddress (VStr s) = Ok (toLowerCase s).
Proof. destruct s; reflexivity. Qed.

(** The composite form [chainId-address]: the address part, lower-cased. *)
Lemma extractPtAddress_composite (p q : string) :
  free_of "-" q = true ->
  extractPtAddressFromPendleActive (VStr (p ++ String "-" q)) =
  Ok (toLowerCase q).
Proof.
  intros Hq. cbn [extractPtAddressFromPendleActive].
  destruct (split_last_part "-" q Hq p) as (hd & tl & Hsplit & Hlast & Hne).
  rewrite last_VStr by apply AddressFacts.split_not_nil.
  rewrite Hsplit.
  replace (last (hd :: tl) EmptyString) with (last tl EmptyString)
    by (destruct tl; [congruence|reflexivity]).
  rewrite Hlast. apply normalizeAddress_string.
Qed.

Lemma toLowerCase_nonempty (s : string) :
  s <> EmptyString -> toLowerCase s <> EmptyString.
Proof. destruct s; [congruence|discriminate]. Qed.

(** *** Matching *)

Lemma find_app (A : Type) (f : A -> bool) (l1 l2 : list A) :
  find f (l1 ++ l2) =
  match find f l1 with
  | Some x => Some x
  | None => find f l2
  end.
Proof.
  induction l1 as [|a l1 IH]; [reflexivity|].
  cbn [app find]. destruct (f a); [reflexivity|assumption].
Qed.

Lemma find_in_chain_first (ptAddr chain : string) :
  forall l,
    forallb extractable (map (pair chain) l) = true ->
    find_in_chain ptAddr l =
    Ok (option_map snd (find (is_match ptAddr) (map (pair chain) l))).
Proof.
  induction l as [|m l IH]; intros Hall; [reflexivity|].
  cbn [map forallb] in Hall. apply andb_true_iff in Hall.
  destruct Hall as [Hm Hl].
  cbn [find_in_chain map find]. unfold extractable, is_match in *.
  cbn [snd] in *. destruct (pt_of m) as [pt|e]; [|discriminate].
  cbn [bind]. destruct (extractPtAddressFromPendleActive pt) as [a|e];
    [|discriminate].
  cbn [bind]. destruct (same_address a ptAddr); [reflexivity|].
  now apply IH.
Qed.

(** X10: when the PT address of every listed market can be extracted, the
    match is the first candidate, in the order of the configured chains and
    then of each chain's list, whose extracted address is non-empty and
    equal to the address looked for; there is none exactly when no candidate
    has that address. *)
Theorem find_match_first_wins
        (chains : list string) (activeByChain : list (string * list value))
        (ptAddr : string) :
  forallb extractable (candidates chains activeByChain) = true ->
  find_match chains activeByChain ptAddr =
  Ok (find (is_match ptAddr) (candidates chains activeByChain)).
Proof.
  induction chains as [|chain chains IH]; intros Hall; [reflexivity|].
  unfold candidates in Hall. cbn [flat_map] in Hall.
  rewrite forallb_app in Hall. apply andb_true_iff in Hall.
  destruct Hall as [Hhere Hrest].
  cbn [find_match]. rewrite (find_in_chain_first ptAddr chain _ Hhere).
  cbn [bind]. unfold candidates. cbn [flat_map]. rewrite find_app.
  destruct (find (is_match ptAddr)
                 (map (pair chain) (or_empty (lookup_chain chain activeByChain))))
    as [[c m]|] eqn:Hfind.
  - cbn [option_map snd]. apply find_some in Hfind. destruct Hfind as [Hin _].
    apply in_map_iff in Hin. destruct Hin as (m' & Heq & _).
    injection Heq as <- <-. reflexivity.
  - cbn [option_map]. apply IH. exact Hrest.
Qed.

(** The second of two chains wins only when the first has no match. *)
Lemma find_match_first_wins_witness :
  find_match ["1"; "8453"]%string
             [("1"%string, [active_market "1-0xAAA" "0xm1"]);
              ("8453"%string, [active_market "8453-0xBBB" "0xm2";
                               active_market "8453-0xbbb" "0xm3"])]
             "0xbbb" =
  Ok (Some ("8453"%string, active_market "8453-0xBBB" "0xm2")).
Proof.
  rewrite (@find_match_first_wins
             ["1"; "8453"]%string
             [("1"%string, [active_market "1-0xAAA" "0xm1"]);
              ("8453"%string, [active_market "8453-0xBBB" "0xm2";
                               active_market "8453-0xbbb" "0xm3"])]
             "0xbbb").
  - reflexivity.
  - reflexivity.
Defined.

Lemma find_in_chain_sound (ptAddr : string) :
  forall l m,
    find_in_chain ptAddr l = Ok (Some m) ->
    In m l /\ ptAddr <> EmptyString /\
    exists pt, pt_of m = Ok pt /\
               extractPtAddressFromPendleActive pt = Ok ptAddr.
Proof.
  induction l as [|x l IH]; intros m Hfind; [discriminate|].
  cbn [find_in_chain] in Hfind.
  destruct (pt_of x) as [pt|e] eqn:Hpt; [|discriminate]. cbn [bind] in Hfind.
  destruct (extractPtAddressFromPendleActive pt) as [a|e] eqn:Ha;
    [|discriminate].
  cbn [bind] in Hfind. destruct (same_address a ptAddr) eqn:Hsame.
  - injection Hfind as <-. unfold same_address in Hsame.
    destruct a as [|c a]; [discriminate|].
    apply String.eqb_eq in Hsame. subst ptAddr.
    split; [now left|]. split; [discriminate|]. exists pt. auto.
  - destruct (IH m Hfind) as (Hin & Hne & Hex). split; [now right|auto].
Qed.

(** X11: whatever the payloads, a reported match is a market of a
    configured chain whose extracted PT address is the address looked for,
    and that address is not empty: a market whose collateral address is
    missing (normalized to the empty string) is never matched. *)
Theorem find_match_sound
        (chains : list string) (activeByChain : list (string * list value))
        (ptAddr chain : string) (m : value) :
  find_match chains activeByChain ptAddr = Ok (Some (chain, m)) ->
  In (chain, m) (candidates chains activeByChain) /\
  ptAddr <> EmptyString /\
  exists pt, pt_of m = Ok pt /\ extractPtAddressFromPendleActive pt = Ok ptAddr.
Proof.
  induction chains as [|c chains IH]; intros Hfind; [discriminate|].
  cbn [find_match] in Hfind.
  destruct (find_in_chain ptAddr (or_empty (lookup_chain c activeByChain)))
    as [[found|]|e] eqn:Hchain; cbn [bind] in Hfind; [| |discriminate].
  - injection Hfind as <- <-.
    destruct (find_in_chain_sound _ _ Hchain) as (Hin & Hne & Hex).
    split; [|auto]. unfold candidates. cbn [flat_map].
    apply in_or_app. left. now apply in_map.
  - destruct (IH Hfind) as (Hin & Hrest). split; [|exact Hrest].
    unfold candidates in *. cbn [flat_map]. apply in_or_app. now right.
Qed.

Lemma find_match_sound_witness :
  In ("1"%string, active_market "1-0xAAA" "0xm1")
     (candidates ["1"%string] [("1"%string, [active_market "1-0xAAA" "0xm1"])])
  /\ "0xaaa"%string <> EmptyString.
Proof.
  destruct (@find_match_sound ["1"%string]
              [("1"%string, [active_market "1-0xAAA" "0xm1"])]
              "0xaaa" "1" (active_market "1-0xAAA" "0xm1") eq_refl)
    as (Hin & Hne & _).
  split; assumption.
Defined.

(** X12: matching is insensitive to letter case and to the chain prefix:
    an active market whose PT is the composite [chainId-address] is matched
    by a collateral address that differs from [address] in letter case only. *)
Theorem find_match_ignores_case
        (chain chainId ptAddress collateralAddress marketAddress : string) :
  free_of "-" ptAddress = true ->
  collateralAddress <> EmptyString ->
  toLowerCase ptAddress = toLowerCase collateralAddress ->
  normalizeAddress (VStr collateralAddress) = Ok (toLowerCase collateralAddress)
  /\ find_match [chain]
       [(chain, [active_market (chainId ++ String "-" ptAddress) marketAddress])]
       (toLowerCase collateralAddress) =
     Ok (Some (chain,
               active_market (chainId ++ String "-" ptAddress) marketAddress)).
Proof.
  intros Hfree Hne Hcase. split; [apply normalizeAddress_string|].
  cbn [find_match lookup_chain]. rewrite String.eqb_refl.
  cbn [or_empty find_in_chain active_market pt_of bind get lookup].
  cbn [String.eqb Ascii.eqb Bool.eqb].
  rewrite (extractPtAddress_composite chainId ptAddress Hfree), Hcase.
  cbn [bind]. unfold same_address.
  destruct (toLowerCase collateralAddress) eqn:Hl.
  - exfalso. revert Hl. now apply toLowerCase_nonempty.
  - rewrite String.eqb_refl. reflexivity.
Qed.

Lemma find_match_ignores_case_witness :
  find_match ["1"%string]
             [("1"%string, [active_market "1-0xAbCd" "0xm1"])]
             "0xabcd" =
  Ok (Some ("1"%string, active_market "1-0xAbCd" "0xm1")).
Proof.
  destruct (@find_match_ignores_case "1" "1" "0xAbCd" "0xABCD" "0xm1")
    as [_ H]; [reflexivity|discriminate|reflexivity|exact H].
Defined.

(** *** Classification *)

(** X13: every collateral token the collector classifies as a principal
    token is also kept by the analyzer's filter with its default
    identifiers; the analyzer keeps more, since it looks for [pt-] anywhere in
    the names and not only at the start of the symbol. *)
Theorem collector_classification_within_analyzer_filter :
  (forall symbol name,
      isLikelyPTTokenSymbolOrName symbol name = true ->
      matchesIdentifiers default_ptTokenIdentifiers symbol name = true)
  /\ isLikelyPTTokenSymbolOrName (Some "LPT-USDC"%string) None = false
  /\ matchesIdentifiers default_ptTokenIdentifiers (Some "LPT-USDC"%string) None = true.
Proof.
  split; [|split; reflexivity].
  intros symbol name H. unfold isLikelyPTTokenSymbolOrName in H.
  unfold matchesIdentifiers, default_ptTokenIdentifiers.
  cbn [existsb]. change (toLowerCase "PT-") with "pt-"%string.
  change (toLowerCase "PT ") with "pt "%string.
  change (toLowerCase "principal token") with "principal token"%string.
  change (toLowerCase "pendle") with "pendle"%string.
  repeat rewrite orb_true_iff in H. repeat rewrite orb_true_iff.
  destruct H as [[[[H|H]|H]|H]|H].
  - left. left. now apply prefix_includes.
  - right. left. left. now apply prefix_includes.
  - right. right. right. left. left. exact H.
  - right. right. right. left. right. exact H.
  - right. right. left. right. exact H.
Qed.

Lemma collector_classification_within_analyzer_filter_witness :
  matchesIdentifiers default_ptTokenIdentifiers (Some "PT-ezETH"%string) None = true.
Proof.
  destruct collector_classification_within_analyzer_filter as [H _].
  apply H. reflexivity.
Defined.

(** X14: the collector's classification does not depend on letter case: a
    symbol that starts with [pt-] or [pt ] in any letter case is classified
    whatever the name, a symbol or name that holds [pendle] in any letter
    case is classified, and a token without symbol and name is not. *)
Theorem classification_ignores_case (p before after : string) (other : option string) :
  (toLowerCase p = "pt-"%string \/ toLowerCase p = "pt "%string ->
   isLikelyPTTokenSymbolOrName (Some (p ++ after)%string) other = true)
  /\ (toLowerCase p = "pendle"%string ->
      isLikelyPTTokenSymbolOrName (Some (before ++ p ++ after)%string) other = true /\
      isLikelyPTTokenSymbolOrName other (Some (before ++ p ++ after)%string) = true)
  /\ isLikelyPTTokenSymbolOrName None None = false
  /\ isLikelyPTTokenSymbolOrName (Some EmptyString) (Some EmptyString) = false.
Proof.
  split; [|split; [|split; reflexivity]].
  - intros Hp. unfold isLikelyPTTokenSymbolOrName. cbn [or_blank].
    rewrite toLowerCase_app. destruct Hp as [-> | ->].
    + rewrite prefix_app. reflexivity.
    + rewrite prefix_app. apply orb_true_iff. left. apply orb_true_iff. left.
      apply orb_true_iff. left. apply orb_true_r.
  - intros Hp. unfold isLikelyPTTokenSymbolOrName. cbn [or_blank].
    rewrite !toLowerCase_app, Hp, includes_app.
    split; repeat rewrite orb_true_r; reflexivity.
Qed.

Lemma classification_ignores_case_witness :
  isLikelyPTTokenSymbolOrName (Some "Pt-ezETH"%string) None = true
  /\ isLikelyPTTokenSymbolOrName None (Some "My PENDLE vault"%string) = true.
Proof.
  split.
  - destruct (@classification_ignores_case "Pt-" EmptyString "ezETH" None)
      as (H & _).
    apply H. left. reflexivity.
  - destruct (@classification_ignores_case "PENDLE" "My " " vault" None)
      as (_ & H & _).
    destruct (H eq_refl) as [_ H2]. exact H2.
Defined.

(** X15: on a PT string with exactly one dash, or with none, the analyzer's
    extraction (the second part of the split) and the collector's (the last
    part, lower-cased) name the same address; with two dashes they differ. *)
Theorem analyzer_and_collector_extraction_agree (a b : string) :
  free_of "-" a = true -> free_of "-" b = true ->
  extractPtAddressFromPendleActive (VStr (a ++ String "-" b)) =
    Ok (toLowerCase (analyzer_pt_address (a ++ String "-" b)))
  /\ extractPtAddressFromPendleActive (VStr b) =
     Ok (toLowerCase (analyzer_pt_address b))
  /\ analyzer_pt_address "1-0xab-cd" = "0xab"%string
  /\ extractPtAddressFromPendleActive (VStr "1-0xab-cd") = Ok "cd"%string.
Proof.
  intros Ha Hb. split; [|split; [|split; reflexivity]].
  - rewrite (extractPtAddress_composite a b Hb). unfold analyzer_pt_address.
    pose proof (includes_app "-" a b) as Hinc. cbn [String.append] in Hinc.
    rewrite Hinc, (split_one_separator "-" a b Ha Hb). reflexivity.
  - unfold analyzer_pt_address. rewrite (includes_char_free "-" b Hb).
    cbn [extractPtAddressFromPendleActive]. rewrite (split_free "-" b Hb).
    cbn [map last]. apply normalizeAddress_string.
Qed.

Lemma analyzer_and_collector_extraction_agree_witness :
  extractPtAddressFromPendleActive (VStr "1-0xAbC") =
  Ok (toLowerCase (analyzer_pt_address "1-0xAbC")).
Proof.
  destruct (@analyzer_and_collector_extraction_agree "1" "0xAbC") as [H _];
    [reflexivity|reflexivity|exact H].
Defined.

(** *** Malformed entries *)

Lemma expected_shape_extractable (chain : string) (m : value) :
  m <> VNull -> m <> VUndefined -> expected_shape (get m "pt") = true ->
  extractable (chain, m) = true.
Proof.
  intros Hnull Hundef Hshape. unfold extractable. cbn [snd].
  destruct (AddressFacts.extractPtAddress_expected_shape _ Hshape) as (s & Hs & _).
  destruct m; try congruence; cbn [pt_of]; rewrite Hs; reflexivity.
Qed.

Lemma find_in_chain_without_match (ptAddr chain : string) :
  forall l,
    find (is_match ptAddr) (map (pair chain) l) = None ->
    existsb (fun c => negb (extractable c)) (map (pair chain) l) = true ->
    exists e, find_in_chain ptAddr l = Throw e.
Proof.
  induction l as [|m l IH]; intros Hnone Hbad; [discriminate|].
  cbn [map find existsb] in Hnone, Hbad. cbn [find_in_chain].
  unfold is_match, extractable in Hnone, Hbad. cbn [snd] in Hnone, Hbad.
  destruct (pt_of m) as [pt|e]; [|now exists e]. cbn [bind].
  destruct (extractPtAddressFromPendleActive pt) as [a|e]; [|now exists e].
  cbn [bind]. destruct (same_address a ptAddr); [discriminate|].
  cbn [negb orb] in Hbad. now apply IH.
Qed.

Lemma find_in_chain_clean (ptAddr chain : string) :
  forall l,
    find (is_match ptAddr) (map (pair chain) l) = None ->
    existsb (fun c => negb (extractable c)) (map (pair chain) l) = false ->
    find_in_chain ptAddr l = Ok None.
Proof.
  intros l Hnone Hclean.
  rewrite (@find_in_chain_first ptAddr chain l), Hnone; [reflexivity|].
  apply forallb_forall. intros c Hc.
  destruct (extractable c) eqn:He; [reflexivity|].
  assert (Hex : existsb (fun c => negb (extractable c)) (map (pair chain) l) = true)
    by (apply existsb_exists; exists c; split; [assumption|now rewrite He]).
  congruence.
Qed.

(** X27: with payloads of the shapes the extractor is written for (no
    missing market, every [pt] a string or an object whose [address], [token]
    and [id] are strings or falsy) the matching never throws.  Otherwise one
    malformed entry is enough to abort it: a PT market that has no match
    among the candidates reads them all, so it throws as soon as one of them
    cannot be extracted; nothing in [run] catches this. *)
Theorem malformed_active_market_aborts_matching
        (chains : list string) (activeByChain : list (string * list value))
        (ptAddr : string) :
  ((forall chain m,
       In (chain, m) (candidates chains activeByChain) ->
       m <> VNull /\ m <> VUndefined /\ expected_shape (get m "pt") = true) ->
   find_match chains activeByChain ptAddr =
   Ok (find (is_match ptAddr) (candidates chains activeByChain)))
  /\ (find (is_match ptAddr) (candidates chains activeByChain) = None ->
      forall c, In c (candidates chains activeByChain) ->
                extractable c = false ->
                exists e, find_match chains activeByChain ptAddr = Throw e).
Proof.
  split.
  - intros Hshape.
    assert (Hall : forallb extractable (candidates chains activeByChain) = true).
    { apply forallb_forall. intros [chain m] Hin.
      destruct (Hshape chain m Hin) as (H1 & H2 & H3).
      now apply expected_shape_extractable. }
    clear Hshape. revert Hall.
    induction chains as [|chain chains IH]; intros Hall; [reflexivity|].
    unfold candidates in Hall. cbn [flat_map] in Hall.
    rewrite forallb_app in Hall. apply andb_true_iff in Hall.
    destruct Hall as [Hhere Hrest].
    cbn [find_match]. rewrite (find_in_chain_first ptAddr chain _ Hhere).
    cbn [bind]. unfold candidates. cbn [flat_map]. rewrite find_app.
    destruct (find (is_match ptAddr)
                   (map (pair chain)
                        (or_empty (lookup_chain chain activeByChain))))
      as [[c m]|] eqn:Hfind.
    + cbn [option_map snd]. apply find_some in Hfind. destruct Hfind as [Hin _].
      apply in_map_iff in Hin. destruct Hin as (m' & Heq & _).
      injection Heq as <- <-. reflexivity.
    + cbn [option_map]. apply IH. exact Hrest.
  - induction chains as [|chain chains IH]; intros Hnone c Hin Hbad;
      [destruct Hin|].
    unfold candidates in Hnone, Hin. cbn [flat_map] in Hnone, Hin.
    rewrite find_app in Hnone.
    destruct (find (is_match ptAddr)
                   (map (pair chain)
                        (or_empty (lookup_chain chain activeByChain))))
      eqn:Hhere; [discriminate|].
    cbn [find_match].
    destruct (existsb (fun c => negb (extractable c))
                      (map (pair chain)
                           (or_empty (lookup_chain chain activeByChain))))
      eqn:Hex.
    + destruct (find_in_chain_without_match ptAddr chain _ Hhere Hex)
        as (e & ->).
      now exists e.
    + rewrite (find_in_chain_clean ptAddr chain _ Hhere Hex). cbn [bind].
      apply in_app_or in Hin. destruct Hin as [Hin|Hin].
      * exfalso.
        assert (Hex' : existsb (fun c => negb (extractable c))
                               (map (pair chain)
                                    (or_empty (lookup_chain chain activeByChain)))
                       = true)
          by (apply existsb_exists; exists c; split;
              [assumption|now rewrite Hbad]).
        congruence.
      * apply (IH Hnone c Hin Hbad).
Qed.

(** The last entry of the second chain has a numeric address: the market
    looked for is not listed, and the matching throws. *)
Lemma malformed_active_market_aborts_matching_witness :
  exists e,
    find_match ["1"; "8453"]%string
               [("1"%string, [active_market "1-0xAAA" "0xm1"]);
                ("8453"%string,
                 [active_market "8453-0xBBB" "0xm2";
                  VObj [("pt"%string, VObj [("address"%string, VNum 42)])]])]
               "0xccc" = Throw e.
Proof.
  destruct (@malformed_active_market_aborts_matching
              ["1"; "8453"]%string
              [("1"%string, [active_market "1-0xAAA" "0xm1"]);
               ("8453"%string,
                [active_market "8453-0xBBB" "0xm2";
                 VObj [("pt"%string, VObj [("address"%string, VNum 42)])]])]
              "0xccc") as [_ H].
  apply (H eq_refl
           ("8453"%string,
            VObj [("pt"%string, VObj [("address"%string, VNum 42)])])).
  - right. right. now left.
  - reflexivity.
Defined.

End MatchingFacts.

(** ** The exporters: CSV fields, XML text, one cell per key *)

Module ExportFacts.
Import Js Sheets Xml.

(** *** CSV fields *)

Lemma append_last_inj (a b : string) (c d : ascii) :
  (a ++ String c EmptyString)%string = (b ++ String d EmptyString)%string ->
  a = b /\ c = d.
Proof.
  revert b. induction a as [|x a IH]; intros [|y b] H; cbn [String.append] in H.
  - injection H as ->. auto.
  - injection H as _ H. destruct b; discriminate.
  - injection H as _ H. destruct a; discriminate.
  - injection H as -> H. destruct (IH b H) as [-> ->]. auto.
Qed.

Lemma double_quotes_inj (s t : string) :
  double_quotes s = double_quotes t -> s = t.
Proof.
  revert t. induction s as [|x s IH]; intros [|y t] H; cbn [double_quotes] in H.
  - reflexivity.
  - destruct (Ascii.eqb y DQ); discriminate.
  - destruct (Ascii.eqb x DQ); discriminate.
  - destruct (Ascii.eqb x DQ) eqn:Hx, (Ascii.eqb y DQ) eqn:Hy.
    + apply Ascii.eqb_eq in Hx, Hy. subst. injection H as H.
      now rewrite (IH t H).
    + injection H as Hc _. subst y. apply Ascii.eqb_eq in Hx. subst x.
      rewrite Ascii.eqb_refl in Hy. discriminate.
    + injection H as Hc _. subst x. apply Ascii.eqb_eq in Hy. subst y.
      rewrite Ascii.eqb_refl in Hx. discriminate.
    + injection H as -> H. now rewrite (IH t H).
Qed.

Lemma double_quotes_unquoted (s : string) :
  needsQuote s = false -> double_quotes s = s.
Proof.
  induction s as [|x s IH]; [reflexivity|].
  cbn [needsQuote double_quotes]. intros H.
  apply orb_false_iff in H. destruct H as [H Hs].
  apply orb_false_iff in H. destruct H as [H _].
  apply orb_false_iff in H. destruct H as [H _].
  rewrite H, (IH Hs). reflexivity.
Qed.

Lemma unquoted_head (s : string) (rest : string) :
  needsQuote s = false -> s <> String DQ rest.
Proof. intros H ->. cbn in H. discriminate. Qed.

Lemma csvEscape_string (rt : runtime) (s : string) :
  csvEscape rt (VStr s) =
  if needsQuote (normalize_newlines s)
  then String DQ (double_quotes (normalize_newlines s) ++ String DQ EmptyString)
  else normalize_newlines s.
Proof.
  cbn [csvEscape]. destruct (needsQuote (normalize_newlines s)) eqn:H;
    [reflexivity|]. now apply double_quotes_unquoted.
Qed.

(** X16: the CSV field written for a text loses nothing of it but the
    difference between CR LF and LF: two texts with the same field are equal
    once their line ends are normalized.  A text without double quote, comma
    and line feed is written as it is (a carriage return alone does not make
    the field quoted); any other text is written between double quotes, its
    own double quotes doubled. *)
Theorem csvEscape_keeps_text (rt : runtime) (a b : string) :
  csvEscape rt (VStr a) = csvEscape rt (VStr b) ->
  normalize_newlines a = normalize_newlines b
  /\ (needsQuote (normalize_newlines a) = false ->
      csvEscape rt (VStr a) = normalize_newlines a)
  /\ (needsQuote (normalize_newlines a) = true ->
      csvEscape rt (VStr a) =
      String DQ (double_quotes (normalize_newlines a) ++ String DQ EmptyString)).
Proof.
  rewrite !csvEscape_string. intros H.
  split; [|split; intros ->; reflexivity].
  destruct (needsQuote (normalize_newlines a)) eqn:Ha,
           (needsQuote (normalize_newlines b)) eqn:Hb.
  - injection H as H. apply append_last_inj in H. destruct H as [H _].
    now apply double_quotes_inj.
  - symmetry in H. now apply unquoted_head in H.
  - now apply unquoted_head in H.
  - exact H.
Qed.

Lemma csvEscape_keeps_text_witness :
  normalize_newlines ("a,b" ++ String CR (String LF "c")) =
  normalize_newlines ("a,b" ++ String LF "c").
Proof.
  destruct (@csvEscape_keeps_text plain_runtime
              ("a,b" ++ String CR (String LF "c"))
              ("a,b" ++ String LF "c") eq_refl) as [H _].
  exact H.
Defined.

(** *** XML text *)

Lemma append_assoc (a b c : string) :
  (a ++ b ++ c)%string = ((a ++ b) ++ c)%string.
Proof.
  induction a as [|x a IH]; [reflexivity|].
  cbn [String.append]. now rewrite IH.
Qed.

Lemma replace_all_app (c : ascii) (replacement a s : string) :
  replace_all c replacement (a ++ s) =
  (replace_all c replacement a ++ replace_all c replacement s)%string.
Proof.
  induction a as [|x a IH]; [reflexivity|].
  cbn [String.append replace_all]. rewrite IH.
  destruct (Ascii.eqb x c); [apply append_assoc|reflexivity].
Qed.

Lemma escapeXml_app (a s : string) :
  escapeXml (a ++ s) = (escapeXml a ++ escapeXml s)%string.
Proof. unfold escapeXml. now rewrite !replace_all_app. Qed.

Lemma escapeXml_char (c : ascii) :
  escapeXml (String c EmptyString) = entity c.
Proof.
  unfold escapeXml, entity. cbn [replace_all].
  destruct (Ascii.eqb c "&") eqn:Hamp; [reflexivity|].
  cbn [replace_all].
  destruct (Ascii.eqb c "<") eqn:Hlt; [reflexivity|].
  cbn [replace_all].
  destruct (Ascii.eqb c ">") eqn:Hgt; [reflexivity|].
  cbn [replace_all].
  destruct (Ascii.eqb c DQ) eqn:Hdq; reflexivity.
Qed.

Lemma escapeXml_one_pass (s : string) : escapeXml s = escape_each s.
Proof.
  induction s as [|c s IH]; [reflexivity|].
  change (String c s) with (String c EmptyString ++ s)%string.
  rewrite escapeXml_app, escapeXml_char, IH. reflexivity.
Qed.

Lemma free_of_app (c : ascii) (a b : string) :
  Matching.free_of c (a ++ b) = Matching.free_of c a && Matching.free_of c b.
Proof.
  induction a as [|x a IH]; [reflexivity|].
  cbn [String.append Matching.free_of]. rewrite IH. apply andb_assoc.
Qed.

Lemma entity_markup_free (c : ascii) :
  Matching.free_of "<" (entity c) = true /\
  Matching.free_of ">" (entity c) = true /\
  Matching.free_of DQ (entity c) = true.
Proof.
  unfold entity.
  destruct (Ascii.eqb c "&") eqn:Hamp; [repeat split; reflexivity|].
  destruct (Ascii.eqb c "<") eqn:Hlt; [repeat split; reflexivity|].
  destruct (Ascii.eqb c ">") eqn:Hgt; [repeat split; reflexivity|].
  destruct (Ascii.eqb c DQ) eqn:Hdq; [repeat split; reflexivity|].
  cbn [Matching.free_of]. rewrite Hlt, Hgt, Hdq. repeat split; reflexivity.
Qed.

Lemma escape_each_markup_free (s : string) :
  Matching.free_of "<" (escape_each s) = true /\
  Matching.free_of ">" (escape_each s) = true /\
  Matching.free_of DQ (escape_each s) = true.
Proof.
  induction s as [|c s (IH1 & IH2 & IH3)]; [repeat split; reflexivity|].
  cbn [escape_each]. rewrite !free_of_app, IH1, IH2, IH3.
  destruct (entity_markup_free c) as (-> & -> & ->). repeat split; reflexivity.
Qed.

Lemma entity_cases (c : ascii) :
  (c = "&"%char /\ entity c = "&amp;"%string) \/
  (c = "<"%char /\ entity c = "&lt;"%string) \/
  (c = ">"%char /\ entity c = "&gt;"%string) \/
  (c = DQ /\ entity c = "&quot;"%string) \/
  (c <> "&"%char /\ entity c = String c EmptyString).
Proof.
  unfold entity.
  destruct (Ascii.eqb_spec c "&"); [now left|].
  destruct (Ascii.eqb_spec c "<"); [now right; left|].
  destruct (Ascii.eqb_spec c ">"); [now right; right; left|].
  destruct (Ascii.eqb_spec c DQ); [now right; right; right; left|].
  now right; right; right; right.
Qed.

Lemma escape_each_inj (s t : string) :
  escape_each s = escape_each t -> s = t.
Proof.
  revert t. induction s as [|x s IH]; intros [|y t] H.
  - reflexivity.
  - cbn [escape_each] in H.
    destruct (entity_cases y) as [[_ E]|[[_ E]|[[_ E]|[[_ E]|[_ E]]]]];
      rewrite E in H; discriminate.
  - cbn [escape_each] in H.
    destruct (entity_cases x) as [[_ E]|[[_ E]|[[_ E]|[[_ E]|[_ E]]]]];
      rewrite E in H; discriminate.
  - cbn [escape_each] in H.
    destruct (entity_cases x) as [[Hx Ex]|[[Hx Ex]|[[Hx Ex]|[[Hx Ex]|[Hx Ex]]]]];
    destruct (entity_cases y) as [[Hy Ey]|[[Hy Ey]|[[Hy Ey]|[[Hy Ey]|[Hy Ey]]]]];
      rewrite Ex, Ey in H; cbn [String.append] in H;
      try discriminate;
      try (injection H as H; subst; rewrite (IH t H); reflexivity);
      try (injection H as Hc H; subst; congruence).
    injection H as -> H. now rewrite (IH t H).
Qed.

(** X17: the four replacements of [escapeXml] amount to one pass that
    writes each character's entity: the entities written for [&] are not
    escaped again by the later replacements.  The escaped text holds no [<],
    no [>] and no double quote, and two different texts have different
    escaped texts. *)
Theorem escapeXml_one_pass_no_markup (s : string) :
  escapeXml s = escape_each s
  /\ Matching.free_of "<" (escapeXml s) = true
  /\ Matching.free_of ">" (escapeXml s) = true
  /\ Matching.free_of DQ (escapeXml s) = true
  /\ (forall t, escapeXml s = escapeXml t -> s = t).
Proof.
  split; [apply escapeXml_one_pass|].
  rewrite escapeXml_one_pass.
  destruct (escape_each_markup_free s) as (H1 & H2 & H3).
  repeat (split; [assumption|]).
  intros t H. rewrite escapeXml_one_pass in H. now apply escape_each_inj.
Qed.

(** X18: whatever the cell holds and whatever the runtime prints, the text
    the SpreadsheetML writer puts between the tags of a cell, and the name it
    gives a worksheet, hold no [<], no [>] and no double quote; the name of a
    worksheet is never empty. *)
Theorem xml_text_cannot_close_its_element (rt : runtime) (r : row) (h name : string) :
  Matching.free_of "<" (data_text rt r h) = true
  /\ Matching.free_of ">" (data_text rt r h) = true
  /\ Matching.free_of DQ (data_text rt r h) = true
  /\ Matching.free_of "<" (safeName name) = true
  /\ Matching.free_of ">" (safeName name) = true
  /\ Matching.free_of DQ (safeName name) = true
  /\ safeName name <> EmptyString.
Proof.
  assert (Hdata : Matching.free_of "<" (data_text rt r h) = true /\
                  Matching.free_of ">" (data_text rt r h) = true /\
                  Matching.free_of DQ (data_text rt r h) = true).
  { unfold data_text. destruct (read rt r h) as [v|text|];
      rewrite escapeXml_one_pass; apply escape_each_markup_free. }
  destruct Hdata as (H1 & H2 & H3).
  unfold safeName. rewrite !escapeXml_one_pass.
  destruct (escape_each_markup_free
              match slice31 name with
              | EmptyString => "Sheet1"%string
              | String c rest => String c rest
              end) as (H4 & H5 & H6).
  repeat (split; [assumption|]).
  destruct (slice31 name) as [|c rest]; [discriminate|].
  cbn [escape_each].
  destruct (entity_cases c) as [[_ E]|[[_ E]|[[_ E]|[[_ E]|[_ E]]]]];
    rewrite E; discriminate.
Qed.

(** *** One cell per key *)

Lemma set_key_keys_from (A : Type) (k k' : string) (v : A)
      (obj : list (string * A)) :
  In k' (map fst (set_key k v obj)) -> k' = k \/ In k' (map fst obj).
Proof.
  induction obj as [|[k0 v0] obj IH]; cbn [set_key map fst In].
  - intros [<-|[]]. now left.
  - destruct (String.eqb_spec k k0) as [->|Hne]; cbn [map fst In].
    + intros [<-|Hin]; [now left|right; now right].
    + intros [<-|Hin]; [right; now left|].
      destruct (IH Hin) as [->|Hr]; [now left|right; now right].
Qed.

Lemma set_key_nodup (A : Type) (k : string) (v : A) (obj : list (string * A)) :
  NoDup (map fst obj) -> NoDup (map fst (set_key k v obj)).
Proof.
  induction obj as [|[k0 v0] obj IH]; cbn [set_key map fst]; intros Hnd.
  - constructor; [intros []|constructor].
  - inversion Hnd as [|? ? Hnotin Hrest]; subst.
    destruct (String.eqb_spec k k0) as [->|Hne]; cbn [map fst].
    + constructor; assumption.
    + constructor; [|now apply IH].
      intros Hin. apply set_key_keys_from in Hin.
      destruct Hin as [->|Hin]; [now apply Hne|now apply Hnotin].
Qed.

Lemma lookup_set_key (k k' : string) (v : value) (obj : row) :
  lookup k (set_key k' v obj) =
  if String.eqb k k' then Some v else lookup k obj.
Proof.
  induction obj as [|[k0 v0] obj IH]; cbn [set_key lookup].
  - reflexivity.
  - destruct (String.eqb_spec k' k0) as [->|Hne]; cbn [lookup].
    + destruct (String.eqb k k0); reflexivity.
    + rewrite IH. destruct (String.eqb_spec k k0) as [->|Hne'];
        [|reflexivity].
      destruct (String.eqb_spec k0 k'); [congruence|reflexivity].
Qed.

Lemma fold_put_nodup (es : list (string * value)) :
  forall out, NoDup (map fst out) -> NoDup (map fst (fold_left put es out)).
Proof.
  induction es as [|e es IH]; intros out Hnd; [exact Hnd|].
  cbn [fold_left]. apply IH. unfold put. now apply set_key_nodup.
Qed.

Lemma lookup_fold_put (k : string) (es : list (string * value)) :
  forall out,
    lookup k (fold_left put es out) =
    match find (fun kv => String.eqb k (fst kv)) (rev es) with
    | Some kv => Some (snd kv)
    | None => lookup k out
    end.
Proof.
  induction es as [|e es IH]; intros out; [reflexivity|].
  cbn [fold_left rev]. rewrite IH, MatchingFacts.find_app.
  destruct (find (fun kv => String.eqb k (fst kv)) (rev es)); [reflexivity|].
  cbn [find]. unfold put. rewrite lookup_set_key.
  destruct (String.eqb k (fst e)); reflexivity.
Qed.

(** X19: a flattened record has one cell per key.  When two paths of the
    record give the same key (a field whose name holds a dot against a nested
    field, or a field named like the key of an array), the cell keeps the
    place of the first and the value of the last; nothing tells the two
    apart in the exported row. *)
Theorem flatten_one_cell_per_key (rt : runtime) (v : value) (prefix : string) :
  NoDup (map fst (flatten rt v prefix []))
  /\ (forall k,
        lookup k (flatten rt v prefix []) =
        option_map snd (find (fun kv => String.eqb k (fst kv))
                             (rev (flat_entries rt v prefix))))
  /\ (forall x y z : string,
        flatten rt (VObj [("a.b"%string, VStr x);
                          ("c"%string, VStr z);
                          ("a"%string, VObj [("b"%string, VStr y)])])
                EmptyString [] =
        [("a.b"%string, VStr y); ("c"%string, VStr z)]).
Proof.
  split; [|split].
  - rewrite SheetsFacts.flatten_flat_entries. apply fold_put_nodup. constructor.
  - intros k. rewrite SheetsFacts.flatten_flat_entries, lookup_fold_put.
    destruct (find (fun kv => String.eqb k (fst kv))
                   (rev (flat_entries rt v prefix))); reflexivity.
  - reflexivity.
Qed.

End ExportFacts.

(** ** The collector's run: order of the entries, test mode, sorting, sheets *)

Module CollectorFacts.
Import Aggregate Report.

(** *** Entries follow the markets *)

Lemma mapM_Forall2 (A B : Type) (f : A -> result B) :
  forall l out, mapM f l = Ok out -> Forall2 (fun a b => f a = Ok b) l out.
Proof.
  induction l as [|a l IH]; intros out H; cbn [mapM] in H.
  - injection H as <-. constructor.
  - destruct (f a) as [b|e] eqn:Hfa; [|discriminate]. cbn [bind] in H.
    destruct (mapM f l) as [bs|e]; [|discriminate]. cbn [bind] in H.
    injection H as <-. constructor; [assumption|now apply IH].
Qed.

Lemma mapM_throws (A B : Type) (f : A -> result B) (a : A) (e : error) :
  forall l, In a l -> f a = Throw e -> exists e', mapM f l = Throw e'.
Proof.
  induction l as [|x l IH]; intros Hin Hfa; [destruct Hin|].
  cbn [mapM]. destruct Hin as [->|Hin].
  - rewrite Hfa. now exists e.
  - destruct (f x) as [b|e0]; [|now exists e0]. cbn [bind].
    destruct (IH Hin Hfa) as (e' & ->). now exists e'.
Qed.

Lemma promise_all_values (A B : Type) (f : A -> result B) (first : nat)
      (l : list A) (out : list B) :
  promise_all first (map f l) = Ok out -> mapM f l = Ok out.
Proof.
  unfold promise_all. destruct (rejections (map f l)); [|discriminate].
  now rewrite AggregateFacts.mapM_settled.
Qed.

Lemma promise_all_rejected (A B : Type) (f : A -> result B) (first : nat)
      (a : A) (e : error) :
  forall l, In a l -> f a = Throw e ->
            exists e', promise_all first (map f l) = Throw e'.
Proof.
  intros l Hin Hfa. unfold promise_all.
  assert (Hrej : In e (rejections (map f l))).
  { induction l as [|x l IH]; [destruct Hin|].
    cbn [map rejections]. destruct Hin as [->|Hin].
    - rewrite Hfa. now left.
    - destruct (f x); [now apply IH|right; now apply IH]. }
  destruct (rejections (map f l)) as [|e0 later]; [destruct Hrej|].
  eexists. reflexivity.
Qed.

Lemma market_task_entry (w : provider) (m : market) (entry : market_entry) :
  market_task w m = Ok entry ->
  entry_market entry = m /\ entry_error entry = None /\
  topBorrowersForMarket w (uniqueKey m) = Ok (map borrower (topBorrowers entry)) /\
  Forall (fun b =>
            borrower_error b = None /\
            match truthy_address (borrower b) with
            | Some userAddress =>
                userTransactionsForMarket w (Some userAddress) (uniqueKey m) =
                Ok (borrower_transactions b)
            | None => borrower_transactions b = []
            end)
         (topBorrowers entry).
Proof.
  unfold market_task. intros H.
  destruct (topBorrowersForMarket w (uniqueKey m)) as [bs|e]; [|discriminate].
  cbn [bind] in H.
  match type of H with
  | (bind (mapM ?f bs) _) = _ =>
      destruct (mapM f bs) as [enriched|e] eqn:Hmap; [|discriminate];
      apply mapM_Forall2 in Hmap
  end.
  cbn [bind] in H. injection H as <-.
  cbn [entry_market entry_error topBorrowers].
  repeat split.
  - f_equal. induction Hmap as [|b be bs enriched Hb _ IH]; [reflexivity|].
    cbn [map]. rewrite <- IH. f_equal.
    destruct (truthy_address b);
      [destruct (userTransactionsForMarket w _ _); [|discriminate]|];
      cbn [bind] in Hb; injection Hb as <-; reflexivity.
  - induction Hmap as [|b be bs enriched Hb _ IH]; constructor; [|exact IH].
    destruct (truthy_address b) eqn:Ha.
    + destruct (userTransactionsForMarket w (Some s) (uniqueKey m)) eqn:Htx;
        [|discriminate].
      cbn [bind] in Hb. injection Hb as <-.
      cbn [borrower borrower_error borrower_transactions]. rewrite Ha.
      split; [reflexivity|assumption].
    + cbn [bind] in Hb. injection Hb as <-.
      cbn [borrower borrower_error borrower_transactions]. rewrite Ha.
      split; reflexivity.
Qed.

(** X20: when [run] succeeds there is one entry per market, in the order
    of the market listing, and in each entry one borrower record per listed
    borrower, in order; a borrower with an address carries the transactions
    fetched for that address and a borrower without one carries none, no
    request being made for it.  There is no partial result: when the top
    borrowers of one market, or the transactions of one borrower with an
    address, cannot be fetched, the whole run throws. *)
Theorem run_entries_follow_markets
        (cfg : Config) (w : provider) (rnd : jitter) (ms : list market) :
  allMorphoMarkets w = Ok ms ->
  (forall out,
      run cfg w rnd = Ok out ->
      morpho_markets (marketsWithBorrowers out) = ms /\
      Forall2 (fun m entry =>
                 entry_market entry = m /\ entry_error entry = None /\
                 topBorrowersForMarket w (uniqueKey m) =
                   Ok (map borrower (topBorrowers entry)) /\
                 Forall (fun b =>
                           borrower_error b = None /\
                           match truthy_address (borrower b) with
                           | Some userAddress =>
                               userTransactionsForMarket w (Some userAddress)
                                                         (uniqueKey m) =
                               Ok (borrower_transactions b)
                           | None => borrower_transactions b = []
                           end)
                        (topBorrowers entry))
              ms (marketsWithBorrowers out))
  /\ (forall m e,
        In m ms -> topBorrowersForMarket w (uniqueKey m) = Throw e ->
        exists e', run cfg w rnd = Throw e')
  /\ (forall m bs b userAddress e,
        In m ms -> topBorrowersForMarket w (uniqueKey m) = Ok bs -> In b bs ->
        truthy_address b = Some userAddress ->
        userTransactionsForMarket w (Some userAddress) (uniqueKey m) = Throw e ->
        exists e', run cfg w rnd = Throw e').
Proof.
  intros Hms. unfold run. rewrite Hms. cbn [bind]. split; [|split].
  - intros out Hrun.
    destruct (promise_all (first_rejection w) (map (market_task w) ms))
      as [entries|e] eqn:Hmap; [|discriminate].
    cbn [bind] in Hrun.
    destruct (curatorsAndAllVaults w) as [cv|e]; [|discriminate].
    cbn [bind] in Hrun. injection Hrun as <-. cbn [marketsWithBorrowers].
    apply promise_all_values in Hmap. apply mapM_Forall2 in Hmap.
    assert (Hall : Forall2 (fun m entry =>
                 entry_market entry = m /\ entry_error entry = None /\
                 topBorrowersForMarket w (uniqueKey m) =
                   Ok (map borrower (topBorrowers entry)) /\
                 Forall (fun b =>
                           borrower_error b = None /\
                           match truthy_address (borrower b) with
                           | Some userAddress =>
                               userTransactionsForMarket w (Some userAddress)
                                                         (uniqueKey m) =
                               Ok (borrower_transactions b)
                           | None => borrower_transactions b = []
                           end)
                        (topBorrowers entry)) ms entries).
    { clear Hms. induction Hmap as [|m entry ms' entries' Hm _ IH];
        [constructor|].
      constructor; [now apply market_task_entry|exact IH]. }
    split; [|exact Hall]. unfold morpho_markets.
    clear Hmap Hms. induction Hall as [|m entry ms' entries' (Hm & _) _ IH];
      [reflexivity|].
    cbn [map]. now rewrite Hm, IH.
  - intros m e Hin Hthrow.
    destruct (@promise_all_rejected market market_entry (market_task w)
                (first_rejection w) m e ms Hin) as (e' & ->).
    + unfold market_task. rewrite Hthrow. reflexivity.
    + now exists e'.
  - intros m bs b userAddress e Hin Hbs Hb Haddr Hthrow.
    assert (Htask : exists e0, market_task w m = Throw e0).
    { unfold market_task. rewrite Hbs. cbn [bind].
      match goal with
      | |- exists e0, bind (mapM ?f bs) _ = _ =>
          destruct (@mapM_throws position borrower_entry f b e bs Hb) as (e0 & ->)
      end.
      - rewrite Haddr, Hthrow. reflexivity.
      - now exists e0. }
    destruct Htask as (e0 & Htask).
    destruct (@promise_all_rejected market market_entry (market_task w)
                (first_rejection w) m e0 ms Hin Htask) as (e' & ->).
    now exists e'.
Qed.

Lemma run_entries_follow_markets_witness :
  exists e', run default_config
                 (sample_provider (Throw (NetworkError "fetch failed")) 0 (Ok None))
                 no_vault_jitter = Throw e'.
Proof.
  destruct (@run_entries_follow_markets default_config
              (sample_provider (Throw (NetworkError "fetch failed")) 0 (Ok None))
              no_vault_jitter [sample_market "0xm1"] eq_refl) as (_ & H & _).
  apply (H (sample_market "0xm1") (NetworkError "fetch failed"));
    [now left|reflexivity].
Defined.

(** *** Test mode *)

Section TestMode.
Variable cfg : Config.
Variable w : provider.
Variable rnd : jitter.
Variable fetchDepositors : result (option (list position)) -> result (list position).




End TestMode.



(** *** Sorting by a numeric key, largest first *)

Section KeySort.
Local Open Scope Q_scope.
Variable A : Type.
Variable key : A -> Q.

Lemma insert_keeps_equal_keys (q : Q) (x : A) (l : list A) :
  filter (fun t => Qeq_bool (key t) q)
         (insert (fun a b => key b - key a) x l) =
  if Qeq_bool (key x) q
  then x :: filter (fun t => Qeq_bool (key t) q) l
  else filter (fun t => Qeq_bool (key t) q) l.
Proof.
  induction l as [|y l IH]; cbn [insert filter]; [reflexivity|].
  destruct (Qle_bool (key y - key x) 0) eqn:Hle; cbn [filter]; [reflexivity|].
  rewrite IH.
  destruct (Qeq_bool (key x) q) eqn:Hx; [|reflexivity].
  destruct (Qeq_bool (key y) q) eqn:Hy; [|reflexivity].
  exfalso. apply Qeq_bool_iff in Hx, Hy.
  assert (Hyx : key y - key x <= 0) by (rewrite Hx, Hy; lra).
  apply Qle_bool_iff in Hyx. congruence.
Qed.

Lemma sort_keeps_equal_keys (q : Q) (l : list A) :
  filter (fun t => Qeq_bool (key t) q) (sort (fun a b => key b - key a) l) =
  filter (fun t => Qeq_bool (key t) q) l.
Proof.
  induction l as [|x l IH]; [reflexivity|].
  cbn [sort filter]. rewrite insert_keeps_equal_keys, IH. reflexivity.
Qed.

Lemma insert_at_head (x : A) (l : list A) :
  Forall (fun y => key y <= key x) l ->
  insert (fun a b => key b - key a) x l = x :: l.
Proof.
  intros Hall. destruct l as [|y l]; [reflexivity|].
  cbn [insert]. inversion Hall as [|? ? Hy _]; subst.
  assert (Hle : key y - key x <= 0) by lra.
  apply Qle_bool_iff in Hle. now rewrite Hle.
Qed.

Lemma sort_of_sorted (l : list A) :
  StronglySorted (fun a b => key b <= key a) l ->
  sort (fun a b => key b - key a) l = l.
Proof.
  induction 1 as [|x l _ IH Hall]; [reflexivity|].
  cbn [sort]. rewrite IH. now apply insert_at_head.
Qed.

Lemma insert_in (x y : A) (l : list A) :
  In y (insert (fun a b => key b - key a) x l) -> y = x \/ In y l.
Proof.
  induction l as [|z l IH]; cbn [insert In].
  - intros [<-|[]]. now left.
  - destruct (Qle_bool (key z - key x) 0); cbn [In].
    + intros [<-|[<-|H]]; auto.
    + intros [<-|H]; [auto|]. destruct (IH H); auto.
Qed.

Lemma insert_keeps_sorted (x : A) (l : list A) :
  StronglySorted (fun a b => key b <= key a) l ->
  StronglySorted (fun a b => key b <= key a)
                 (insert (fun a b => key b - key a) x l).
Proof.
  induction 1 as [|y l Hs IH Hall]; cbn [insert].
  - constructor; constructor.
  - destruct (Qle_bool (key y - key x) 0) eqn:Hle.
    + apply Qle_bool_iff in Hle. constructor; [now constructor|].
      constructor; [lra|].
      eapply Forall_impl; [|exact Hall]. cbn. intros z Hz. lra.
    + constructor; [exact IH|].
      apply Forall_forall. intros z Hz. apply insert_in in Hz.
      destruct Hz as [->|Hz].
      * destruct (Qlt_le_dec (key y) (key x)) as [Hlt|Hge]; [|exact Hge].
        exfalso. assert (H0 : key y - key x <= 0) by lra.
        apply Qle_bool_iff in H0. congruence.
      * rewrite Forall_forall in Hall. now apply Hall.
Qed.

Lemma sort_is_sorted (l : list A) :
  StronglySorted (fun a b => key b <= key a) (sort (fun a b => key b - key a) l).
Proof.
  induction l as [|x l IH]; [constructor|].
  cbn [sort]. now apply insert_keeps_sorted.
Qed.
End KeySort.

(** X22: the sort of a depositor's transactions is stable and idempotent:
    transactions with the same extracted USD value keep the order the
    provider gave them, a list already in non-increasing order is left as it
    is, and sorting twice is sorting once.  So with no USD value at all the
    top five are the first five of the provider's list. *)
Theorem sort_by_usd_is_stable (l : list transaction) :
  (forall q,
      filter (fun t => Qeq_bool (extractAssetsUsd t) q) (sort compareUsd l) =
      filter (fun t => Qeq_bool (extractAssetsUsd t) q) l)
  /\ (StronglySorted usd_desc l -> sort compareUsd l = l)
  /\ sort compareUsd (sort compareUsd l) = sort compareUsd l
  /\ ((forall t, In t l -> no_usd_field t) ->
      forall it, allTransactions it = l -> top5Transactions it = firstn 5 l).
Proof.
  split; [|split; [|split]].
  - intros q. apply (sort_keeps_equal_keys extractAssetsUsd).
  - intros Hs. apply (sort_of_sorted extractAssetsUsd). exact Hs.
  - apply (sort_of_sorted extractAssetsUsd).
    apply (sort_is_sorted extractAssetsUsd).
  - intros Hall it Hit. unfold top5Transactions. rewrite Hit. f_equal.
    apply (sort_of_sorted extractAssetsUsd).
    clear Hit. induction l as [|x l IH]; [constructor|].
    constructor.
    + apply IH. intros t Ht. apply Hall. now right.
    + apply Forall_forall. intros y Hy.
      rewrite (AggregateFacts.no_usd_field_value (Hall y (or_intror Hy))).
      rewrite (AggregateFacts.no_usd_field_value (Hall x (or_introl eq_refl))).
      lra.
Qed.

Lemma sort_by_usd_is_stable_witness :
  top5Transactions
    (sample_depositor [unvalued "t1"; unvalued "t2"; unvalued "t3";
                       unvalued "t4"; unvalued "t5"; unvalued "t6"]) =
  [unvalued "t1"; unvalued "t2"; unvalued "t3"; unvalued "t4"; unvalued "t5"].
Proof.
  destruct (@sort_by_usd_is_stable
              [unvalued "t1"; unvalued "t2"; unvalued "t3";
               unvalued "t4"; unvalued "t5"; unvalued "t6"])
    as (_ & _ & _ & H).
  apply H; [|reflexivity].
  intros t Ht. right. exists {| assetsUsd := None; repaidAssetsUsd := None |}.
  repeat destruct Ht as [<-|Ht]; [..|destruct Ht]; repeat split; reflexivity.
Defined.

(** *** Sheets 2 and 3 *)

Lemma length_flat_map (A B : Type) (f : A -> list B) (l : list A) :
  length (flat_map f l) = list_sum (map (fun a => length (f a)) l).
Proof.
  induction l as [|a l IH]; [reflexivity|].
  cbn [flat_map map list_sum]. now rewrite length_app, IH.
Qed.

(** X23: the sheets of borrowers and of their transactions agree: the
    borrower sheet has one row per borrower record, in the order of the
    markets, the [transactions_count] column sums up to the number of rows of
    the transaction sheet, and every transaction row carries the market key
    and user address of a borrower row with a positive count. *)
Theorem borrower_and_transaction_sheets_agree (entries : list market_entry) :
  length (morpho_top_borrowers entries) =
    list_sum (map (fun entry => length (topBorrowers entry)) entries)
  /\ list_sum (map transactions_count (morpho_top_borrowers entries)) =
     length (morpho_user_transactions entries)
  /\ (forall r, In r (morpho_user_transactions entries) ->
        exists b, In b (morpho_top_borrowers entries) /\
                  borrower_marketUniqueKey b = tx_marketUniqueKey r /\
                  borrower_userAddress b = tx_userAddress r /\
                  0 < transactions_count b)
  /\ length (morpho_markets entries) = length entries.
Proof.
  split; [|split; [|split]].
  - unfold morpho_top_borrowers. rewrite length_flat_map.
    f_equal. apply map_ext. intros entry. apply length_map.
  - unfold morpho_top_borrowers, morpho_user_transactions.
    induction entries as [|entry entries IH]; [reflexivity|].
    cbn [flat_map]. rewrite map_app, list_sum_app, length_app, IH. f_equal.
    rewrite map_map, length_flat_map. f_equal. apply map_ext. intros b.
    cbn [transactions_count]. symmetry. apply length_map.
  - intros r Hr. unfold morpho_user_transactions in Hr.
    apply in_flat_map in Hr. destruct Hr as (entry & Hentry & Hr).
    apply in_flat_map in Hr. destruct Hr as (b & Hb & Hr).
    apply in_map_iff in Hr. destruct Hr as (tx & <- & Htx).
    exists {| borrower_marketUniqueKey := uniqueKey (entry_market entry);
              borrower_userAddress := user_address (borrower b);
              transactions_count := length (borrower_transactions b);
              borrower_assetsUsd := state_assetsUsd (borrower b) |}.
    split; [|cbn; repeat split; destruct (borrower_transactions b);
             [destruct Htx|cbn; lia]].
    unfold morpho_top_borrowers. apply in_flat_map. exists entry.
    split; [assumption|]. apply in_map_iff. exists b. now split.
  - apply length_map.
Qed.

End CollectorFacts.

(** ** The Pendle fetchers *)

Module PendleFacts.
Import Js Retry Pendle.

Lemma includes_suffix (needle a b : string) :
  includes needle b = true -> includes needle (a ++ b) = true.
Proof.
  intros H. induction a as [|c a IH]; [exact H|].
  cbn [String.append includes]. rewrite IH. apply orb_true_r.
Qed.

Lemma message_of_404 (url statusText body : string) :
  includes "HTTP 404" (message url (HttpError 404 statusText body)) = true.
Proof.
  cbn [message]. change (status_text 404) with "404"%string.
  apply (MatchingFacts.includes_app "HTTP 404" EmptyString).
Qed.

Lemma message_quoting_404 (url statusText body : string) (status : Z) :
  includes "HTTP 404" body = true ->
  includes "HTTP 404" (message url (HttpError status statusText body)) = true.
Proof.
  intros H. cbn [message]. repeat apply includes_suffix. exact H.
Qed.

Lemma first_answer_final (cfg : Config) (rnd : nat -> Q)
      (fetch : nat -> result (response value)) (res : response value) :
  fetch 0 = Ok res -> ok res = false -> retryable_status (status res) = false ->
  fetchJsonWithRetry cfg rnd fetch =
  Some (Throw (HttpError (status res) (statusText res) (text res)),
        {| fetches := 1; slept := [] |}).
Proof.
  intros Hres Hok Hretry. unfold fetchJsonWithRetry.
  destruct (Nat.max 1 (maxRetries cfg)) as [|fuel] eqn:Hfuel; [lia|].
  cbn [attempts io0 fetches]. rewrite Hres. unfold http_attempt.
  rewrite Hok, Hretry, andb_false_r. reflexivity.
Qed.

(** X24: the dashboard positions of a borrower never fail the run: for
    every provider the loop stores a value for the borrower and goes on.  A
    404 answer is stored as an empty list of positions with the note
    [Not found], after one request and no retry; so is a first answer with
    any other status that is not retried and whose body merely holds the text
    [HTTP 404]; a failure whose message does not hold that text is stored as
    an empty list with the message of the error. *)
Theorem dashboard_positions_never_fail
        (cfg : Config) (rnd : nat -> Q) (url : string)
        (fetch : nat -> result (response value)) :
  (exists v st, borrower_dashboard cfg rnd url fetch = Some (v, st))
  /\ (forall res,
        fetch 0 = Ok res -> status res = 404%Z ->
        pendleGetUserDashboardPositions cfg rnd url fetch =
        Some (Ok (no_positions "Not found"), {| fetches := 1; slept := [] |}))
  /\ (forall res,
        fetch 0 = Ok res -> ok res = false ->
        retryable_status (status res) = false ->
        includes "HTTP 404" (text res) = true ->
        pendleGetUserDashboardPositions cfg rnd url fetch =
        Some (Ok (no_positions "Not found"), {| fetches := 1; slept := [] |}))
  /\ (forall e st,
        fetchJsonWithRetry cfg rnd fetch = Some (Throw e, st) ->
        includes "HTTP 404" (message url e) = false ->
        pendleGetUserDashboardPositions cfg rnd url fetch = Some (Throw e, st) /\
        borrower_dashboard cfg rnd url fetch =
        Some (no_positions (message url e),
              sleep (inject_Z (rateLimitMs cfg)) st)).
Proof.
  split; [|split; [|split]].
  - unfold borrower_dashboard, pendleGetUserDashboardPositions.
    destruct (fetchJsonWithRetry cfg rnd fetch) as [[[data|e] st]|] eqn:Hrun.
    + eauto.
    + destruct (includes "HTTP 404" (message url e)); eauto.
    + exfalso. revert Hrun. apply RetryFacts.fetchJsonWithRetry_total.
  - intros res Hres Hstatus. unfold pendleGetUserDashboardPositions.
    rewrite (first_answer_final cfg rnd fetch Hres).
    + rewrite Hstatus, message_of_404. reflexivity.
    + unfold ok. rewrite Hstatus. reflexivity.
    + rewrite Hstatus. reflexivity.
  - intros res Hres Hok Hretry Hbody. unfold pendleGetUserDashboardPositions.
    rewrite (first_answer_final cfg rnd fetch Hres Hok Hretry).
    rewrite (@message_quoting_404 url (statusText res) (text res) (status res)
               Hbody).
    reflexivity.
  - intros e st Hrun Hmsg.
    unfold borrower_dashboard, pendleGetUserDashboardPositions.
    rewrite Hrun, Hmsg. split; reflexivity.
Qed.

(** A 400 answer whose body quotes a 404 is stored as [Not found]. *)
Lemma dashboard_positions_never_fail_witness :
  pendleGetUserDashboardPositions default_config no_jitter "u"
    (fun _ => Ok quoting_response) =
  Some (Ok (no_positions "Not found"), {| fetches := 1; slept := [] |}).
Proof.
  destruct (@dashboard_positions_never_fail default_config no_jitter "u"
              (fun _ => Ok quoting_response)) as (_ & _ & H & _).
  apply (H quoting_response); reflexivity.
Defined.

Lemma lookup_chain_set_key (k k' : string) (v : list value)
      (l : list (string * list value)) :
  Matching.lookup_chain k (set_key k' v l) =
  if String.eqb k k' then Some v else Matching.lookup_chain k l.
Proof.
  induction l as [|[k0 v0] l IH]; cbn [set_key Matching.lookup_chain].
  - reflexivity.
  - destruct (String.eqb_spec k' k0) as [->|Hne]; cbn [Matching.lookup_chain].
    + destruct (String.eqb k k0); reflexivity.
    + rewrite IH. destruct (String.eqb_spec k k0) as [->|Hne'];
        [|reflexivity].
      destruct (String.eqb_spec k0 k'); [congruence|reflexivity].
Qed.

Lemma lookup_chain_fold (chain : string) (answers : list (string * result value)) :
  forall acc,
    Matching.lookup_chain chain
      (fold_left (fun activeByChain ca =>
                    set_key (fst ca) (load_chain (snd ca)) activeByChain)
                 answers acc) =
    match find (fun ca => String.eqb chain (fst ca)) (rev answers) with
    | Some ca => Some (load_chain (snd ca))
    | None => Matching.lookup_chain chain acc
    end.
Proof.
  induction answers as [|ca answers IH]; intros acc; [reflexivity|].
  cbn [fold_left rev]. rewrite IH, MatchingFacts.find_app.
  destruct (find (fun ca0 => String.eqb chain (fst ca0)) (rev answers));
    [reflexivity|].
  cbn [find]. rewrite lookup_chain_set_key.
  destruct (String.eqb chain (fst ca)); reflexivity.
Qed.

Lemma active_markets_no_array (data : value) :
  (forall l, data <> VArr l) ->
  active_markets data =
  match get data "markets" with
  | VArr l => l
  | _ =>
      match get data "data" with
      | VArr l => l
      | _ => []
      end
  end.
Proof.
  intros Hdata. destruct data; try reflexivity.
  exfalso. eapply Hdata. reflexivity.
Qed.

(** X25: loading the active markets never fails the run and leaves a list
    for every configured chain: the list of the chain's last answer, empty
    when the request failed or the payload has none of the three accepted
    shapes, so that a chain that could not be loaded offers no candidate to
    the matching.  The collector accepts a bare array, else an array under
    [markets], else an array under [data] (also when [markets] is there but
    is no array), and gives the empty list for anything else; the analyzer
    reads [markets] only, and a bare array leaves it without a list. *)
Theorem active_markets_loaded_for_every_chain
        (answers : list (string * result value)) (chain : string) :
  In chain (map fst answers) ->
  (exists ca,
      find (fun ca => String.eqb chain (fst ca)) (rev answers) = Some ca /\
      fst ca = chain /\
      Matching.lookup_chain chain (load_active answers) =
        Some (load_chain (snd ca)))
  /\ (forall e, load_chain (Throw e) = [] /\
                analyzer_getActivePendleMarkets (Throw e) = VNull)
  /\ (forall l, load_chain (Ok (VArr l)) = l /\
                analyzer_getActivePendleMarkets (Ok (VArr l)) = VUndefined)
  /\ (forall fields l,
        lookup "markets" fields = Some (VArr l) ->
        load_chain (Ok (VObj fields)) = l /\
        analyzer_getActivePendleMarkets (Ok (VObj fields)) = VArr l)
  /\ (forall fields l,
        lookup "markets" fields = None ->
        lookup "data" fields = Some (VArr l) ->
        load_chain (Ok (VObj fields)) = l /\
        analyzer_getActivePendleMarkets (Ok (VObj fields)) = VUndefined)
  /\ (forall data l,
        (forall l', data <> VArr l') ->
        (forall l', get data "markets" <> VArr l') ->
        get data "data" = VArr l ->
        load_chain (Ok data) = l)
  /\ (forall data,
        (forall l', data <> VArr l') ->
        (forall l', get data "markets" <> VArr l') ->
        (forall l', get data "data" <> VArr l') ->
        load_chain (Ok data) = []).
Proof.
  intros Hin. split; [|split; [|split; [|split; [|split; [|split]]]]].
  - unfold load_active. rewrite lookup_chain_fold.
    destruct (find (fun ca => String.eqb chain (fst ca)) (rev answers))
      as [ca|] eqn:Hfind.
    + exists ca. split; [reflexivity|]. split; [|reflexivity].
      apply find_some in Hfind. destruct Hfind as [_ Heq].
      apply String.eqb_eq in Heq. now symmetry.
    + exfalso. apply in_map_iff in Hin. destruct Hin as (ca & Hfst & Hca).
      apply in_rev in Hca. apply (find_none _ _ Hfind ca) in Hca.
      rewrite Hfst, String.eqb_refl in Hca. discriminate.
  - intros e. split; reflexivity.
  - intros l. split; reflexivity.
  - intros fields l Hm. unfold load_chain, analyzer_getActivePendleMarkets.
    cbn [pendleGetActiveMarkets bind active_markets get truthy].
    rewrite Hm. split; reflexivity.
  - intros fields l Hm Hd. unfold load_chain, analyzer_getActivePendleMarkets.
    cbn [pendleGetActiveMarkets bind active_markets get truthy].
    rewrite Hm, Hd. split; reflexivity.
  - intros data l Hdata Hmarkets Hd.
    unfold load_chain, pendleGetActiveMarkets. cbn [bind].
    rewrite (active_markets_no_array Hdata).
    destruct (get data "markets") eqn:Hm;
      try (exfalso; eapply Hmarkets; reflexivity);
      rewrite Hd; reflexivity.
  - intros data Hdata Hmarkets Hd.
    unfold load_chain, pendleGetActiveMarkets. cbn [bind].
    rewrite (active_markets_no_array Hdata).
    destruct (get data "markets") eqn:Hm;
      try (exfalso; eapply Hmarkets; reflexivity);
      destruct (get data "data") eqn:Hg;
      try (exfalso; eapply Hd; reflexivity); reflexivity.
Qed.

Lemma active_markets_loaded_for_every_chain_witness :
  Matching.lookup_chain "1"
    (load_active [("1"%string, Throw (NetworkError "fetch failed"));
                  ("8453"%string, Ok (VArr [VNull]))]) = Some [].
Proof.
  destruct (@active_markets_loaded_for_every_chain
              [("1"%string, Throw (NetworkError "fetch failed"));
               ("8453"%string, Ok (VArr [VNull]))] "1")
    as ((ca & Hfind & _ & Hlook) & _).
  - now left.
  - injection Hfind as <-. exact Hlook.
Defined.

End PendleFacts.

(** ** The builder's summary *)

Module SummaryFacts.
Import Aggregate Summary.

Lemma fold_sum (A : Type) (g : A -> nat) (l : list A) :
  forall a, fold_left (fun sum m => sum + g m) l a = a + list_sum (map g l).
Proof.
  induction l as [|x l IH]; intros a; simpl; [lia|].
  rewrite IH. lia.
Qed.

Lemma list_sum_perm (l l' : list nat) :
  Permutation l l' -> list_sum l = list_sum l'.
Proof.
  induction 1; simpl; lia.
Qed.

(** X26: [generateSummary] counts every stored borrower and transaction,
    lists at most ten markets, those of largest liquidity, largest first, and
    leaves the stored data reordered by liquidity: a permutation of what it
    was, markets of equal liquidity in their former order.  Calling it again
    gives the same summary and changes nothing more. *)
Theorem generateSummary_sorts_the_stored_data
        (totalLiquidityUsd : market_entry -> option Q)
        (allMarketsData : list market_entry) :
  let s := fst (generateSummary totalLiquidityUsd allMarketsData) in
  let after := snd (generateSummary totalLiquidityUsd allMarketsData) in
  totalMarkets s = length allMarketsData
  /\ totalBorrowers s = length (flat_map topBorrowers allMarketsData)
  /\ totalTransactions s =
     length (flat_map (fun m => flat_map borrower_transactions (topBorrowers m))
                      allMarketsData)
  /\ marketsBySize s = firstn 10 after
  /\ Permutation allMarketsData after
  /\ StronglySorted (fun a b => (liquidity totalLiquidityUsd b
                                 <= liquidity totalLiquidityUsd a)%Q) after
  /\ (forall q,
        filter (fun m => Qeq_bool (liquidity totalLiquidityUsd m) q) after =
        filter (fun m => Qeq_bool (liquidity totalLiquidityUsd m) q)
               allMarketsData)
  /\ generateSummary totalLiquidityUsd after = (s, after).
Proof.
  cbn zeta. unfold generateSummary.
  cbn [fst snd totalMarkets totalBorrowers totalTransactions marketsBySize].
  assert (Hperm : Permutation allMarketsData
                              (sort (bySize totalLiquidityUsd) allMarketsData))
    by (apply Permutation_sym; apply AggregateFacts.sort_perm).
  assert (Hidem : sort (bySize totalLiquidityUsd)
                       (sort (bySize totalLiquidityUsd) allMarketsData) =
                  sort (bySize totalLiquidityUsd) allMarketsData).
  { apply (CollectorFacts.sort_of_sorted (liquidity totalLiquidityUsd)).
    apply (CollectorFacts.sort_is_sorted (liquidity totalLiquidityUsd)). }
  split; [reflexivity|].
  split; [rewrite fold_sum, CollectorFacts.length_flat_map; reflexivity|].
  split.
  { rewrite fold_sum, CollectorFacts.length_flat_map. cbn [Nat.add].
    f_equal. apply map_ext. intros m.
    rewrite fold_sum, CollectorFacts.length_flat_map. reflexivity. }
  split; [reflexivity|].
  split; [exact Hperm|].
  split; [apply (CollectorFacts.sort_is_sorted (liquidity totalLiquidityUsd))|].
  split; [intros q;
          apply (CollectorFacts.sort_keeps_equal_keys (liquidity totalLiquidityUsd))|].
  rewrite Hidem. f_equal. f_equal.
  - symmetry. now apply Permutation_length.
  - rewrite !fold_sum. f_equal. apply list_sum_perm.
    apply Permutation_map. now apply Permutation_sym.
  - rewrite !fold_sum. f_equal. apply list_sum_perm.
    apply Permutation_map. now apply Permutation_sym.
Qed.

End SummaryFacts.

(** ** The command line *)

Module CliFacts.
Import Cli.

Lemma slice2_key (a : string) :
  String.prefix "--" a = true -> a = ("--" ++ slice2 a)%string.
Proof.
  destruct a as [|c1 [|c2 rest]]; cbn [String.prefix slice2]; try discriminate.
  - destruct (ascii_dec "-" c1); discriminate.
  - destruct (ascii_dec "-" c1) as [<-|]; [|discriminate].
    destruct (ascii_dec "-" c2) as [<-|]; [|discriminate].
    reflexivity.
Qed.

Lemma argument_in (k : string) (v : arg) (argv : list (string * arg)) :
  argument k argv = Some v -> In (k, v) argv.
Proof.
  induction argv as [|[k' v'] argv IH]; cbn [argument]; [discriminate|].
  destruct (String.eqb_spec k k') as [->|Hne].
  - intros H. injection H as ->. now left.
  - intros H. right. now apply IH.
Qed.

Lemma parse_bindings :
  forall n args argv k v,
    length args <= n ->
    In (k, v) (parse args argv) ->
    In (k, v) argv \/
    (In ("--" ++ k)%string args /\
     match v with
     | Flag => True
     | Value word => In word args /\ is_value word = true
     end).
Proof.
  induction n as [|n IH]; intros args argv k v Hlen Hin.
  - destruct args; [now left|cbn in Hlen; lia].
  - destruct args as [|a rest]; [now left|]. cbn [length] in Hlen.
    cbn [parse] in Hin. destruct (String.prefix "--" a) eqn:Hkey.
    + pose proof (slice2_key a Hkey) as Ha.
      destruct rest as [|next rest'].
      * apply AggregateFacts.set_key_values in Hin.
        destruct Hin as [[-> ->]|Hin]; [|now left].
        right. split; [left; now symmetry|exact I].
      * destruct (is_value next) eqn:Hnext.
        -- apply IH in Hin; [|cbn [length] in Hlen; lia].
           destruct Hin as [Hin|[Hk Hv]].
           ++ apply AggregateFacts.set_key_values in Hin.
              destruct Hin as [[-> ->]|Hin]; [|now left].
              right. split; [left; now symmetry|].
              split; [right; now left|assumption].
           ++ right. split; [right; now right|].
              destruct v; [exact I|].
              destruct Hv as [Hw Hval]. split; [right; now right|assumption].
        -- apply IH in Hin; [|lia].
           destruct Hin as [Hin|[Hk Hv]].
           ++ apply AggregateFacts.set_key_values in Hin.
              destruct Hin as [[-> ->]|Hin]; [|now left].
              right. split; [left; now symmetry|exact I].
           ++ right. split; [now right|].
              destruct v; [exact I|].
              destruct Hv as [Hw Hval]. split; [now right|assumption].
    + apply IH in Hin; [|lia].
      destruct Hin as [Hin|[Hk Hv]]; [now left|].
      right. split; [now right|].
      destruct v; [exact I|].
      destruct Hv as [Hw Hval]. split; [now right|assumption].
Qed.

Lemma parse_without_keys (args : list string) :
  forall argv,
    forallb (fun a => negb (String.prefix "--" a)) args = true ->
    parse args argv = argv.
Proof.
  induction args as [|a rest IH]; intros argv Hall; [reflexivity|].
  cbn [forallb] in Hall. apply andb_true_iff in Hall. destruct Hall as [Ha Hrest].
  apply negb_true_iff in Ha. cbn [parse]. rewrite Ha. now apply IH.
Qed.

(** X28: the command line binds only words that start with two dashes; a
    key followed by a word that does not start with two dashes takes that
    word as its value and is then no flag.  So test mode is on when the first
    word is [--test] or [-t], whatever follows, and otherwise only when
    [--test] or [--t] occurs; a later [-t] is passed over, and [--test]
    followed by a plain word is a value, not a flag. *)
Theorem testMode_needs_a_bare_flag (args : list string) :
  (forall k v,
      In (k, v) (parse args []) ->
      In ("--" ++ k)%string args /\
      match v with
      | Flag => True
      | Value word => In word args /\ word <> EmptyString /\
                      String.prefix "--" word = false
      end)
  /\ testMode ("--test"%string :: args) = true
  /\ testMode ("-t"%string :: args) = true
  /\ (testMode args = true ->
      In "--test"%string args \/ In "--t"%string args \/
      hd EmptyString args = "-t"%string)
  /\ (forallb (fun a => negb (String.prefix "--" a)) args = true ->
      hd EmptyString args <> "-t"%string -> testMode args = false)
  /\ (forall word, is_value word = true ->
        testMode ["--csv"; "out.csv"; "--test"; word]%string = false).
Proof.
  split; [|split; [|split; [|split; [|split]]]].
  - intros k v Hin.
    destruct (@parse_bindings (length args) args [] k v (Nat.le_refl _) Hin)
      as [[]|[Hk Hv]].
    split; [assumption|]. destruct v as [|word]; [exact I|].
    destruct Hv as [Hw Hval]. split; [assumption|].
    unfold is_value in Hval. destruct word; [discriminate|].
    split; [discriminate|]. now apply negb_true_iff in Hval.
  - reflexivity.
  - reflexivity.
  - unfold testMode. intros H.
    apply orb_true_iff in H. destruct H as [H|H].
    + apply orb_true_iff in H. destruct H as [H|H].
      * apply orb_true_iff in H. destruct H as [H|H].
        -- apply String.eqb_eq in H. left. destruct args; [discriminate|].
           cbn [hd] in H. subst. now left.
        -- apply String.eqb_eq in H. right. right. exact H.
      * left. destruct (argument "test" (parse args [])) as [[|w]|] eqn:Harg;
          try discriminate.
        apply argument_in in Harg.
        destruct (@parse_bindings (length args) args [] _ _ (Nat.le_refl _) Harg)
          as [[]|[Hk _]].
        exact Hk.
    + right. left.
      destruct (argument "t" (parse args [])) as [[|w]|] eqn:Harg;
        try discriminate.
      apply argument_in in Harg.
      destruct (@parse_bindings (length args) args [] _ _ (Nat.le_refl _) Harg)
        as [[]|[Hk _]].
      exact Hk.
  - intros Hall Hfirst. unfold testMode.
    rewrite (parse_without_keys args [] Hall). cbn [argument is_true orb].
    rewrite !orb_false_r. apply orb_false_iff. split.
    + apply String.eqb_neq. intros Heq. destruct args as [|a rest];
        [discriminate|].
      cbn [hd] in Heq. subst a. cbn in Hall. discriminate.
    + now apply String.eqb_neq.
  - intros word Hword. unfold testMode. cbn [parse String.prefix hd].
    cbn. rewrite Hword. reflexivity.
Qed.

Lemma testMode_needs_a_bare_flag_witness :
  testMode ["out.csv"; "-t"]%string = false.
Proof.
  destruct (@testMode_needs_a_bare_flag ["out.csv"; "-t"]%string)
    as (_ & _ & _ & _ & H & _).
  apply H; [reflexivity|discriminate].
Defined.

End CliFacts.
